(** * spectr-action: issue sync and PR impact comments

    A shallow embedding of the TypeScript sources of the action
    (src/issues/..., src/pr-impact/...) together with the properties of
    its markers, branch parser, delta parser, formatters and reconcilers.

    Strings are JavaScript strings: sequences of UTF-16 code units, here
    [list N].  Indices are [Z] because the source compares them with [-1]
    and hands negative numbers to [slice]. *)

From Stdlib Require Import String Ascii ZArith NArith Lia List DecimalString.
From stdpp Require Import base decidable list gmap.

Local Open Scope Z_scope.
Local Open Scope list_scope.

Abbreviation str := (list N).

(** An ASCII literal as a sequence of code units. *)
Definition lit (s : string) : str :=
  List.map N_of_ascii (list_ascii_of_string s).

(* ================================================================== *)
(** ** The JavaScript string primitives the sources use *)
(* ================================================================== *)

Module JS.

Definition LF : N := 10%N.
Definition CR : N := 13%N.
Definition SP : N := 32%N.

(** LineTerminator of ECMAScript: LF, CR, U+2028, U+2029. *)
Definition is_line_terminator (c : N) : bool :=
  ((c =? 10) || (c =? 13) || (c =? 8232) || (c =? 8233))%N.

(** The class [\s] (WhiteSpace and LineTerminator), which is also what
    [trim], [trimStart] and [trimEnd] strip. *)
Definition is_ws (c : N) : bool :=
  (((9 <=? c) && (c <=? 13)) || (c =? 32) || (c =? 160) || (c =? 5760)
   || ((8192 <=? c) && (c <=? 8202)) || (c =? 8232) || (c =? 8233)
   || (c =? 8239) || (c =? 8287) || (c =? 12288) || (c =? 65279))%N.

Fixpoint trimStart (s : str) : str :=
  match s with
  | c :: t => if is_ws c then trimStart t else s
  | [] => []
  end.

Fixpoint trimEnd (s : str) : str :=
  match s with
  | [] => []
  | c :: t =>
      match trimEnd t with
      | [] => if is_ws c then [] else [c]
      | t' => c :: t'
      end
  end.

Definition trim (s : str) : str := trimEnd (trimStart s).

Fixpoint startsWith (s p : str) {struct p} : bool :=
  match p, s with
  | [], _ => true
  | a :: p', b :: s' => (a =? b)%N && startsWith s' p'
  | _ :: _, [] => false
  end.

Definition endsWith (s p : str) : bool :=
  startsWith (reverse s) (reverse p).

(** [s === t] on strings. *)
Definition str_eqb (s t : str) : bool := bool_decide (s = t).

(** [hay.indexOf(needle)], [-1] when absent; [i] is the index of the
    first code unit of [hay] in the whole string. *)
Fixpoint indexOf_from (needle hay : str) (i : Z) : Z :=
  if startsWith hay needle then i
  else match hay with
       | [] => -1
       | _ :: t => indexOf_from needle t (i + 1)
       end.

Definition indexOf (hay needle : str) : Z := indexOf_from needle hay 0.

Fixpoint lastIndexOf_from (needle hay : str) (i : Z) : Z :=
  let later := match hay with
               | [] => -1
               | _ :: t => lastIndexOf_from needle t (i + 1)
               end in
  if 0 <=? later then later
  else if startsWith hay needle then i else -1.

Definition lastIndexOf (hay needle : str) : Z :=
  lastIndexOf_from needle hay 0.

(** [s.includes(t)] *)
Definition includes (s t : str) : bool := negb (indexOf s t =? -1).

Definition len (s : str) : Z := Z.of_nat (length s).

(** [s.substring(a, b)]: both ends clamped to [0, length], swapped
    when out of order. *)
Definition substring (s : str) (a b : Z) : str :=
  let a' := Z.max 0 (Z.min a (len s)) in
  let b' := Z.max 0 (Z.min b (len s)) in
  let lo := Z.min a' b' in
  let hi := Z.max a' b' in
  take (Z.to_nat (hi - lo)) (drop (Z.to_nat lo) s).

(** [s.slice(a, b)]: a negative end counts from the end of the string. *)
Definition slice_index (s : str) (i : Z) : Z :=
  if i <? 0 then Z.max (len s + i) 0 else Z.min i (len s).

Definition slice (s : str) (a b : Z) : str :=
  let lo := slice_index s a in
  let hi := slice_index s b in
  take (Z.to_nat (hi - lo)) (drop (Z.to_nat lo) s).

(** [s.slice(a)] *)
Definition slice_from (s : str) (a : Z) : str :=
  drop (Z.to_nat (slice_index s a)) s.

(** [s.split(sep)] for a one-unit separator: always at least one field. *)
Fixpoint split (sep : N) (s : str) : list str :=
  match s with
  | [] => [[]]
  | c :: t =>
      if (c =? sep)%N then [] :: split sep t
      else match split sep t with
           | w :: ws => (c :: w) :: ws
           | [] => [[c]]
           end
  end.

(** [parts.join(sep)] *)
Fixpoint join (sep : str) (parts : list str) : str :=
  match parts with
  | [] => []
  | [p] => p
  | p :: ps => p ++ sep ++ join sep ps
  end.

(** [`${n}`] for a non-negative integer. *)
Definition num (n : nat) : str :=
  lit (NilEmpty.string_of_uint (Nat.to_uint n)).

(** Truthiness of [string | undefined]. *)
Definition truthy (o : option str) : bool :=
  match o with
  | Some (_ :: _) => true
  | _ => false
  end.

End JS.

(* ================================================================== *)
(** ** Regular expressions: the backtracking matcher

    The patterns of the sources use literals, greedy repetition of a
    character class, alternation, capture groups and the anchors.  The
    matcher tries the longest repetition first and gives characters back
    on failure, as the ECMAScript algorithm does. *)
(* ================================================================== *)

Module Regex.
Import JS.

Inductive regex : Type :=
| RLit (s : str)
| RStar (p : N → bool)
| RPlus (p : N → bool)
| RSeq (r1 r2 : regex)
| RAlt (r1 r2 : regex)
| RGroup (r : regex)
| RBegin
| REnd (multiline : bool).

(** The result of a successful match: the captures and the end offset. *)
Definition result : Type := list str * nat.

Section Star.
Variable p : N → bool.
Variable k : nat → str → option result.

Fixpoint star_loop (pos : nat) (s : str) : option result :=
  match s with
  | c :: t =>
      if p c then
        match star_loop (S pos) t with
        | Some r => Some r
        | None => k pos s
        end
      else k pos s
  | [] => k pos s
  end.
End Star.

(** [rmatch r caps pos s k]: match [r] at offset [pos], where [s] is the
    input from [pos] on, then continue with [k]. *)
Fixpoint rmatch (r : regex) (caps : list str) (pos : nat) (s : str)
    (k : list str → nat → str → option result) : option result :=
  match r with
  | RLit l =>
      if startsWith s l
      then k caps (pos + length l)%nat (drop (length l) s)
      else None
  | RStar p => star_loop p (k caps) pos s
  | RPlus p =>
      match s with
      | c :: t => if p c then star_loop p (k caps) (S pos) t else None
      | [] => None
      end
  | RSeq r1 r2 =>
      rmatch r1 caps pos s (λ caps' pos' s', rmatch r2 caps' pos' s' k)
  | RAlt r1 r2 =>
      match rmatch r1 caps pos s k with
      | Some x => Some x
      | None => rmatch r2 caps pos s k
      end
  | RGroup r1 =>
      rmatch r1 caps pos s
        (λ caps' pos' s', k (caps' ++ [take (pos' - pos) s]) pos' s')
  | RBegin => if (pos =? 0)%nat then k caps pos s else None
  | REnd m =>
      match s with
      | [] => k caps pos s
      | c :: _ => if m && is_line_terminator c then k caps pos s else None
      end
  end.

Definition accept : list str → nat → str → option result :=
  λ caps pos _, Some (caps, pos).

(** One attempt at offset [pos]. *)
Definition match_at (r : regex) (pos : nat) (s : str) : option result :=
  rmatch r [] pos s accept.

(** The leftmost match: start offset, end offset, captures. *)
Fixpoint exec_from (r : regex) (pos : nat) (s : str)
    : option (nat * nat * list str) :=
  match match_at r pos s with
  | Some (caps, e) => Some (pos, e, caps)
  | None =>
      match s with
      | [] => None
      | _ :: t => exec_from r (S pos) t
      end
  end.

(** [s.match(r)] for a regex without the [g] flag: the matched text
    followed by the captures, or [None] for [null]. *)
Definition str_match (s : str) (r : regex) : option (list str) :=
  match exec_from r 0 s with
  | Some (b, e, caps) => Some (take (e - b) (drop b s) :: caps)
  | None => None
  end.

(** [m[i]] on a match array. *)
Definition group (m : list str) (i : nat) : str := nth i m [].

(** [s.replace(r, rep)] for a regex with the [g] flag and a replacement
    without [$] patterns.  [skip] counts the code units of the current
    match that are still to be dropped. *)
Fixpoint replace_go (r : regex) (rep : str) (skip pos : nat) (s : str)
    : str :=
  match s with
  | [] =>
      match skip, match_at r pos [] with
      | O, Some _ => rep
      | _, _ => []
      end
  | c :: t =>
      match skip with
      | S n => replace_go r rep n (S pos) t
      | O =>
          match match_at r pos s with
          | Some (_, e) =>
              match (e - pos)%nat with
              | S n => rep ++ replace_go r rep n (S pos) t
              | O => rep ++ c :: replace_go r rep 0 (S pos) t
              end
          | None => c :: replace_go r rep 0 (S pos) t
          end
      end
  end.

Definition replace_all (s : str) (r : regex) (rep : str) : str :=
  replace_go r rep 0 0 s.

End Regex.

(* ================================================================== *)
(** ** src/issues/types.ts *)
(* ================================================================== *)

(** The class [[a-zA-Z0-9_-]] of both marker patterns. *)
Definition is_id_char (c : N) : bool :=
  (((97 <=? c) && (c <=? 122)) || ((65 <=? c) && (c <=? 90))
   || ((48 <=? c) && (c <=? 57)) || (c =? 95) || (c =? 45))%N.

(** [/<!--\s*TAG:([a-zA-Z0-9_-]+)\s*-->/] *)
Definition marker_pattern (tag : str) : Regex.regex :=
  Regex.RSeq (Regex.RLit (lit "<!--"))
    (Regex.RSeq (Regex.RStar JS.is_ws)
       (Regex.RSeq (Regex.RLit (tag ++ lit ":"))
          (Regex.RSeq (Regex.RGroup (Regex.RPlus is_id_char))
             (Regex.RSeq (Regex.RStar JS.is_ws) (Regex.RLit (lit "-->")))))).

Module IssueTypes.
Import JS Regex.

Record IssueSyncConfig := {
  enabled : bool;
  labels : list str;
  titlePrefix : str;
  closeOnArchive : bool;
  updateExisting : bool;
  spectrLabel : str;
  githubToken : str;
}.

Record ChangeProposal := {
  id : str;
  path : str;
  proposalContent : str;
  tasksContent : option str;
  affectedSpecs : list str;
  isArchived : bool;
}.

Record SyncError := {
  err_changeId : str;
  err_message : str;
  err_recoverable : bool;
}.

Record SyncResult := {
  created : nat;
  updated : nat;
  closed : nat;
  totalChanges : nat;
  errors : list SyncError;
}.

Inductive IssueState := open | closed_state.

Record ManagedIssue := {
  number : N;
  changeId : str;
  state : IssueState;
  title : str;
  body : str;
}.

Record RepoContext := { owner : str; repo : str }.

Definition CHANGE_ID_TAG : str := lit "spectr-change-id".

Definition CHANGE_ID_MARKER_PATTERN : regex := marker_pattern CHANGE_ID_TAG.

Definition MAX_ISSUE_BODY_LENGTH : Z := 65536.

Definition generateChangeIdMarker (changeId : str) : str :=
  lit "<!-- spectr-change-id:" ++ changeId ++ lit " -->".

Definition extractChangeIdFromBody (body : str) : option str :=
  match str_match body CHANGE_ID_MARKER_PATTERN with
  | Some m => Some (group m 1)
  | None => None
  end.

End IssueTypes.

(* ================================================================== *)
(** ** src/pr-impact/types.ts *)
(* ================================================================== *)

Module PrTypes.
Import JS Regex.

Inductive PRMode := proposal | archive | remove.

(** The string a [PRMode] is at run time. *)
Definition mode_name (m : PRMode) : str :=
  match m with
  | proposal => lit "proposal"
  | archive => lit "archive"
  | remove => lit "remove"
  end.

Inductive Operation := add | modify | op_remove | rename.

Record SpecChange := {
  capabilityName : str;
  operation : Operation;
  requirementName : str;
  content : option str;
  oldName : option str;
}.

Record OperationCounts := {
  added : nat;
  modified : nat;
  removed : nat;
  renamed : nat;
  total : nat;
}.

Record SpecImpact := {
  changeId : str;
  mode : PRMode;
  isArchived : bool;
  capabilities : list str;
  changes : list SpecChange;
  counts : OperationCounts;
}.

Definition PR_IMPACT_TAG : str := lit "spectr-pr-impact".

Definition PR_IMPACT_MARKER_PATTERN : regex := marker_pattern PR_IMPACT_TAG.

Definition MAX_COMMENT_BODY_LENGTH : Z := 65536.

Definition generatePRImpactMarker (changeId : str) : str :=
  lit "<!-- spectr-pr-impact:" ++ changeId ++ lit " -->".

Definition extractChangeIdFromComment (body : str) : option str :=
  match str_match body PR_IMPACT_MARKER_PATTERN with
  | Some m => Some (group m 1)
  | None => None
  end.

End PrTypes.

(* ================================================================== *)
(** ** src/pr-impact/detect.ts *)
(* ================================================================== *)

Module Detect.
Import JS Regex PrTypes.

(** The class of [.]: every code unit but the line terminators. *)
Definition is_dot (c : N) : bool := negb (is_line_terminator c).

(** [/^spectr\/(proposal|archive|remove)\/(.+)$/] *)
Definition SPECTR_BRANCH_PATTERN : regex :=
  RSeq RBegin
    (RSeq (RLit (lit "spectr/"))
       (RSeq (RGroup (RAlt (RLit (lit "proposal"))
                        (RAlt (RLit (lit "archive")) (RLit (lit "remove")))))
          (RSeq (RLit (lit "/"))
             (RSeq (RGroup (RPlus is_dot)) (REnd false))))).

Record BranchInfo := {
  changeId : option str;
  isSpectrBranch : bool;
  mode : option PRMode;
}.

(** [match[1] as PRMode]: the group can only hold one of the three
    alternatives. *)
Definition as_PRMode (s : str) : option PRMode :=
  if str_eqb s (lit "proposal") then Some proposal
  else if str_eqb s (lit "archive") then Some archive
  else if str_eqb s (lit "remove") then Some remove
  else None.

Definition parseSpectrBranch (branchName : str) : BranchInfo :=
  match str_match branchName SPECTR_BRANCH_PATTERN with
  | None =>
      {| changeId := None; isSpectrBranch := false; mode := None |}
  | Some m =>
      {| changeId := Some (group m 2);
         isSpectrBranch := true;
         mode := as_PRMode (group m 1) |}
  end.

End Detect.

(* ================================================================== *)
(** ** The host: node:fs, node:path and the Unicode case tables

    The sources call into Node for the file system and for paths, and
    into the engine for [toUpperCase]; none of it is code of the
    repository, so it is an interface here.  A call that throws is
    [None]. *)
(* ================================================================== *)

Record Dirent := { d_name : str; d_isDirectory : bool }.

Class Host := {
  path_join : list str → str;
  existsSync : str → bool;
  readdirSync : str → option (list str);
  readdirSync_withFileTypes : str → option (list Dirent);
  readFileSync : str → option str;
  toUpperCase : str → str;
}.

(* ================================================================== *)
(** ** src/pr-impact/calculate.ts *)
(* ================================================================== *)

Module Calculate.
Import JS PrTypes.

Inductive DeltaType := ADDED | MODIFIED | REMOVED | RENAMED.

Definition delta_name (dt : DeltaType) : str :=
  match dt with
  | ADDED => lit "ADDED"
  | MODIFIED => lit "MODIFIED"
  | REMOVED => lit "REMOVED"
  | RENAMED => lit "RENAMED"
  end.

Record ParsedRequirement := { name : str; req_content : str }.

Record RenameOp := { from : str; to : str }.

Record DeltaPlan := {
  plan_added : list ParsedRequirement;
  plan_modified : list ParsedRequirement;
  plan_removed : list str;
  plan_renamed : list RenameOp;
}.

(** [rest || null] *)
Definition or_null (s : str) : option str :=
  match s with
  | [] => None
  | _ => Some s
  end.

Definition matchRequirementHeader (line : str) : option str :=
  if negb (startsWith line (lit "###")) then None
  else
    let rest := trimStart (slice_from line 3) in
    if negb (startsWith rest (lit "Requirement:")) then None
    else
      let rest := trimStart (slice_from rest 12) in
      or_null rest.

Definition isH3Header (line : str) : bool := startsWith line (lit "### ").

Definition matchH2DeltaSection (line : str) : option DeltaType :=
  if negb (startsWith line (lit "## ")) then None
  else
    let rest := trim (slice_from line 3) in
    List.find (λ dt, str_eqb rest (delta_name dt ++ lit " Requirements"))
      [ADDED; MODIFIED; REMOVED; RENAMED].

(** The [while] loop of [findDeltaSectionContent]: advance [headerEnd]
    to the next line feed or to the end of the content. *)
Fixpoint skip_to_newline (s : str) (headerEnd : Z) : Z :=
  match s with
  | c :: t => if (c =? LF)%N then headerEnd
              else skip_to_newline t (headerEnd + 1)
  | [] => headerEnd
  end.

(** The [for] loop of [findDeltaSectionContent]: the slice of [rest]
    before the first line that starts, after indentation, with [## ]. *)
Fixpoint section_end (rest : str) (lines : list str) (offset : Z) : str :=
  match lines with
  | [] => rest
  | line :: lines' =>
      if startsWith (trimStart line) (lit "## ")
      then slice rest 0 offset
      else section_end rest lines' (offset + len line + 1)
  end.

Definition findDeltaSectionContent (content : str) (deltaType : DeltaType)
    : str :=
  let sectionHeader := lit "## " ++ delta_name deltaType ++ lit " Requirements" in
  let headerStart := indexOf content sectionHeader in
  if headerStart =? -1 then []
  else
    let headerEnd := headerStart + len sectionHeader in
    let headerEnd :=
      skip_to_newline (drop (Z.to_nat headerEnd) content) headerEnd in
    let headerEnd :=
      if headerEnd <? len content then headerEnd + 1 else headerEnd in
    let rest := slice_from content headerEnd in
    section_end rest (split LF rest) 0.

(** [requirements.push(currentReq)] when there is a current one. *)
Definition push_current (requirements : list ParsedRequirement)
    (currentReq : option ParsedRequirement) : list ParsedRequirement :=
  match currentReq with
  | Some r => requirements ++ [r]
  | None => requirements
  end.

(** The loop of [parseRequirementsFromSection] over the state
    [(requirements, currentReq)]; the [break] ends the recursion. *)
Fixpoint requirements_loop (lines : list str)
    (requirements : list ParsedRequirement)
    (currentReq : option ParsedRequirement)
    : list ParsedRequirement * option ParsedRequirement :=
  match lines with
  | [] => (requirements, currentReq)
  | line :: lines' =>
      match matchRequirementHeader line with
      | Some name =>
          requirements_loop lines' (push_current requirements currentReq)
            (Some {| name := name; req_content := line ++ [LF] |})
      | None =>
          if isH3Header line
             && negb (bool_decide (is_Some (matchRequirementHeader line)))
          then requirements_loop lines'
                 (push_current requirements currentReq) None
          else if startsWith line (lit "## ") then (requirements, currentReq)
          else
            requirements_loop lines' requirements
              (match currentReq with
               | Some r => Some {| name := name r;
                                   req_content := req_content r ++ line ++ [LF] |}
               | None => None
               end)
      end
  end.

Definition parseRequirementsFromSection (sectionContent : str)
    : list ParsedRequirement :=
  let '(requirements, currentReq) :=
    requirements_loop (split LF sectionContent) [] None in
  push_current requirements currentReq.

Fixpoint removed_loop (lines : list str) (removed : list str) : list str :=
  match lines with
  | [] => removed
  | line :: lines' =>
      let trimmed := trim line in
      match matchRequirementHeader trimmed with
      | Some name => removed_loop lines' (removed ++ [name])
      | None =>
          if startsWith trimmed (lit "- ") || startsWith trimmed (lit "* ")
          then
            let itemText := trim (slice_from trimmed 2) in
            match itemText with
            | [] => removed_loop lines' removed
            | _ => removed_loop lines' (removed ++ [itemText])
            end
          else removed_loop lines' removed
      end
  end.

Definition parseRemovedSection (sectionContent : str) : list str :=
  removed_loop (split LF sectionContent) [].

Section WithHost.
Context `{Host}.

Definition matchRenamedFrom (line : str) : option str :=
  let trimmed := trim line in
  if negb (startsWith trimmed (lit "-")) then None
  else
    let rest := trim (slice_from trimmed 1) in
    let upper := toUpperCase rest in
    if negb (startsWith upper (lit "FROM:")) then None
    else
      let rest := trim (slice_from rest 5) in
      if startsWith rest (lit "`") && endsWith rest (lit "`") then
        let content := slice rest 1 (-1) in
        let upperContent := toUpperCase content in
        if negb (startsWith upperContent (lit "### REQUIREMENT:")) then None
        else or_null (trim (slice_from content 16))
      else if negb (startsWith rest (lit "###")) then None
      else
        let rest := trimStart (slice_from rest 3) in
        let restUpper := toUpperCase rest in
        if negb (startsWith restUpper (lit "REQUIREMENT:")) then None
        else or_null (trim (slice_from rest 12)).

Definition matchRenamedTo (line : str) : option str :=
  let trimmed := trim line in
  if negb (startsWith trimmed (lit "-")) then None
  else
    let rest := trim (slice_from trimmed 1) in
    let upper := toUpperCase rest in
    if negb (startsWith upper (lit "TO:")) then None
    else
      let rest := trim (slice_from rest 3) in
      if startsWith rest (lit "`") && endsWith rest (lit "`") then
        let content := slice rest 1 (-1) in
        let upperContent := toUpperCase content in
        if negb (startsWith upperContent (lit "### REQUIREMENT:")) then None
        else or_null (trim (slice_from content 16))
      else if negb (startsWith rest (lit "###")) then None
      else
        let rest := trimStart (slice_from rest 3) in
        let restUpper := toUpperCase rest in
        if negb (startsWith restUpper (lit "REQUIREMENT:")) then None
        else or_null (trim (slice_from rest 12)).

Fixpoint renamed_loop (lines : list str) (renamed : list RenameOp)
    (currentFrom : option str) : list RenameOp :=
  match lines with
  | [] => renamed
  | line :: lines' =>
      match matchRenamedFrom line with
      | Some fromName => renamed_loop lines' renamed (Some fromName)
      | None =>
          match matchRenamedTo line, currentFrom with
          | Some toName, Some currentFrom' =>
              renamed_loop lines'
                (renamed ++ [{| from := currentFrom'; to := toName |}]) None
          | _, _ => renamed_loop lines' renamed currentFrom
          end
      end
  end.

Definition parseRenamedSection (sectionContent : str) : list RenameOp :=
  renamed_loop (split LF sectionContent) [] None.

Definition empty_plan : DeltaPlan :=
  {| plan_added := []; plan_modified := [];
     plan_removed := []; plan_renamed := [] |}.

(** [if (sectionContent) plan.bucket = parse(sectionContent)] *)
Definition parse_bucket {A} (parse : str → list A) (sectionContent : str)
    : list A :=
  match sectionContent with
  | [] => []
  | _ => parse sectionContent
  end.

(** Nothing after [readFileSync] can throw: the [catch] is reached
    from the read only, with the plan still empty. *)
Definition parseDeltaSpec (filePath : str) : DeltaPlan :=
  match readFileSync filePath with
  | None => empty_plan
  | Some content =>
      {| plan_added :=
           parse_bucket parseRequirementsFromSection
             (findDeltaSectionContent content ADDED);
         plan_modified :=
           parse_bucket parseRequirementsFromSection
             (findDeltaSectionContent content MODIFIED);
         plan_removed :=
           parse_bucket parseRemovedSection
             (findDeltaSectionContent content REMOVED);
         plan_renamed :=
           parse_bucket parseRenamedSection
             (findDeltaSectionContent content RENAMED) |}
  end.

Definition checkArchiveStatus (changeId workspacePath : str) : bool :=
  let archivePath :=
    path_join [workspacePath; lit "spectr"; lit "changes"; lit "archive"] in
  if negb (existsSync archivePath) then false
  else
    match readdirSync archivePath with
    | None => false
    | Some entries =>
        existsb (λ entry, endsWith entry (lit "-" ++ changeId)
                          || str_eqb entry changeId) entries
    end.

Record SpecFile := { sf_capabilityName : str; sf_filePath : str }.

Definition findDeltaSpecFiles (changeId workspacePath : str)
    : list SpecFile :=
  let specsDir :=
    path_join [workspacePath; lit "spectr"; lit "changes"; changeId;
               lit "specs"] in
  if negb (existsSync specsDir) then []
  else
    match readdirSync_withFileTypes specsDir with
    | None => []
    | Some entries =>
        flat_map (λ entry,
          if d_isDirectory entry then
            let specFile := path_join [specsDir; d_name entry; lit "spec.md"] in
            if existsSync specFile
            then [{| sf_capabilityName := d_name entry;
                     sf_filePath := specFile |}]
            else []
          else []) entries
    end.

(** The mutable locals of [calculateSpecImpact]. *)
Record Acc := {
  acc_changes : list SpecChange;
  acc_capabilities : list str;
  acc_counts : OperationCounts;
}.

Definition push_change (c : SpecChange) (bump : OperationCounts → OperationCounts)
    (a : Acc) : Acc :=
  {| acc_changes := acc_changes a ++ [c];
     acc_capabilities := acc_capabilities a;
     acc_counts := bump (acc_counts a) |}.

Definition bump_added (c : OperationCounts) : OperationCounts :=
  {| added := S (added c); modified := modified c; removed := removed c;
     renamed := renamed c; total := total c |}.
Definition bump_modified (c : OperationCounts) : OperationCounts :=
  {| added := added c; modified := S (modified c); removed := removed c;
     renamed := renamed c; total := total c |}.
Definition bump_removed (c : OperationCounts) : OperationCounts :=
  {| added := added c; modified := modified c; removed := S (removed c);
     renamed := renamed c; total := total c |}.
Definition bump_renamed (c : OperationCounts) : OperationCounts :=
  {| added := added c; modified := modified c; removed := removed c;
     renamed := S (renamed c); total := total c |}.

(** The body of the loop over the spec files. *)
Definition impact_step (a : Acc) (f : SpecFile) : Acc :=
  let capabilityName := sf_capabilityName f in
  let a := {| acc_changes := acc_changes a;
              acc_capabilities := acc_capabilities a ++ [capabilityName];
              acc_counts := acc_counts a |} in
  let plan := parseDeltaSpec (sf_filePath f) in
  let a := fold_left (λ a req,
             push_change {| capabilityName := capabilityName;
                            content := Some (trim (req_content req));
                            operation := add;
                            requirementName := name req;
                            oldName := None |} bump_added a)
             (plan_added plan) a in
  let a := fold_left (λ a req,
             push_change {| capabilityName := capabilityName;
                            content := Some (trim (req_content req));
                            operation := modify;
                            requirementName := name req;
                            oldName := None |} bump_modified a)
             (plan_modified plan) a in
  let a := fold_left (λ a name,
             push_change {| capabilityName := capabilityName;
                            content := None;
                            operation := op_remove;
                            requirementName := name;
                            oldName := None |} bump_removed a)
             (plan_removed plan) a in
  fold_left (λ a rn,
    push_change {| capabilityName := capabilityName;
                   content := None;
                   operation := rename;
                   requirementName := to rn;
                   oldName := Some (from rn) |} bump_renamed a)
    (plan_renamed plan) a.

Definition calculateSpecImpact (changeId workspacePath : str) (mode : PRMode)
    : SpecImpact :=
  let isArchived := checkArchiveStatus changeId workspacePath in
  let specFiles := findDeltaSpecFiles changeId workspacePath in
  let a := fold_left impact_step specFiles
             {| acc_changes := []; acc_capabilities := [];
                acc_counts := {| added := 0; modified := 0; removed := 0;
                                 renamed := 0; total := 0 |} |} in
  let counts := acc_counts a in
  let counts :=
    {| added := added counts; modified := modified counts;
       removed := removed counts; renamed := renamed counts;
       total := (added counts + modified counts + removed counts
                 + renamed counts)%nat |} in
  {| capabilities := acc_capabilities a;
     changeId := changeId;
     changes := acc_changes a;
     counts := counts;
     isArchived := isArchived;
     mode := mode |}.

End WithHost.

End Calculate.

(* ================================================================== *)
(** ** src/pr-impact/format.ts *)
(* ================================================================== *)

Module PrFormat.
Import JS Regex PrTypes.

Definition formatSummaryTable (counts : OperationCounts) : str :=
  let lines := [
    lit "| Operation | Count |";
    lit "|-----------|-------|";
    lit "| Added | " ++ num (added counts) ++ lit " |";
    lit "| Modified | " ++ num (modified counts) ++ lit " |";
    lit "| Removed | " ++ num (removed counts) ++ lit " |";
    lit "| Renamed | " ++ num (renamed counts) ++ lit " |"
  ] in
  join [LF] lines.

(** [`${x}`] for [string | undefined]. *)
Definition tmpl (o : option str) : str :=
  match o with
  | Some s => s
  | None => lit "undefined"
  end.

(** [==] on [Operation]. *)
Definition op_eqb (a b : Operation) : bool :=
  match a, b with
  | add, add | modify, modify | op_remove, op_remove | rename, rename => true
  | _, _ => false
  end.

(** [[...new Set(xs)]]: the first occurrence of each element, in order. *)
Fixpoint unique_from (seen xs : list str) : list str :=
  match xs with
  | [] => []
  | x :: t =>
      if existsb (str_eqb x) seen then unique_from seen t
      else x :: unique_from (seen ++ [x]) t
  end.

Definition plural (n : nat) : str :=
  if (n =? 1)%nat then lit "change" else lit "changes".

(** The body of the Added and Modified loops. *)
Definition requirement_lines (change : SpecChange) : list str :=
  [lit "##### `Requirement: " ++ requirementName change ++ lit "`"]
  ++ (if truthy (content change) then
        let content :=
          trim (join [LF]
                  (List.filter
                     (λ line, negb (startsWith line (lit "### Requirement:")))
                     (split LF (tmpl (content change))))) in
        match content with
        | [] => []
        | _ => [content]
        end
      else [])
  ++ [[]].

Definition formatCapabilityChanges (capabilityName' : str)
    (changes : list SpecChange) : str :=
  let capabilityChanges :=
    List.filter (λ c, str_eqb (capabilityName c) capabilityName') changes in
  match capabilityChanges with
  | [] => []
  | _ =>
      let n := length capabilityChanges in
      let lines := [
        lit "<details>";
        lit "<summary><strong>" ++ capabilityName' ++ lit "</strong> ("
          ++ num n ++ lit " " ++ plural n ++ lit ")</summary>";
        []
      ] in
      let by_op o := List.filter (λ c, op_eqb (operation c) o) capabilityChanges in
      let added := by_op add in
      let modified := by_op modify in
      let removed := by_op op_remove in
      let renamed := by_op rename in
      let lines :=
        match added with
        | [] => lines
        | _ => lines ++ [lit "#### Added"; []]
                     ++ flat_map requirement_lines added
        end in
      let lines :=
        match modified with
        | [] => lines
        | _ => lines ++ [lit "#### Modified"; []]
                     ++ flat_map requirement_lines modified
        end in
      let lines :=
        match renamed with
        | [] => lines
        | _ => lines ++ [lit "#### Renamed"; []]
                     ++ List.map (λ change,
                          lit "- `" ++ tmpl (oldName change) ++ lit "` "
                          ++ [8594%N] ++ lit " `" ++ requirementName change
                          ++ lit "`") renamed
                     ++ [[]]
        end in
      let lines :=
        match removed with
        | [] => lines
        | _ => lines ++ [lit "#### Removed"; []]
                     ++ List.map (λ change,
                          lit "- `Requirement: " ++ requirementName change
                          ++ lit "`") removed
                     ++ [[]]
        end in
      join [LF] (lines ++ [lit "</details>"])
  end.

Definition formatDiffPreview (changes : list SpecChange) : str :=
  match changes with
  | [] => lit "_No spec changes detected_"
  | _ =>
      let capabilities := unique_from [] (List.map capabilityName changes) in
      let sections :=
        flat_map (λ capability,
          match formatCapabilityChanges capability changes with
          | [] => []
          | section => [section]
          end) capabilities in
      join [LF; LF] sections
  end.

(** [changeCounts]: a [Map<string, number>] filled in one pass. *)
Definition count_changes (changes : list SpecChange) : gmap str nat :=
  fold_left (λ (m : gmap str nat) change,
    let count := default 0%nat (m !! capabilityName change) in
    <[capabilityName change := (count + 1)%nat]> m) changes ∅.

Definition formatCapabilitiesList (impact : SpecImpact) : str :=
  match capabilities impact with
  | [] => lit "_No capabilities affected_"
  | _ =>
      let changeCounts := count_changes (changes impact) in
      join [LF]
        (List.map (λ capability,
           let count := default 0%nat (changeCounts !! capability) in
           lit "- `" ++ capability ++ lit "` - " ++ num count ++ lit " "
           ++ plural count) (capabilities impact))
  end.

Definition truncationNotice : str :=
  [LF; LF] ++ lit "_... content truncated due to length ..._" ++ [LF; LF]
  ++ lit "---" ++ [LF] ++ lit "*Generated by spectr-action*".

Section WithHost.
Context `{Host}.

Definition formatStatusTable (impact : SpecImpact) : str :=
  let archiveStatus := if isArchived impact then lit "Yes" else lit "No" in
  let m := mode_name (mode impact) in
  let modeDisplay := toUpperCase (take 1 m) ++ slice_from m 1 in
  join [LF] [
    lit "| Status | Value |";
    lit "|--------|-------|";
    lit "| Mode | " ++ modeDisplay ++ lit " |";
    lit "| Archived | " ++ archiveStatus ++ lit " |"
  ].

Definition formatPRComment (impact : SpecImpact) : str :=
  let marker := generatePRImpactMarker (changeId impact) in
  let sections := [
    marker;
    [];
    lit "## Spectr Impact: `" ++ changeId impact ++ lit "`";
    [];
    formatStatusTable impact;
    [];
    lit "### Summary";
    [];
    formatSummaryTable (counts impact);
    [];
    lit "### Affected Capabilities";
    [];
    formatCapabilitiesList impact;
    [];
    lit "### Changes";
    [];
    formatDiffPreview (changes impact);
    [];
    lit "---";
    lit "*Generated by [spectr-action](https://github.com/connerohnesorge/spectr-action) | [View proposal](spectr/changes/"
      ++ changeId impact ++ lit "/proposal.md)*"
  ] in
  let body := join [LF] sections in
  if MAX_COMMENT_BODY_LENGTH <? len body then
    let maxContentLength := MAX_COMMENT_BODY_LENGTH - len truncationNotice in
    slice body 0 maxContentLength ++ truncationNotice
  else body.

End WithHost.

(** [/\s+/g] *)
Definition WS_RUN : regex := RPlus is_ws.

Definition normalize (s : str) : str :=
  trim (replace_all s WS_RUN [SP]).

Definition commentsMatch (existing updated : str) : bool :=
  str_eqb (normalize existing) (normalize updated).

End PrFormat.

(* ================================================================== *)
(** ** src/issues/format.ts *)
(* ================================================================== *)

Module IssueFormat.
Import JS Regex IssueTypes.

Definition TRUNCATION_NOTICE : str :=
  [LF; LF] ++ lit "---" ++ [LF]
  ++ lit "*This content has been truncated due to GitHub issue size limits. See the full proposal in the repository.*".

Definition formatIssueTitle (changeId : str) (config : IssueSyncConfig) : str :=
  titlePrefix config ++ lit " " ++ changeId.

(** [lastNewline > maxContentLength * 0.8] is decided on integers:
    the double product is within 1e-11 of the rational 4/5 of
    [maxContentLength], and equal to it when that is an integer. *)
Definition truncateBody (body : str) : str :=
  if len body <=? MAX_ISSUE_BODY_LENGTH then body
  else
    let maxContentLength := MAX_ISSUE_BODY_LENGTH - len TRUNCATION_NOTICE in
    let truncatedBody := substring body 0 maxContentLength in
    let lastNewline := lastIndexOf truncatedBody [LF] in
    let truncatedBody :=
      if 4 * maxContentLength <? 5 * lastNewline
      then substring truncatedBody 0 lastNewline
      else truncatedBody in
    truncatedBody ++ TRUNCATION_NOTICE.

Definition formatIssueBody (proposal : ChangeProposal) : str :=
  let parts := [generateChangeIdMarker (id proposal); []] in
  let parts := parts ++ [lit "## Proposal"; []; trim (proposalContent proposal); []] in
  let parts :=
    match affectedSpecs proposal with
    | [] => parts
    | specs =>
        parts ++ [lit "## Affected Specs"; []]
        ++ List.map (λ spec, lit "- `" ++ spec ++ lit "`") specs
        ++ [[]]
    end in
  let parts :=
    match tasksContent proposal with
    | Some ((_ :: _) as tasks) =>
        parts ++ [lit "## Tasks"; []; trim tasks; []]
    | _ => parts
    end in
  let parts := parts ++ [
    lit "---";
    lit "*This issue is managed by [Spectr](https://github.com/connerohnesorge/spectr). Changes to the proposal will be reflected here automatically.*"
  ] in
  let body := join [LF] parts in
  truncateBody body.

Definition extractChangeId (body : str) : option str :=
  match str_match body CHANGE_ID_MARKER_PATTERN with
  | Some m => Some (group m 1)
  | None => None
  end.

(** [/\r\n/g] and [/\s+$/gm] *)
Definition CRLF : regex := RLit [CR; LF].
Definition TRAILING_WS : regex := RSeq (RPlus is_ws) (REnd true).

Definition normalize (s : str) : str :=
  trim (replace_all (replace_all s CRLF [LF]) TRAILING_WS []).

Definition bodiesMatch (existing updated : str) : bool :=
  str_eqb (normalize existing) (normalize updated).

End IssueFormat.

(* ================================================================== *)
(** ** The remote side: calls on the Octokit client

    Every [await octokit.rest.issues.*] is one request.  A computation
    threads the log of the requests issued so far, in order, and ends
    with a value or with a thrown error.  The client decides each
    response from the request and the history. *)
(* ================================================================== *)

Module Remote.
Import IssueTypes.

Record UpdateParams := {
  u_owner : str;
  u_repo : str;
  u_issue_number : N;
  u_title : option str;
  u_body : option str;
  u_labels : option (list str);
  u_state : option IssueState;
  u_state_reason : option str;
}.

Inductive Request :=
| IssuesCreate (owner repo title body : str) (labels : list str)
| IssuesUpdate (params : UpdateParams)
| IssuesCreateComment (owner repo : str) (issue_number : N) (body : str).

(** [response.data.number] is all the sources read of a response. *)
Record Response := { data_number : N }.

(** A thrown value, as the message the callers log. *)
Definition Error := str.

Inductive outcome (A : Type) :=
| Ok (a : A)
| Throw (e : Error).
Arguments Ok {A} a.
Arguments Throw {A} e.

Definition Octokit := list Request → Request → outcome Response.

Definition M (A : Type) : Type := list Request → outcome A * list Request.

Definition ret {A} (a : A) : M A := λ log, (Ok a, log).

Definition bind {A B} (m : M A) (k : A → M B) : M B :=
  λ log,
    match m log with
    | (Ok a, log') => k a log'
    | (Throw e, log') => (Throw e, log')
    end.

Definition request (octokit : Octokit) (rq : Request) : M Response :=
  λ log, (octokit log rq, log ++ [rq]).

End Remote.

Notation "'let*' x ':=' m 'in' k" := (Remote.bind m (λ x, k))
  (at level 10, x name, m at level 100, k at level 200, only parsing).

(* ================================================================== *)
(** ** src/issues/sync.ts *)
(* ================================================================== *)

Module IssueSync.
Import JS IssueTypes Remote.

Definition createIssue (octokit : Octokit) (repo' : RepoContext)
    (title body : str) (labels : list str) : M N :=
  let* response :=
    request octokit (IssuesCreate (owner repo') (repo repo') title body labels) in
  ret (data_number response).

Definition updateIssue (octokit : Octokit) (repo' : RepoContext)
    (issueNumber : N) (title body : str) (labels : list str) : M unit :=
  let* _ :=
    request octokit
      (IssuesUpdate {| u_owner := owner repo'; u_repo := repo repo';
                       u_issue_number := issueNumber;
                       u_title := Some title; u_body := Some body;
                       u_labels := Some labels;
                       u_state := None; u_state_reason := None |}) in
  ret tt.

(** The request that sets the state of an issue to closed. *)
Definition close_request (repo' : RepoContext) (issueNumber : N) : Request :=
  IssuesUpdate {| u_owner := owner repo'; u_repo := repo repo';
                  u_issue_number := issueNumber;
                  u_title := None; u_body := None; u_labels := None;
                  u_state := Some closed_state;
                  u_state_reason := Some (lit "completed") |}.

Definition comment_request (repo' : RepoContext) (issueNumber : N)
    (comment : str) : Request :=
  IssuesCreateComment (owner repo') (repo repo') issueNumber comment.

Definition closeIssue (octokit : Octokit) (repo' : RepoContext)
    (issueNumber : N) (comment : option str) : M unit :=
  let* _ :=
    if truthy comment then
      let* _ :=
        request octokit
          (comment_request repo' issueNumber (default [] comment)) in
      ret tt
    else ret tt in
  let* _ := request octokit (close_request repo' issueNumber) in
  ret tt.

Definition reopen_request (repo' : RepoContext) (issueNumber : N) : Request :=
  IssuesUpdate {| u_owner := owner repo'; u_repo := repo repo';
                  u_issue_number := issueNumber;
                  u_title := None; u_body := None; u_labels := None;
                  u_state := Some open; u_state_reason := None |}.

Definition reopenIssue (octokit : Octokit) (repo' : RepoContext)
    (issueNumber : N) : M unit :=
  let* _ := request octokit (reopen_request repo' issueNumber) in
  ret tt.

End IssueSync.

(* ================================================================== *)
(** ** src/issues/index.ts

    [core.info], [core.debug] and [core.warning] write to the job log
    only and are left out. *)
(* ================================================================== *)

Module IssueIndex.
Import JS IssueTypes Remote IssueSync IssueFormat.

Inductive SyncOutcome := Created | Updated | Skipped.

Definition state_eqb (a b : IssueState) : bool :=
  match a, b with
  | open, open | closed_state, closed_state => true
  | _, _ => false
  end.

Definition syncActiveChange (octokit : Octokit) (repo' : RepoContext)
    (change : ChangeProposal) (config : IssueSyncConfig)
    (labels : list str) (existingIssue : option ManagedIssue)
    : M SyncOutcome :=
  let title' := formatIssueTitle (id change) config in
  let body' := formatIssueBody change in
  match existingIssue with
  | None =>
      let* issueNumber := createIssue octokit repo' title' body' labels in
      ret Created
  | Some existingIssue =>
      if negb (updateExisting config) then ret Skipped
      else if state_eqb (state existingIssue) closed_state then
        let* _ := reopenIssue octokit repo' (number existingIssue) in
        let* _ :=
          updateIssue octokit repo' (number existingIssue) title' body' labels in
        ret Updated
      else if bodiesMatch (body existingIssue) body'
              && str_eqb (title existingIssue) title'
      then ret Skipped
      else
        let* _ :=
          updateIssue octokit repo' (number existingIssue) title' body' labels in
        ret Updated
  end.

(** [issueMap]: the managed issues by change id, later ones winning. *)
Definition build_issueMap (managedIssues : list ManagedIssue)
    : gmap str ManagedIssue :=
  fold_left (λ (m : gmap str ManagedIssue) issue,
    <[changeId issue := issue]> m) managedIssues ∅.

Definition ARCHIVED_COMMENT : str :=
  lit "This change has been archived. Closing the tracking issue.".

Definition bump_closed (r : SyncResult) : SyncResult :=
  {| created := created r; updated := updated r; closed := S (closed r);
     totalChanges := totalChanges r; errors := errors r |}.

Definition push_error (e : SyncError) (r : SyncResult) : SyncResult :=
  {| created := created r; updated := updated r; closed := closed r;
     totalChanges := totalChanges r; errors := errors r ++ [e] |}.

(** The body of the loop of [syncIssues] over the archived changes,
    with its [try]/[catch]: the state is the result and the log. *)
Definition archived_step (octokit : Octokit) (repo' : RepoContext)
    (issueMap : gmap str ManagedIssue)
    (st : SyncResult * list Request) (change : ChangeProposal)
    : SyncResult * list Request :=
  let '(result, log) := st in
  match issueMap !! id change with
  | Some existingIssue =>
      if state_eqb (state existingIssue) open then
        match closeIssue octokit repo' (number existingIssue)
                (Some ARCHIVED_COMMENT) log with
        | (Ok _, log') => (bump_closed result, log')
        | (Throw message, log') =>
            (push_error {| err_changeId := id change;
                           err_message := message;
                           err_recoverable := true |} result, log')
        end
      else st
  | None => st
  end.

(** [if (config.closeOnArchive) for (const change of archivedChanges)] *)
Definition closeArchivedChanges (octokit : Octokit) (repo' : RepoContext)
    (config : IssueSyncConfig) (issueMap : gmap str ManagedIssue)
    (archivedChanges : list ChangeProposal)
    (st : SyncResult * list Request) : SyncResult * list Request :=
  if closeOnArchive config
  then fold_left (archived_step octokit repo' issueMap) archivedChanges st
  else st.

End IssueIndex.

(* ================================================================== *)
(** ** The process and the action inputs

    [process.env], [core.getInput] of @actions/core and [toLowerCase]
    are the runner's and the engine's: interfaces here. *)
(* ================================================================== *)

Class Process := {
  env : str → option str;
}.

Class ActionInputs := {
  getInput : str → str;
  toLowerCase : str → str;
}.

(* ================================================================== *)
(** ** src/utils/inputs.ts *)
(* ================================================================== *)

Module Inputs.
Import JS IssueTypes.

(** [s || d] on strings. *)
Definition or_default (s d : str) : str :=
  match s with
  | [] => d
  | _ => s
  end.

Definition parseLabels (labelsInput : str) : list str :=
  List.filter (λ label, 0 <? len label)
    (List.map trim (split 44%N labelsInput)).

(** [PRImpactConfig] of src/pr-impact/types.ts *)
Record PRImpactConfig := {
  pr_enabled : bool;
  pr_githubToken : str;
  updateComment : bool;
}.

Section WithInputs.
Context `{ActionInputs}.

Definition getIssueSyncConfig : IssueSyncConfig :=
  let syncIssues := getInput (lit "sync-issues") in
  let issueLabels := getInput (lit "issue-labels") in
  let issueTitlePrefix := getInput (lit "issue-title-prefix") in
  let closeOnArchive' := getInput (lit "close-on-archive") in
  let updateExisting' := getInput (lit "update-existing") in
  let spectrLabel' := getInput (lit "spectr-label") in
  let token := getInput (lit "github-token") in
  {| closeOnArchive :=
       negb (str_eqb (toLowerCase closeOnArchive') (lit "false"));
     enabled := str_eqb (toLowerCase syncIssues) (lit "true");
     githubToken := token;
     labels :=
       parseLabels (or_default issueLabels (lit "spectr,change-proposal"));
     spectrLabel := or_default spectrLabel' (lit "spectr-managed");
     titlePrefix := or_default issueTitlePrefix (lit "[Spectr Change]");
     updateExisting :=
       negb (str_eqb (toLowerCase updateExisting') (lit "false")) |}.

Definition getPRImpactConfig : PRImpactConfig :=
  let prImpact := getInput (lit "pr-impact") in
  let updateComment' := getInput (lit "pr-impact-update-comment") in
  let token := getInput (lit "github-token") in
  {| pr_enabled := str_eqb (toLowerCase prImpact) (lit "true");
     pr_githubToken := token;
     updateComment :=
       negb (str_eqb (toLowerCase updateComment') (lit "false")) |}.

End WithInputs.

End Inputs.

(* ================================================================== *)
(** ** src/issues/discover.ts

    [formatTasksJsonAsMarkdown] rests on [JSON.parse] and on the dynamic
    shape of the parsed value; it stays an interface.  A call that throws
    out of a discovery function is [None]. *)
(* ================================================================== *)

Class TasksJson := {
  formatTasksJsonAsMarkdown : str → str;
}.

Module Discover.
Import JS IssueTypes.

Definition CHANGES_DIR : str := lit "spectr/changes".
Definition ARCHIVE_DIR : str := lit "spectr/changes/archive".
Definition PROPOSAL_FILE : str := lit "proposal.md".
Definition TASKS_FILE : str := lit "tasks.md".
Definition TASKS_JSON_FILE : str := lit "tasks.json".
Definition SPECS_DIR : str := lit "specs".

Section WithHost.
Context `{Host} `{TasksJson}.

Definition readProposalContent (changePath : str) : option str :=
  let proposalPath := path_join [changePath; PROPOSAL_FILE] in
  readFileSync proposalPath.

Definition readTasksContent (changePath : str) : option str :=
  let tasksMarkdownPath := path_join [changePath; TASKS_FILE] in
  match readFileSync tasksMarkdownPath with
  | Some content => Some content
  | None =>
      let tasksJsonPath := path_join [changePath; TASKS_JSON_FILE] in
      match readFileSync tasksJsonPath with
      | Some jsonContent => Some (formatTasksJsonAsMarkdown jsonContent)
      | None => None
      end
  end.

Definition findAffectedSpecs (changePath : str) : list str :=
  let specsPath := path_join [changePath; SPECS_DIR] in
  if negb (existsSync specsPath) then []
  else
    match readdirSync_withFileTypes specsPath with
    | Some entries => List.map d_name (List.filter d_isDirectory entries)
    | None => []
    end.

Definition readChangeProposal (id' changePath : str) (isArchived' : bool)
    : option ChangeProposal :=
  let proposalContent' := readProposalContent changePath in
  if negb (truthy proposalContent') then None
  else
    let tasksContent' := readTasksContent changePath in
    let affectedSpecs' := findAffectedSpecs changePath in
    Some {| affectedSpecs := affectedSpecs';
            id := id';
            isArchived := isArchived';
            path := changePath;
            proposalContent := default [] proposalContent';
            tasksContent := tasksContent' |}.

(** The body of the loop of [discoverActiveChanges]. *)
Definition active_entry (changesPath : str) (entry : Dirent)
    : list ChangeProposal :=
  if negb (d_isDirectory entry) || str_eqb (d_name entry) (lit "archive")
  then []
  else
    let changePath := path_join [changesPath; d_name entry] in
    let proposalPath := path_join [changePath; PROPOSAL_FILE] in
    if negb (existsSync proposalPath) then []
    else
      match readChangeProposal (d_name entry) changePath false with
      | Some proposal => [proposal]
      | None => []
      end.

Definition discoverActiveChanges (workspacePath : str)
    : option (list ChangeProposal) :=
  let changesPath := path_join [workspacePath; CHANGES_DIR] in
  if negb (existsSync changesPath) then Some []
  else
    match readdirSync_withFileTypes changesPath with
    | None => None
    | Some entries => Some (flat_map (active_entry changesPath) entries)
    end.

(** The body of the loop of [discoverArchivedChanges]. *)
Definition archived_entry (archivePath : str) (entry : Dirent)
    : list ChangeProposal :=
  if negb (d_isDirectory entry) then []
  else
    let changePath := path_join [archivePath; d_name entry] in
    let proposalPath := path_join [changePath; PROPOSAL_FILE] in
    if negb (existsSync proposalPath) then []
    else
      match readChangeProposal (d_name entry) changePath true with
      | Some proposal => [proposal]
      | None => []
      end.

Definition discoverArchivedChanges (workspacePath : str)
    : option (list ChangeProposal) :=
  let archivePath := path_join [workspacePath; ARCHIVE_DIR] in
  if negb (existsSync archivePath) then Some []
  else
    match readdirSync_withFileTypes archivePath with
    | None => None
    | Some entries => Some (flat_map (archived_entry archivePath) entries)
    end.

End WithHost.

End Discover.

(* ================================================================== *)
(** ** src/issues/sync.ts: reading the repository

    [octokit.paginate(octokit.rest.issues.listForRepo, ...)] is a
    function of the parameters the source passes: the label, the owner
    and the repository ([per_page] and [state: "all"] are constants). *)
(* ================================================================== *)

Module SyncRead.
Import JS IssueTypes Remote.

(** What [findManagedIssues] reads of a listed issue. *)
Record ApiIssue := {
  api_number : N;
  api_title : str;
  api_body : option str;
  api_state : IssueState;
  api_pull_request : bool;
}.

Definition Paginate := str → str → str → outcome (list ApiIssue).

(** The body of the loop of [findManagedIssues]. *)
Definition managed_entry (issue : ApiIssue) : list ManagedIssue :=
  if api_pull_request issue then []
  else
    let changeId' := extractChangeIdFromBody (default [] (api_body issue)) in
    if truthy changeId' then
      [{| body := default [] (api_body issue);
          changeId := default [] changeId';
          number := api_number issue;
          state := api_state issue;
          title := api_title issue |}]
    else [].

Definition findManagedIssues (paginate : Paginate) (repo' : RepoContext)
    (spectrLabel' : str) : outcome (list ManagedIssue) :=
  match paginate spectrLabel' (owner repo') (repo repo') with
  | Throw e => Throw e
  | Ok issues => Ok (flat_map managed_entry issues)
  end.

Definition getRepoContext `{Process} : outcome RepoContext :=
  let repository := env (lit "GITHUB_REPOSITORY") in
  if negb (truthy repository)
  then Throw (lit "GITHUB_REPOSITORY environment variable is not set")
  else
    let parts := split 47%N (default [] repository) in
    let owner' := parts !! 0%nat in
    let repo'' := parts !! 1%nat in
    if negb (truthy owner') || negb (truthy repo'')
    then Throw (lit "Invalid GITHUB_REPOSITORY format: " ++ default [] repository)
    else Ok {| owner := default [] owner'; repo := default [] repo'' |}.

End SyncRead.

(* ================================================================== *)
(** ** src/issues/index.ts: the two loops of [syncIssues]

    [reconcile] is [syncIssues] from the construction of [issueMap] to
    the returned result, given what the awaited discovery and listing
    produced. *)
(* ================================================================== *)

Module IssueRun.
Import JS IssueTypes Remote IssueSync IssueIndex.

(** [allLabels]: the configured labels and the management label. *)
Definition allLabels (config : IssueSyncConfig) : list str :=
  if existsb (λ l, str_eqb l (spectrLabel config)) (labels config)
  then labels config
  else labels config ++ [spectrLabel config].

Definition bump_created (r : SyncResult) : SyncResult :=
  {| created := S (created r); updated := updated r; closed := closed r;
     totalChanges := totalChanges r; errors := errors r |}.

Definition bump_updated (r : SyncResult) : SyncResult :=
  {| created := created r; updated := S (updated r); closed := closed r;
     totalChanges := totalChanges r; errors := errors r |}.

(** The body of the loop over the active changes, with its
    [try]/[catch]. *)
Definition active_step (octokit : Octokit) (repo' : RepoContext)
    (config : IssueSyncConfig) (labels' : list str)
    (issueMap : gmap str ManagedIssue)
    (st : SyncResult * list Request) (change : ChangeProposal)
    : SyncResult * list Request :=
  let '(result, log) := st in
  match syncActiveChange octokit repo' change config labels'
          (issueMap !! id change) log with
  | (Ok Created, log') => (bump_created result, log')
  | (Ok Updated, log') => (bump_updated result, log')
  | (Ok Skipped, log') => (result, log')
  | (Throw message, log') =>
      (push_error {| err_changeId := id change;
                     err_message := message;
                     err_recoverable := true |} result, log')
  end.

Definition reconcile (octokit : Octokit) (repo' : RepoContext)
    (config : IssueSyncConfig)
    (activeChanges archivedChanges : list ChangeProposal)
    (managedIssues : list ManagedIssue) (log : list Request)
    : SyncResult * list Request :=
  let result := {| closed := 0; created := 0; errors := [];
                   totalChanges := length activeChanges; updated := 0 |} in
  let issueMap := build_issueMap managedIssues in
  let labels' := allLabels config in
  let st :=
    fold_left (active_step octokit repo' config labels' issueMap)
      activeChanges (result, log) in
  closeArchivedChanges octokit repo' config issueMap archivedChanges st.

End IssueRun.

(* ================================================================== *)
(** ** src/pr-impact/detect.ts: the event

    [JSON.parse(fs.readFileSync(eventPath, "utf-8"))] is the runner's:
    the payload is given by the fields the sources read, and is [None]
    when the read or the parse throws. *)
(* ================================================================== *)

Record Payload := {
  pull_request_number : option N;
  pull_request_head_ref : option str;
  issue_pull_request : bool;
  issue_number : option N;
}.

Class EventFile := {
  read_payload : str → option Payload;
}.

Module PrDetect.
Import JS PrTypes.

(** [PRContext] of src/pr-impact/types.ts *)
Record PRContext := {
  isPR : bool;
  isSpectrPR : bool;
  prNumber : option N;
  branchName : option str;
  ctx_changeId : option str;
  ctx_mode : option PRMode;
}.

(** Truthiness of [number | null | undefined]. *)
Definition truthy_num (o : option N) : bool :=
  match o with
  | Some n => negb (n =? 0)%N
  | None => false
  end.

(** [s.replace(pattern, replacement)] for a string pattern and a
    replacement without [$]: the first occurrence only. *)
Definition replace_first (s pattern replacement : str) : str :=
  let i := indexOf s pattern in
  if i =? -1 then s
  else take (Z.to_nat i) s ++ replacement
       ++ drop (Z.to_nat (i + len pattern)) s.

Section WithEnv.
Context `{Process} `{EventFile}.

Definition getPRNumberFromEvent : option N :=
  let eventPath := env (lit "GITHUB_EVENT_PATH") in
  if negb (truthy eventPath) then None
  else
    match read_payload (default [] eventPath) with
    | None => None
    | Some eventData =>
        if truthy_num (pull_request_number eventData)
        then pull_request_number eventData
        else if issue_pull_request eventData
                && truthy_num (issue_number eventData)
        then issue_number eventData
        else None
    end.

Definition getHeadBranchName : option str :=
  let headRef := env (lit "GITHUB_HEAD_REF") in
  if truthy headRef then headRef
  else
    let ref := env (lit "GITHUB_REF") in
    if match ref with
       | Some r => startsWith r (lit "refs/heads/")
       | None => false
       end
    then Some (replace_first (default [] ref) (lit "refs/heads/") [])
    else
      let eventPath := env (lit "GITHUB_EVENT_PATH") in
      if truthy eventPath then
        match read_payload (default [] eventPath) with
        | Some eventData =>
            if truthy (pull_request_head_ref eventData)
            then pull_request_head_ref eventData
            else None
        | None => None
        end
      else None.

Definition isPullRequestEvent : bool :=
  let eventName := env (lit "GITHUB_EVENT_NAME") in
  bool_decide (eventName = Some (lit "pull_request"))
  || bool_decide (eventName = Some (lit "pull_request_target"))
  || bool_decide (eventName = Some (lit "pull_request_review"))
  || bool_decide (eventName = Some (lit "pull_request_review_comment")).

Definition detectPRContext : PRContext :=
  let isPR' := isPullRequestEvent in
  let branchName' := getHeadBranchName in
  let prNumber' := getPRNumberFromEvent in
  if negb isPR' || negb (truthy branchName') then
    {| branchName := branchName'; ctx_changeId := None; isPR := isPR';
       isSpectrPR := false; ctx_mode := None; prNumber := prNumber' |}
  else
    let branchInfo := Detect.parseSpectrBranch (default [] branchName') in
    {| branchName := branchName';
       ctx_changeId := Detect.changeId branchInfo;
       isPR := isPR';
       isSpectrPR := Detect.isSpectrBranch branchInfo;
       ctx_mode := Detect.mode branchInfo;
       prNumber := prNumber' |}.

End WithEnv.

End PrDetect.

(* ================================================================== *)
(** ** src/pr-impact/comment.ts

    The client is the three calls the sources make of it, each a
    function of the requests made so far and of its parameters; every
    call is logged.  [new RegExp(source)] is the engine's: it throws
    when the source is not a pattern, else gives its [test]. *)
(* ================================================================== *)

Class RegExpEngine := {
  RegExp_test : str → Remote.outcome (str → bool);
}.

Module PrRemote.
Import JS IssueTypes Remote.

(** What the sources read of a listed comment. *)
Record ApiComment := { c_id : N; c_body : option str }.

(** [response.data] of a created or updated comment. *)
Record CommentData := { data_id : N; data_html_url : str }.

Inductive PrRequest :=
| ListComments (owner repo : str) (issue_number : N)
| CreateComment (owner repo : str) (issue_number : N) (body : str)
| UpdateComment (owner repo : str) (comment_id : N) (body : str).

Record PrOctokit := {
  listComments : list PrRequest → str → str → N → outcome (list ApiComment);
  createComment : list PrRequest → str → str → N → str → outcome CommentData;
  updateComment : list PrRequest → str → str → N → str → outcome CommentData;
}.

Definition PM (A : Type) : Type :=
  list PrRequest → outcome A * list PrRequest.

Definition pret {A} (a : A) : PM A := λ log, (Ok a, log).

Definition pbind {A B} (m : PM A) (k : A → PM B) : PM B :=
  λ log,
    match m log with
    | (Ok a, log') => k a log'
    | (Throw e, log') => (Throw e, log')
    end.

(** A synchronous computation that may throw, inside the run. *)
Definition lift {A} (o : outcome A) : PM A := λ log, (o, log).

End PrRemote.

Notation "'let?' x ':=' m 'in' k" := (PrRemote.pbind m (λ x, k))
  (at level 10, x name, m at level 100, k at level 200, only parsing).

Module PrComment.
Import JS Regex IssueTypes PrTypes Remote PrRemote.

Record ExistingComment := { ec_id : N; ec_body : str }.

(** [ExistingComment & { changeId: string }] *)
Record ImpactComment := { ic_body : str; ic_changeId : str; ic_id : N }.

Definition getRepoContext `{Process} : outcome RepoContext :=
  let repository := env (lit "GITHUB_REPOSITORY") in
  if negb (truthy repository)
  then Throw (lit "GITHUB_REPOSITORY environment variable is not set")
  else
    let parts := split 47%N (default [] repository) in
    let owner' := parts !! 0%nat in
    let repo'' := parts !! 1%nat in
    if negb (truthy owner') || negb (truthy repo'')
    then Throw (lit "Invalid GITHUB_REPOSITORY format: " ++ default [] repository)
    else Ok {| owner := default [] owner'; repo := default [] repo'' |}.

Definition paginate_listComments (octokit : PrOctokit)
    (repo' : RepoContext) (prNumber : N) : PM (list ApiComment) :=
  λ log, (listComments octokit log (owner repo') (repo repo') prNumber,
          log ++ [ListComments (owner repo') (repo repo') prNumber]).

(** The loop of [findImpactComment]: the first comment with a body
    that the pattern accepts. *)
Fixpoint first_marked (test : str → bool) (comments : list ApiComment)
    : option ExistingComment :=
  match comments with
  | [] => None
  | comment :: rest =>
      if truthy (c_body comment) && test (default [] (c_body comment))
      then Some {| ec_body := default [] (c_body comment);
                   ec_id := c_id comment |}
      else first_marked test rest
  end.

Definition findImpactComment `{RegExpEngine} (octokit : PrOctokit)
    (repo' : RepoContext) (prNumber : N) (changeId : str)
    : PM (option ExistingComment) :=
  let? comments := paginate_listComments octokit repo' prNumber in
  match RegExp_test (lit "<!--\s*spectr-pr-impact:" ++ changeId
                     ++ lit "\s*-->") with
  | Throw e => lift (Throw e)
  | Ok test => pret (first_marked test comments)
  end.

(** The loop of [findAnyImpactComment]. *)
Fixpoint first_impact (comments : list ApiComment) : option ImpactComment :=
  match comments with
  | [] => None
  | comment :: rest =>
      if truthy (c_body comment) then
        match str_match (default [] (c_body comment))
                PR_IMPACT_MARKER_PATTERN with
        | Some m =>
            Some {| ic_body := default [] (c_body comment);
                    ic_changeId := group m 1;
                    ic_id := c_id comment |}
        | None => first_impact rest
        end
      else first_impact rest
  end.

Definition findAnyImpactComment (octokit : PrOctokit)
    (repo' : RepoContext) (prNumber : N) : PM (option ImpactComment) :=
  let? comments := paginate_listComments octokit repo' prNumber in
  pret (first_impact comments).

Definition createPRComment (octokit : PrOctokit) (repo' : RepoContext)
    (prNumber : N) (body : str) : PM (N * str) :=
  let? response :=
    (λ log, (createComment octokit log (owner repo') (repo repo')
               prNumber body,
             log ++ [CreateComment (owner repo') (repo repo') prNumber body]))
  in
  pret (data_id response, data_html_url response).

Definition updatePRComment (octokit : PrOctokit) (repo' : RepoContext)
    (commentId : N) (body : str) : PM str :=
  let? response :=
    (λ log, (updateComment octokit log (owner repo') (repo repo')
               commentId body,
             log ++ [UpdateComment (owner repo') (repo repo') commentId body]))
  in
  pret (data_html_url response).

End PrComment.

(* ================================================================== *)
(** ** src/pr-impact/index.ts *)
(* ================================================================== *)

Module PrRun.
Import JS IssueTypes PrTypes Remote PrRemote PrDetect PrComment Inputs.

(** [PRImpactResult] of src/pr-impact/types.ts *)
Record PRImpactResult := {
  ran : bool;
  res_changeId : option str;
  res_mode : option PRMode;
  commentCreated : bool;
  commentUpdated : bool;
  commentUrl : option str;
}.

Definition defaultResult : PRImpactResult :=
  {| res_changeId := None; commentCreated := false;
     commentUpdated := false; commentUrl := None; res_mode := None;
     ran := false |}.

Section WithEnv.
Context `{Host} `{Process} `{EventFile} `{RegExpEngine}.

Definition runPRImpact (octokit : PrOctokit) (config : PRImpactConfig)
    (workspacePath : str) : PM PRImpactResult :=
  let prContext := detectPRContext in
  if negb (isPR prContext) then pret defaultResult
  else if negb (isSpectrPR prContext) then pret defaultResult
  else if negb (truthy_num (prNumber prContext)) then pret defaultResult
  else
    match ctx_changeId prContext, ctx_mode prContext with
    | Some ((_ :: _) as changeId'), Some mode' =>
        let prNumber' := default 0%N (prNumber prContext) in
        let impact :=
          Calculate.calculateSpecImpact changeId' workspacePath mode' in
        let commentBody := PrFormat.formatPRComment impact in
        let? repo' := lift getRepoContext in
        let? existingComment :=
          findImpactComment octokit repo' prNumber' changeId' in
        let? outcome' :=
          match existingComment with
          | Some existingComment =>
              if updateComment config then
                if negb (PrFormat.commentsMatch (ec_body existingComment)
                           commentBody)
                then
                  let? commentUrl' :=
                    updatePRComment octokit repo'
                      (ec_id existingComment) commentBody in
                  pret (false, true, commentUrl')
                else
                  pret (false, false,
                        lit "https://github.com/" ++ owner repo'
                        ++ lit "/" ++ repo repo' ++ lit "/pull/"
                        ++ num (N.to_nat prNumber')
                        ++ lit "#issuecomment-"
                        ++ num (N.to_nat (ec_id existingComment)))
              else
                let? result :=
                  createPRComment octokit repo' prNumber' commentBody in
                pret (true, false, result.2)
          | None =>
              let? result :=
                createPRComment octokit repo' prNumber' commentBody in
              pret (true, false, result.2)
          end in
        pret {| res_changeId := Some changeId';
                commentCreated := outcome'.1.1;
                commentUpdated := outcome'.1.2;
                commentUrl := Some outcome'.2;
                res_mode := Some mode';
                ran := true |}
    | _, _ => pret defaultResult
    end.

End WithEnv.

End PrRun.

(* ================================================================== *)
(** ** src/issues/sync.ts: the labels

    [colors[key]] on an object literal also finds the members the literal
    inherits from [Object.prototype]; the sources then pass on whatever
    they found.  A thrown value is its [status] field, when it has one,
    and its message. *)
(* ================================================================== *)

Module Labels.
Import JS IssueTypes Remote.

(** The value of [colors[key] || fallback]: a string, or the member
    of [Object.prototype] of that name. *)
Inductive Value :=
| Str (s : str)
| Inherited (key : str).

(** The names [Object.prototype] defines. *)
Definition prototype_keys : list str :=
  [lit "constructor"; lit "__defineGetter__"; lit "__defineSetter__";
   lit "hasOwnProperty"; lit "__lookupGetter__"; lit "__lookupSetter__";
   lit "isPrototypeOf"; lit "propertyIsEnumerable"; lit "toString";
   lit "valueOf"; lit "__proto__"; lit "toLocaleString"].

(** [object[key] || fallback] for an object literal with string
    values. *)
Definition get_or (object : list (str * str)) (key fallback : str)
    : Value :=
  match List.find (λ kv, str_eqb kv.1 key) object with
  | Some (_, (_ :: _) as v) => Str v
  | Some (_, []) => Str fallback
  | None =>
      if existsb (str_eqb key) prototype_keys then Inherited key
      else Str fallback
  end.

Record LabelParams := {
  l_color : Value;
  l_description : Value;
  l_name : str;
  l_owner : str;
  l_repo : str;
}.

Inductive LabelRequest :=
| ListLabelsForRepo (owner repo : str)
| CreateLabel (params : LabelParams).

Record Thrown := { status : option N; thrown_message : Error }.

Inductive answer (A : Type) :=
| Answered (a : A)
| Rejected (e : Thrown).
Arguments Answered {A} a.
Arguments Rejected {A} e.

Record LabelOctokit := {
  listLabelsForRepo : list LabelRequest → str → str → answer (list str);
  createLabel : list LabelRequest → LabelParams → answer unit;
}.

Section WithInputs.
Context `{ActionInputs}.

Definition getLabelColor (labelName : str) : Value :=
  let colors := [
    (lit "change-proposal", lit "1D76DB");
    (lit "spectr", lit "7B68EE");
    (lit "spectr-managed", lit "5319E7")
  ] in
  get_or colors (toLowerCase labelName) (lit "EDEDED").

Definition getLabelDescription (labelName : str) : Value :=
  let descriptions := [
    (lit "change-proposal", lit "A change proposal tracked by Spectr");
    (lit "spectr", lit "Related to Spectr spec-driven development");
    (lit "spectr-managed", lit "Issue managed by Spectr action")
  ] in
  get_or descriptions (toLowerCase labelName) [].

Definition create_params (repo' : RepoContext) (labelName : str)
    : LabelParams :=
  {| l_color := getLabelColor labelName;
     l_description := getLabelDescription labelName;
     l_name := labelName;
     l_owner := owner repo';
     l_repo := repo repo' |}.

(** The loop of [ensureLabelsExist] over the required labels. *)
Fixpoint create_missing (octokit : LabelOctokit) (repo' : RepoContext)
    (existingLabelNames : list str) (requiredLabels : list str)
    (log : list LabelRequest) : answer unit * list LabelRequest :=
  match requiredLabels with
  | [] => (Answered tt, log)
  | labelName :: rest =>
      if negb (existsb (str_eqb (toLowerCase labelName))
                 existingLabelNames)
      then
        let params := create_params repo' labelName in
        match createLabel octokit log params with
        | Answered _ =>
            create_missing octokit repo' existingLabelNames rest
              (log ++ [CreateLabel params])
        | Rejected error =>
            if negb (bool_decide (status error = Some 422%N))
            then (Rejected error, log ++ [CreateLabel params])
            else create_missing octokit repo' existingLabelNames rest
                   (log ++ [CreateLabel params])
        end
      else create_missing octokit repo' existingLabelNames rest log
  end.

Definition ensureLabelsExist (octokit : LabelOctokit)
    (repo' : RepoContext) (config : IssueSyncConfig)
    (log : list LabelRequest) : answer unit * list LabelRequest :=
  let requiredLabels :=
    if existsb (λ l, str_eqb l (spectrLabel config)) (labels config)
    then labels config
    else labels config ++ [spectrLabel config] in
  match listLabelsForRepo octokit log (owner repo') (repo repo') with
  | Rejected e =>
      (Rejected e, log ++ [ListLabelsForRepo (owner repo') (repo repo')])
  | Answered existingLabels =>
      let existingLabelNames := List.map toLowerCase existingLabels in
      create_missing octokit repo' existingLabelNames requiredLabels
        (log ++ [ListLabelsForRepo (owner repo') (repo repo')])
  end.

End WithInputs.

End Labels.

(* ================================================================== *)
(** ** Vocabulary of the statements *)
(* ================================================================== *)

Module Spec.
Import JS Regex.

(** The head of [s] is outside the class [p], or [s] is empty. *)
Definition stops (p : N → bool) (s : str) : Prop :=
  match s with
  | [] => True
  | c :: _ => p c = false
  end.

(** The text [<!-- TAG:ID -->] as the two generators build it. *)
Definition marker_text (tag id : str) : str :=
  lit "<!--" ++ [SP] ++ (tag ++ lit ":") ++ id ++ [SP] ++ lit "-->".

(** Every unit is in [[a-zA-Z0-9_-]]. *)
Abbreviation id_chars := (Forall (λ c : N, is_id_char c = true)).

(** *** Whitespace equivalence, in the words of the specification *)

(** Collapse every run of whitespace to one space; [in_run] says that
    the unit before [s] was whitespace. *)
Fixpoint collapse_from (in_run : bool) (s : str) : str :=
  match s with
  | [] => []
  | c :: t =>
      if is_ws c
      then if in_run then collapse_from true t
           else SP :: collapse_from true t
      else c :: collapse_from false t
  end.

(** Collapse all runs of whitespace to single spaces, then trim. *)
Definition collapse_trim (s : str) : str := trim (collapse_from false s).

(** The words of a text: its maximal runs of non-whitespace units.
    [cur] is the word read so far. *)
Definition flush (cur : str) (rest : list str) : list str :=
  match cur with
  | [] => rest
  | _ => cur :: rest
  end.

Fixpoint words_from (cur : str) (s : str) : list str :=
  match s with
  | [] => flush cur []
  | c :: t =>
      if is_ws c then flush cur (words_from [] t)
      else words_from (cur ++ [c]) t
  end.

Definition words (s : str) : list str := words_from [] s.

(** The head of [s] is whitespace, or [s] is empty. *)
Definition ws_next (s : str) : Prop :=
  match s with
  | [] => True
  | c :: _ => is_ws c = true
  end.

(** A global replacement that only edits whitespace: every match is a
    non-empty run of whitespace, replaced by whitespace, or deleted
    where whitespace (or the end of the text) follows. *)
Definition ws_edit (r : regex) (rep : str) : Prop :=
  ∀ pos s caps e,
    match_at r pos s = Some (caps, e) →
    ∃ n, e = (pos + n)%nat ∧ (1 ≤ n ≤ length s)%nat
         ∧ Forall (λ c, is_ws c = true) (take n s)
         ∧ ((rep ≠ [] ∧ Forall (λ c, is_ws c = true) rep)
            ∨ (rep = [] ∧ ws_next (drop n s))).

(** *** Requests and their outcomes *)

(** The content update of an issue, as [updateIssue] sends it. *)
Definition update_request (repo' : IssueTypes.RepoContext) (issueNumber : N)
    (title' body' : str) (labels : list str) : Remote.Request :=
  Remote.IssuesUpdate
    {| Remote.u_owner := IssueTypes.owner repo';
       Remote.u_repo := IssueTypes.repo repo';
       Remote.u_issue_number := issueNumber;
       Remote.u_title := Some title'; Remote.u_body := Some body';
       Remote.u_labels := Some labels;
       Remote.u_state := None; Remote.u_state_reason := None |}.

(** The outcome of one request issued after [log]: the value when it is
    answered, the error when it throws; the request is logged either
    way. *)
Definition answered {A} (octokit : Remote.Octokit)
    (log : list Remote.Request) (rq : Remote.Request) (a : A)
    : Remote.outcome A * list Remote.Request :=
  match octokit log rq with
  | Remote.Ok _ => (Remote.Ok a, log ++ [rq])
  | Remote.Throw e => (Remote.Throw e, log ++ [rq])
  end.

(** A log in which the closing comment of an issue comes first: it is
    made of lone comment requests and of comment requests directly
    followed by the close request of the same issue. *)
Inductive comment_first (repo' : IssueTypes.RepoContext)
    : list Remote.Request → Prop :=
| comment_first_nil : comment_first repo' []
| comment_first_lone n c rest :
    comment_first repo' rest →
    comment_first repo' (IssueSync.comment_request repo' n c :: rest)
| comment_first_pair n c rest :
    comment_first repo' rest →
    comment_first repo'
      (IssueSync.comment_request repo' n c
         :: IssueSync.close_request repo' n :: rest).

(** *** Impact counts and archive entries *)

(** The number of changes of one operation in a sequence. *)
Definition count_op (o : PrTypes.Operation) (l : list PrTypes.SpecChange)
    : nat :=
  length (List.filter (λ c, PrFormat.op_eqb (PrTypes.operation c) o) l).


Definition is_digit (c : N) : bool := ((48 <=? c) && (c <=? 57))%N.

(** [YYYY-MM-DD-] *)
Definition is_date_prefix (p : str) : bool :=
  match p with
  | [y1; y2; y3; y4; h1; m1; m2; h2; d1; d2; h3] =>
      forallb is_digit [y1; y2; y3; y4; m1; m2; d1; d2]
      && forallb (N.eqb 45) [h1; h2; h3]
  | _ => false
  end.

(** An archive entry for a change: its bare id, or its id behind a
    date. *)
Definition is_archive_entry (changeId entry : str) : bool :=
  str_eqb entry changeId
  || (is_date_prefix (take 11 entry) && str_eqb (drop 11 entry) changeId).

(** The counters agree with the changes pushed so far. *)
Definition counted (a : Calculate.Acc) : Prop :=
  PrTypes.added (Calculate.acc_counts a)
  = count_op PrTypes.add (Calculate.acc_changes a)
  ∧ PrTypes.modified (Calculate.acc_counts a)
    = count_op PrTypes.modify (Calculate.acc_changes a)
  ∧ PrTypes.removed (Calculate.acc_counts a)
    = count_op PrTypes.op_remove (Calculate.acc_changes a)
  ∧ PrTypes.renamed (Calculate.acc_counts a)
    = count_op PrTypes.rename (Calculate.acc_changes a).

(** *** Reconciliation *)

(** A change id the marker pattern reads back, short enough for the
    marker line to survive truncation. *)
Definition marker_id (i : str) : Prop :=
  i ≠ [] ∧ id_chars i
  ∧ len (IssueTypes.generateChangeIdMarker i)
    < IssueTypes.MAX_ISSUE_BODY_LENGTH - len IssueFormat.TRUNCATION_NOTICE.

(** A request addressed to the repository that, when it writes to an
    existing issue, writes to one of the managed issues and, when it
    creates an issue, gives it the management label. *)
Definition managed_request (repo' : IssueTypes.RepoContext)
    (config : IssueTypes.IssueSyncConfig)
    (managedIssues : list IssueTypes.ManagedIssue) (rq : Remote.Request)
    : Prop :=
  match rq with
  | Remote.IssuesCreate o r _ _ ls =>
      o = IssueTypes.owner repo' ∧ r = IssueTypes.repo repo'
      ∧ IssueTypes.spectrLabel config ∈ ls
  | Remote.IssuesUpdate u =>
      Remote.u_owner u = IssueTypes.owner repo'
      ∧ Remote.u_repo u = IssueTypes.repo repo'
      ∧ ∃ m, m ∈ managedIssues
             ∧ IssueTypes.number m = Remote.u_issue_number u
  | Remote.IssuesCreateComment o r n _ =>
      o = IssueTypes.owner repo' ∧ r = IssueTypes.repo repo'
      ∧ ∃ m, m ∈ managedIssues ∧ IssueTypes.number m = n
  end.

(** The request that creates the issue of a change. *)
Definition create_request (repo' : IssueTypes.RepoContext)
    (config : IssueTypes.IssueSyncConfig) (change : IssueTypes.ChangeProposal)
    : Remote.Request :=
  Remote.IssuesCreate (IssueTypes.owner repo') (IssueTypes.repo repo')
    (IssueFormat.formatIssueTitle (IssueTypes.id change) config)
    (IssueFormat.formatIssueBody change) (IssueRun.allLabels config).

(** The open issue number [n] as the listing returns it when it holds
    what the action renders for [change]. *)
Definition rendered (config : IssueTypes.IssueSyncConfig) (n : N)
    (change : IssueTypes.ChangeProposal) : SyncRead.ApiIssue :=
  {| SyncRead.api_number := n;
     SyncRead.api_title :=
       IssueFormat.formatIssueTitle (IssueTypes.id change) config;
     SyncRead.api_body := Some (IssueFormat.formatIssueBody change);
     SyncRead.api_state := IssueTypes.open;
     SyncRead.api_pull_request := false |}.

(** The result of a run over [n] active changes that changed nothing. *)
Definition quiet_result (n : nat) : IssueTypes.SyncResult :=
  {| IssueTypes.created := 0; IssueTypes.updated := 0;
     IssueTypes.closed := 0; IssueTypes.totalChanges := n;
     IssueTypes.errors := [] |}.

(** The managed issue read from [rendered config n change]. *)
Definition listed (config : IssueTypes.IssueSyncConfig) (n : N)
    (change : IssueTypes.ChangeProposal) : IssueTypes.ManagedIssue :=
  {| IssueTypes.body := IssueFormat.formatIssueBody change;
     IssueTypes.changeId := IssueTypes.id change;
     IssueTypes.number := n;
     IssueTypes.state := IssueTypes.open;
     IssueTypes.title :=
       IssueFormat.formatIssueTitle (IssueTypes.id change) config |}.

(** *** Discovery *)

(** A change proposal as read from the directory [id] of [dir]: its
    proposal file exists and holds its non-empty content, and its
    tasks and affected specs are those of its directory. *)
Definition discovered `{Host} `{TasksJson} (archived : bool) (dir : str)
    (c : IssueTypes.ChangeProposal) : Prop :=
  IssueTypes.isArchived c = archived
  ∧ IssueTypes.proposalContent c ≠ []
  ∧ IssueTypes.path c = path_join [dir; IssueTypes.id c]
  ∧ existsSync (path_join [IssueTypes.path c; Discover.PROPOSAL_FILE]) = true
  ∧ readFileSync (path_join [IssueTypes.path c; Discover.PROPOSAL_FILE])
    = Some (IssueTypes.proposalContent c)
  ∧ IssueTypes.tasksContent c = Discover.readTasksContent (IssueTypes.path c)
  ∧ IssueTypes.affectedSpecs c
    = Discover.findAffectedSpecs (IssueTypes.path c).

(** The ids are names of subdirectories of [dir], in listing order;
    there are none when [dir] does not exist. *)
Definition directory_names `{Host} (dir : str) (ids : list str) : Prop :=
  if existsSync dir then
    ∃ entries, readdirSync_withFileTypes dir = Some entries
               ∧ ids `sublist_of`
                   List.map d_name (List.filter d_isDirectory entries)
  else ids = [].

(** *** Inputs and the repository *)

(** A label as [parseLabels] keeps it: not empty, without whitespace
    around it, without a comma. *)
Definition clean_label (l : str) : Prop :=
  l ≠ [] ∧ trim l = l ∧ (44%N ∉ l).

(** A value [<owner>/<repo>] or [<owner>/<repo>/...] of
    [GITHUB_REPOSITORY]. *)
Definition repository_of (repository o r : str) : Prop :=
  o ≠ [] ∧ r ≠ [] ∧ (47%N ∉ o) ∧ (47%N ∉ r)
  ∧ ∃ rest, repository = o ++ 47%N :: r ++ rest
            ∧ (rest = [] ∨ ∃ t, rest = 47%N :: t).

(** *** The changes of a delta plan *)

(** The changes of one capability, in the order the loops push them:
    added, modified, removed, renamed. *)
Definition plan_changes (capabilityName' : str)
    (plan : Calculate.DeltaPlan) : list PrTypes.SpecChange :=
  List.map (λ req,
    {| PrTypes.capabilityName := capabilityName';
       PrTypes.content := Some (trim (Calculate.req_content req));
       PrTypes.operation := PrTypes.add;
       PrTypes.requirementName := Calculate.name req;
       PrTypes.oldName := None |}) (Calculate.plan_added plan)
  ++ List.map (λ req,
    {| PrTypes.capabilityName := capabilityName';
       PrTypes.content := Some (trim (Calculate.req_content req));
       PrTypes.operation := PrTypes.modify;
       PrTypes.requirementName := Calculate.name req;
       PrTypes.oldName := None |}) (Calculate.plan_modified plan)
  ++ List.map (λ name',
    {| PrTypes.capabilityName := capabilityName';
       PrTypes.content := None;
       PrTypes.operation := PrTypes.op_remove;
       PrTypes.requirementName := name';
       PrTypes.oldName := None |}) (Calculate.plan_removed plan)
  ++ List.map (λ rn,
    {| PrTypes.capabilityName := capabilityName';
       PrTypes.content := None;
       PrTypes.operation := PrTypes.rename;
       PrTypes.requirementName := Calculate.to rn;
       PrTypes.oldName := Some (Calculate.from rn) |})
    (Calculate.plan_renamed plan).

(** A change as the calculation builds it: of a listed capability, for
    a named requirement, with content exactly when it adds or modifies
    and an old name exactly when it renames. *)
Definition well_formed_change (capabilities : list str)
    (c : PrTypes.SpecChange) : Prop :=
  PrTypes.capabilityName c ∈ capabilities
  ∧ PrTypes.requirementName c ≠ []
  ∧ match PrTypes.operation c with
    | PrTypes.add | PrTypes.modify =>
        is_Some (PrTypes.content c) ∧ PrTypes.oldName c = None
    | PrTypes.op_remove =>
        PrTypes.content c = None ∧ PrTypes.oldName c = None
    | PrTypes.rename =>
        PrTypes.content c = None
        ∧ ∃ old, PrTypes.oldName c = Some old ∧ old ≠ []
    end.

(** The lines a requirements section is read up to: those before the
    first line that starts with [## ]. *)
Fixpoint lines_before_h2 (lines : list str) : list str :=
  match lines with
  | [] => []
  | line :: lines' =>
      if startsWith line (lit "## ") then []
      else line :: lines_before_h2 lines'
  end.

(** A line that opens a second-level section, indented or not. *)
Definition is_h2_line (line : str) : bool :=
  startsWith (trimStart line) (lit "## ").

(** The lines of a renamed section that give an old name, and those
    that give a new one. *)
Definition from_lines `{Host} (lines : list str) : list str :=
  List.filter (λ l, bool_decide (is_Some (Calculate.matchRenamedFrom l)))
    lines.

Definition to_lines `{Host} (lines : list str) : list str :=
  List.filter (λ l, bool_decide (Calculate.matchRenamedFrom l = None
                                  ∧ is_Some (Calculate.matchRenamedTo l)))
    lines.

(** The summary line of the section of a capability with [n]
    changes. *)
Definition summary_line (capability : str) (n : nat) : str :=
  lit "<summary><strong>" ++ capability ++ lit "</strong> ("
  ++ num n ++ lit " " ++ PrFormat.plural n ++ lit ")</summary>".

(** *** Labels *)

(** The request to create a label, made after [log], goes through: it
    is answered, or rejected with status 422. *)
Definition label_accepted (octokit : Labels.LabelOctokit)
    (log : list Labels.LabelRequest) (params : Labels.LabelParams) : Prop :=
  match Labels.createLabel octokit log params with
  | Labels.Answered _ => True
  | Labels.Rejected e => Labels.status e = Some 422%N
  end.

(** *** Delta sections *)


(** *** The line form of a body *)

(** Every CR LF becomes LF. *)
Fixpoint crlf_to_lf (s : str) : str :=
  match s with
  | [] => []
  | c :: t =>
      match t with
      | d :: t' =>
          if ((CR =? c) && (LF =? d))%N then LF :: crlf_to_lf t'
          else c :: crlf_to_lf t
      | [] => [c]
      end
  end.

(** Only whitespace stands between the start of [s] and a line
    terminator, or the end of the text. *)
Fixpoint at_line_end (s : str) : bool :=
  match s with
  | [] => true
  | c :: t => is_line_terminator c || (is_ws c && at_line_end t)
  end.

(** Delete every whitespace unit that is followed, through whitespace
    only, by a line terminator or by the end of the text: whitespace
    at the end of a line, and all but the last terminator of a run of
    blank lines. *)
Fixpoint strip_line_ends (s : str) : str :=
  match s with
  | [] => []
  | c :: t =>
      if is_ws c && at_line_end t then strip_line_ends t
      else c :: strip_line_ends t
  end.

(** The form in which issue bodies are compared. *)
Definition line_trim (s : str) : str :=
  trim (strip_line_ends (crlf_to_lf s)).

(** At the end of the text, or in front of a line terminator. *)
Definition line_end_here (s : str) : Prop :=
  match s with
  | [] => True
  | c :: _ => is_line_terminator c = true
  end.

(** Two texts that no text put in front of them can tell apart, once
    CR LF is LF and line ends are stripped. *)
Definition same_lines (z z' : str) : Prop :=
  strip_line_ends (crlf_to_lf z) = strip_line_ends (crlf_to_lf z')
  ∧ at_line_end (crlf_to_lf z) = at_line_end (crlf_to_lf z').

End Spec.

(* ================================================================== *)
(** ** A small host, for the worked examples

    A workspace [/w] whose archive holds [2025-12-10-add-issue-sync] and
    whose change [issue-sync] touches one capability.  Paths are joined
    with [/] and only ASCII letters change case; both agree with Node on
    the inputs used below. *)
(* ================================================================== *)

Module Demo.
Import JS.

Definition ascii_upper (s : str) : str :=
  List.map (λ c, if ((97 <=? c) && (c <=? 122))%N then (c - 32)%N else c) s.

Definition archive_dir : str := lit "/w/spectr/changes/archive".
Definition specs_dir : str := lit "/w/spectr/changes/issue-sync/specs".
Definition spec_file : str :=
  lit "/w/spectr/changes/issue-sync/specs/auth/spec.md".

Definition spec_text : str :=
  join [LF] [
    lit "## ADDED Requirements";
    lit "### Requirement: Two Factor";
    lit "The system SHALL ask for a code.";
    lit "";
    lit "## REMOVED Requirements";
    lit "- Legacy Login";
    lit "";
    lit "## RENAMED Requirements";
    lit "- FROM: `### Requirement: Sign In`";
    lit "- TO: `### Requirement: Log In`"
  ].

Definition host : Host := {|
  path_join := join (lit "/");
  existsSync := λ p, existsb (str_eqb p) [archive_dir; specs_dir; spec_file];
  readdirSync := λ p,
    if str_eqb p archive_dir then Some [lit "2025-12-10-add-issue-sync"]
    else None;
  readdirSync_withFileTypes := λ p,
    if str_eqb p specs_dir
    then Some [{| d_name := lit "auth"; d_isDirectory := true |};
               {| d_name := lit "notes.md"; d_isDirectory := false |}]
    else None;
  readFileSync := λ p, if str_eqb p spec_file then Some spec_text else None;
  toUpperCase := ascii_upper;
|}.

Definition proposal : IssueTypes.ChangeProposal := {|
  IssueTypes.id := lit "issue-sync";
  IssueTypes.path := lit "/w/spectr/changes/issue-sync";
  IssueTypes.proposalContent := lit "# Change: sync issues" ++ [LF];
  IssueTypes.tasksContent := Some (lit "- [ ] 1.1 Add inputs");
  IssueTypes.affectedSpecs := [lit "auth"];
  IssueTypes.isArchived := false;
|}.

Definition impact : PrTypes.SpecImpact :=
  Calculate.calculateSpecImpact (H := host) (lit "issue-sync") (lit "/w")
    PrTypes.proposal.

(** A proposal whose id alone is as long as the ceiling. *)
Definition long_proposal : IssueTypes.ChangeProposal := {|
  IssueTypes.id := replicate (N.to_nat 65536) 97%N;
  IssueTypes.path := [];
  IssueTypes.proposalContent := [];
  IssueTypes.tasksContent := None;
  IssueTypes.affectedSpecs := [];
  IssueTypes.isArchived := false;
|}.

(** A client that answers every request. *)
Definition octokit : Remote.Octokit :=
  λ _ _, Remote.Ok {| Remote.data_number := 7%N |}.

Definition repo : IssueTypes.RepoContext :=
  {| IssueTypes.owner := lit "connerohnesorge";
     IssueTypes.repo := lit "spectr-action" |}.

Definition config : IssueTypes.IssueSyncConfig := {|
  IssueTypes.enabled := true;
  IssueTypes.labels := [lit "spectr"; lit "change-proposal"];
  IssueTypes.titlePrefix := lit "[Spectr Change]";
  IssueTypes.closeOnArchive := true;
  IssueTypes.updateExisting := true;
  IssueTypes.spectrLabel := lit "spectr-managed";
  IssueTypes.githubToken := lit "token";
|}.

(** The issue of [proposal], closed, with the body and title the
    formatter would render. *)
Definition closed_issue : IssueTypes.ManagedIssue := {|
  IssueTypes.number := 7%N;
  IssueTypes.changeId := lit "issue-sync";
  IssueTypes.state := IssueTypes.closed_state;
  IssueTypes.title := IssueFormat.formatIssueTitle (lit "issue-sync") config;
  IssueTypes.body := IssueFormat.formatIssueBody proposal;
|}.

Definition open_issue : IssueTypes.ManagedIssue := {|
  IssueTypes.number := 7%N;
  IssueTypes.changeId := lit "issue-sync";
  IssueTypes.state := IssueTypes.open;
  IssueTypes.title := IssueFormat.formatIssueTitle (lit "issue-sync") config;
  IssueTypes.body := IssueFormat.formatIssueBody proposal;
|}.

End Demo.

(* ================================================================== *)
(** ** More data for the worked examples *)
(* ================================================================== *)

Module DemoRun.
Import JS.

(** A body beyond the ceiling of an issue body. *)
Definition long_body : str := replicate (N.to_nat 70000) 97%N.

(** The configuration of [Demo.config] with updates and closing off. *)
Definition frozen_config : IssueTypes.IssueSyncConfig := {|
  IssueTypes.enabled := true;
  IssueTypes.labels := [lit "spectr"; lit "change-proposal"];
  IssueTypes.titlePrefix := lit "[Spectr Change]";
  IssueTypes.closeOnArchive := false;
  IssueTypes.updateExisting := false;
  IssueTypes.spectrLabel := lit "spectr-managed";
  IssueTypes.githubToken := lit "token";
|}.

(** A listing that returns issue 7, as rendered for [Demo.proposal]. *)
Definition paginate : SyncRead.Paginate :=
  λ _ _ _, Remote.Ok [Spec.rendered Demo.config 7%N Demo.proposal].

Definition ascii_lower (s : str) : str :=
  List.map (λ c, if ((65 <=? c) && (c <=? 90))%N then (c + 32)%N else c) s.

(** No input is set; only ASCII letters change case. *)
Definition inputs : ActionInputs := {|
  getInput := λ _, [];
  toLowerCase := ascii_lower;
|}.




End DemoRun.

(* ================================================================== *)
(** * Properties *)
(* ================================================================== *)

(** ** Strings *)

Section StringFacts.
Import JS.

Lemma startsWith_app (p s : str) : startsWith (p ++ s) p = true.
Proof.
  induction p as [|a p IH]; [done|].
  simpl. by rewrite N.eqb_refl, IH.
Qed.

Lemma startsWith_spec (s p : str) :
  startsWith s p = true ↔ ∃ t, s = p ++ t.
Proof.
  split.
  - revert s. induction p as [|a p IH]; intros s Hs; [by exists s|].
    destruct s as [|b s]; [done|]. simpl in Hs.
    apply andb_true_iff in Hs as [Hab Hs]. apply N.eqb_eq in Hab as ->.
    destruct (IH _ Hs) as [t ->]. by exists t.
  - intros [t ->]. apply startsWith_app.
Qed.

Lemma str_eqb_eq (s t : str) : str_eqb s t = true ↔ s = t.
Proof. unfold str_eqb. apply bool_decide_eq_true. Qed.

Lemma startsWith_length (s p : str) :
  startsWith s p = true → (length p ≤ length s)%nat.
Proof.
  intros [t ->]%startsWith_spec. rewrite length_app. lia.
Qed.

Lemma startsWith_head_ne (a b : N) (s p : str) :
  a ≠ b → startsWith (b :: s) (a :: p) = false.
Proof. intros Hne. simpl. by apply N.eqb_neq in Hne as ->. Qed.

Lemma startsWith_nil (a : N) (p : str) : startsWith [] (a :: p) = false.
Proof. done. Qed.

Lemma len_app (s t : str) : len (s ++ t) = len s + len t.
Proof. unfold len. rewrite length_app. lia. Qed.

Lemma len_nonneg (s : str) : 0 ≤ len s.
Proof. unfold len. lia. Qed.

End StringFacts.

(** ** The matcher *)

Section RegexFacts.
Import JS Regex Spec.

Lemma star_loop_stop p k pos s :
  stops p s → star_loop p k pos s = k pos s.
Proof. destruct s as [|c t]; [done|]. simpl. by intros ->. Qed.

(** Greedy repetition: when the continuation accepts after the whole
    run, that is the match. *)
Lemma star_loop_greedy p k pos w t r :
  Forall (λ c, p c = true) w →
  k (pos + length w)%nat t = Some r →
  stops p t →
  star_loop p k pos (w ++ t) = Some r.
Proof.
  intros Hw. revert pos. induction Hw as [|c w Hc Hw IH]; intros pos Hk Ht.
  - simpl in *. rewrite Nat.add_0_r in Hk. by rewrite star_loop_stop.
  - simpl. rewrite Hc. rewrite IH; [done| |done].
    simpl in Hk. by replace (S pos + length w)%nat with (pos + S (length w))%nat by lia.
Qed.

(** Whatever the loop returns was accepted by the continuation after
    some run of the class. *)
Lemma star_loop_inv p k pos s r :
  star_loop p k pos s = Some r →
  ∃ n, (n ≤ length s)%nat ∧ Forall (λ c, p c = true) (take n s)
       ∧ k (pos + n)%nat (drop n s) = Some r.
Proof.
  revert pos. induction s as [|c t IH]; intros pos H.
  - exists 0%nat. simpl in *. rewrite Nat.add_0_r. by repeat split.
  - simpl in H. destruct (p c) eqn:Hc.
    + destruct (star_loop p k (S pos) t) as [r'|] eqn:Hl.
      * injection H as <-. destruct (IH _ Hl) as (n & Hn & Hall & Hk).
        exists (S n). simpl. repeat split; [lia|by constructor|].
        by replace (pos + S n)%nat with (S pos + n)%nat by lia.
      * exists 0%nat. simpl. rewrite Nat.add_0_r. repeat split; [lia|done..].
    + exists 0%nat. simpl. rewrite Nat.add_0_r. repeat split; [lia|done..].
Qed.

Lemma rmatch_lit_app l caps pos s k :
  rmatch (RLit l) caps pos (l ++ s) k = k caps (pos + length l)%nat s.
Proof. simpl. by rewrite startsWith_app, drop_app_length. Qed.

Lemma rmatch_lit_inv l caps pos s k r :
  rmatch (RLit l) caps pos s k = Some r →
  ∃ t, s = l ++ t ∧ k caps (pos + length l)%nat t = Some r.
Proof.
  simpl. destruct (startsWith s l) eqn:Hs; [|done].
  apply startsWith_spec in Hs as [t ->]. rewrite drop_app_length. eauto.
Qed.

Lemma exec_from_inv r pos s b e caps :
  exec_from r pos s = Some (b, e, caps) →
  ∃ n, (n ≤ length s)%nat ∧ b = (pos + n)%nat
       ∧ match_at r b (drop n s) = Some (caps, e).
Proof.
  revert pos. induction s as [|c t IH]; intros pos H; simpl in H.
  - destruct (match_at r pos []) as [[caps' e']|] eqn:Hm; [|done].
    injection H as <- <- <-. exists 0%nat. rewrite Nat.add_0_r. by repeat split.
  - destruct (match_at r pos (c :: t)) as [[caps' e']|] eqn:Hm.
    + injection H as <- <- <-. exists 0%nat. rewrite Nat.add_0_r.
      repeat split; [lia|done].
    + destruct (IH _ H) as (n & Hn & -> & Hm').
      exists (S n). simpl. repeat split; [lia|lia|].
      by replace (pos + S n)%nat with (S pos + n)%nat by lia.
Qed.

(** A pattern that opens with a literal finds nothing in a text
    without the first unit of that literal. *)
Lemma exec_from_absent a l r pos s :
  a ∉ s → exec_from (RSeq (RLit (a :: l)) r) pos s = None.
Proof.
  revert pos. induction s as [|c t IH]; intros pos Hs; [done|].
  apply not_elem_of_cons in Hs as [Hne Hs].
  unfold exec_from; fold exec_from. unfold match_at.
  cbn [rmatch]. rewrite startsWith_head_ne by done. by apply IH.
Qed.

End RegexFacts.

(** ** Markers: src/issues/types.ts and src/pr-impact/types.ts *)

Section ClassFacts.
Import JS.

Ltac class_props :=
  rewrite ?orb_true_iff, ?andb_true_iff, ?N.leb_le, ?N.eqb_eq.

Lemma id_char_bounds c : is_id_char c = true → (45 ≤ c ≤ 122)%N.
Proof. unfold is_id_char. class_props. lia. Qed.

Lemma ws_bounds c : is_ws c = true → (c ≤ 32 ∨ 160 ≤ c)%N.
Proof. unfold is_ws. class_props. lia. Qed.

Lemma id_char_not_ws c : is_id_char c = true → is_ws c = false.
Proof.
  intros Hc%id_char_bounds. destruct (is_ws c) eqn:Hw; [|done].
  apply ws_bounds in Hw. lia.
Qed.

Lemma line_terminator_ws c : is_line_terminator c = true → is_ws c = true.
Proof. unfold is_line_terminator, is_ws. class_props. lia. Qed.

End ClassFacts.

Section MarkerFacts.
Import JS Regex Spec.

Lemma rmatch_seq r1 r2 caps pos s k :
  rmatch (RSeq r1 r2) caps pos s k
  = rmatch r1 caps pos s (λ caps' pos' s', rmatch r2 caps' pos' s' k).
Proof. done. Qed.

Lemma rmatch_star p caps pos s k :
  rmatch (RStar p) caps pos s k = star_loop p (k caps) pos s.
Proof. done. Qed.

Lemma rmatch_group_plus p caps pos c t k :
  p c = true →
  rmatch (RGroup (RPlus p)) caps pos (c :: t) k
  = star_loop p (λ pos' s', k (caps ++ [take (pos' - pos) (c :: t)]) pos' s')
      (S pos) t.
Proof. intros Hc. cbn [rmatch]. by rewrite Hc. Qed.

Lemma rmatch_lit_exact l caps pos k :
  rmatch (RLit l) caps pos l k = k caps (pos + length l)%nat [].
Proof. by rewrite <-(app_nil_r l) at 2; rewrite rmatch_lit_app. Qed.

Lemma exec_from_hit r pos s caps e :
  match_at r pos s = Some (caps, e) →
  exec_from r pos s = Some (pos, e, caps).
Proof. intros Hm. destruct s; simpl; by rewrite Hm. Qed.

Lemma exec_from_cons_miss r pos c t :
  match_at r pos (c :: t) = None →
  exec_from r pos (c :: t) = exec_from r (S pos) t.
Proof. intros Hm. simpl. by rewrite Hm. Qed.

Lemma match_at_marker tag id :
  stops is_ws (tag ++ lit ":") →
  id ≠ [] → Forall (λ c, is_id_char c = true) id →
  match_at (marker_pattern tag) 0 (marker_text tag id)
  = Some ([id], length (marker_text tag id)).
Proof.
  intros Htag Hne Hid. unfold match_at, marker_pattern, marker_text.
  rewrite rmatch_seq, rmatch_lit_app, rmatch_seq, rmatch_star.
  destruct id as [|c id]; [done|]. inversion_clear Hid as [|?? Hc Hid'].
  erewrite (star_loop_greedy is_ws _ _ [SP]); [reflexivity|by repeat constructor| |].
  2:{ destruct tag; simpl in *; done. }
  cbv beta. rewrite rmatch_seq. rewrite rmatch_lit_app, rmatch_seq.
  rewrite <-app_comm_cons, rmatch_group_plus by done.
  erewrite (star_loop_greedy is_id_char _ _ id); [reflexivity|done| |done].
  cbv beta. rewrite rmatch_seq, rmatch_star.
  erewrite (star_loop_greedy is_ws _ _ [SP]); [reflexivity|by repeat constructor| |done]. cbv beta.
  rewrite rmatch_lit_exact.
  unfold accept. f_equal. f_equal.
  - f_equal. 
    replace (_ - _)%nat with (length (c :: id)) by (simpl; lia).
    by rewrite app_comm_cons, take_app_length.
  - rewrite !length_app. simpl. rewrite !length_app. simpl. lia.
Qed.

Lemma str_match_marker tag id :
  stops is_ws (tag ++ lit ":") →
  id ≠ [] → Forall (λ c, is_id_char c = true) id →
  str_match (marker_text tag id) (marker_pattern tag)
  = Some [marker_text tag id; id].
Proof.
  intros Htag Hne Hid. unfold str_match.
  rewrite (exec_from_hit _ _ _ _ _ (match_at_marker tag id Htag Hne Hid)).
  by rewrite Nat.sub_0_r, drop_0, firstn_all.
Qed.

Lemma rmatch_group_plus_inv p caps pos s k r :
  rmatch (RGroup (RPlus p)) caps pos s k = Some r →
  ∃ n, (1 ≤ n ≤ length s)%nat ∧ Forall (λ c, p c = true) (take n s)
       ∧ k (caps ++ [take n s]) (pos + n)%nat (drop n s) = Some r.
Proof.
  cbn [rmatch]. destruct s as [|c t]; [done|].
  destruct (p c) eqn:Hc; [|done]. intros H.
  apply star_loop_inv in H as (n & Hn & Hall & Hk).
  exists (S n). simpl. repeat split; [lia|lia|by constructor|].
  replace (S pos + n - pos)%nat with (S n) in Hk by lia.
  by replace (pos + S n)%nat with (S pos + n)%nat by lia.
Qed.

(** Whatever a marker pattern captures is a non-empty run of the id
    class. *)
Lemma match_at_marker_inv tag pos s caps e :
  match_at (marker_pattern tag) pos s = Some (caps, e) →
  ∃ id, caps = [id] ∧ id ≠ [] ∧ Forall (λ c, is_id_char c = true) id.
Proof.
  unfold match_at, marker_pattern. rewrite rmatch_seq.
  intros (t1 & -> & H)%rmatch_lit_inv. rewrite rmatch_seq, rmatch_star in H.
  apply star_loop_inv in H as (n1 & _ & _ & H).
  rewrite rmatch_seq in H. apply rmatch_lit_inv in H as (t2 & _ & H).
  rewrite rmatch_seq in H.
  apply rmatch_group_plus_inv in H as (n & Hn & Hall & H).
  rewrite rmatch_seq, rmatch_star in H.
  apply star_loop_inv in H as (n3 & _ & _ & H).
  apply rmatch_lit_inv in H as (t4 & _ & H).
  unfold accept in H. injection H as <- <-.
  exists (take n t2). repeat split; [|done].
  destruct t2, n; simpl in *; [lia..|done].
Qed.

Lemma str_match_marker_inv tag s m :
  str_match s (marker_pattern tag) = Some m →
  group m 1 ≠ [] ∧ Forall (λ c, is_id_char c = true) (group m 1).
Proof.
  unfold str_match.
  destruct (exec_from _ _ _) as [[[b e] caps]|] eqn:He; [|done].
  intros [= <-]. apply exec_from_inv in He as (n & _ & _ & Hm).
  by apply match_at_marker_inv in Hm as (id & -> & ? & ?).
Qed.

(** Two tags without a colon that are followed by one agree. *)
Lemma colon_split (t1 t2 x y : str) :
  58%N ∉ t1 → 58%N ∉ t2 →
  t1 ++ 58%N :: x = t2 ++ 58%N :: y → t1 = t2.
Proof.
  revert t2. induction t1 as [|a t1 IH]; intros [|b t2] H1 H2 Heq;
    simpl in Heq; [done|..].
  - injection Heq as <- _. set_solver.
  - injection Heq as -> _. set_solver.
  - injection Heq as -> Heq. f_equal. apply (IH t2); [set_solver..|done].
Qed.

Lemma id_chars_no (c : N) (s : str) :
  is_id_char c = false → Forall (λ c, is_id_char c = true) s → c ∉ s.
Proof.
  intros Hc Hs Hin. rewrite Forall_forall in Hs.
  specialize (Hs _ Hin). congruence.
Qed.

(** A marker with another tag is not matched anywhere. *)
Lemma str_match_wrong_tag tag tag' id :
  Forall (λ c, is_id_char c = true) tag →
  Forall (λ c, is_id_char c = true) tag' →
  Forall (λ c, is_id_char c = true) id →
  tag' ≠ tag →
  str_match (marker_text tag' id) (marker_pattern tag) = None.
Proof.
  intros Htag Htag' Hid Hne. unfold str_match.
  enough (exec_from (marker_pattern tag) 0 (marker_text tag' id) = None)
    as -> by done.
  unfold marker_text. change (lit "<!--") with [60; 33; 45; 45]%N.
  cbn [app]. rewrite exec_from_cons_miss.
  - apply exec_from_absent.
    repeat (rewrite not_elem_of_cons || rewrite not_elem_of_app).
    repeat split; try done; try (by apply id_chars_no); compute_done.
  - destruct (match_at _ _ _) as [[caps e]|] eqn:Hm; [exfalso|done].
    unfold match_at, marker_pattern in Hm.
    rewrite rmatch_seq in Hm. apply rmatch_lit_inv in Hm as (t1 & Heq & H).
    change (lit "<!--") with [60; 33; 45; 45]%N in Heq. cbn [app] in Heq.
    injection Heq as <-.
    rewrite rmatch_seq, rmatch_star in H.
    apply star_loop_inv in H as (n & _ & Hall & H).
    rewrite rmatch_seq in H. apply rmatch_lit_inv in H as (t2 & Heq & _).
    destruct n as [|[|n]].
    + simpl in Heq. destruct tag as [|a tag]; [done|].
      injection Heq as <- _. by inversion Htag.
    + simpl in Heq. rewrite <-!app_assoc in Heq. simpl in Heq.
      apply colon_split in Heq; [done|by apply id_chars_no..].
    + simpl in Hall. inversion_clear Hall as [|?? _ Hall'].
      destruct tag' as [|a tag'']; simpl in Hall'.
      * by inversion Hall'.
      * inversion Hall' as [|?? Ha _]. inversion Htag' as [|?? Ha' _].
        subst. apply id_char_not_ws in Ha'. congruence.
Qed.

Lemma generateChangeIdMarker_text id :
  IssueTypes.generateChangeIdMarker id
  = marker_text IssueTypes.CHANGE_ID_TAG id.
Proof. reflexivity. Qed.

Lemma generatePRImpactMarker_text id :
  PrTypes.generatePRImpactMarker id = marker_text PrTypes.PR_IMPACT_TAG id.
Proof. reflexivity. Qed.

End MarkerFacts.

Section BranchFacts.
Import JS Regex PrTypes Detect Spec.

Lemma star_loop_all p k pos w r :
  Forall (λ c, p c = true) w →
  k (pos + length w)%nat [] = Some r →
  star_loop p k pos w = Some r.
Proof.
  intros Hw Hk. rewrite <-(app_nil_r w). by apply star_loop_greedy.
Qed.

Lemma rmatch_group_plus_all p caps pos s k r :
  s ≠ [] → Forall (λ c, p c = true) s →
  k (caps ++ [s]) (pos + length s)%nat [] = Some r →
  rmatch (RGroup (RPlus p)) caps pos s k = Some r.
Proof.
  intros Hne Hs Hk. destruct s as [|c t]; [done|].
  inversion_clear Hs as [|?? Hc Ht]. rewrite rmatch_group_plus by done.
  apply star_loop_all; [done|].
  replace (S pos + length t - pos)%nat with (length (c :: t)) by (simpl; lia).
  rewrite firstn_all. simpl in Hk.
  by replace (S pos + length t)%nat with (pos + S (length t))%nat by lia.
Qed.

Lemma rmatch_begin caps s k : rmatch RBegin caps 0 s k = k caps 0%nat s.
Proof. done. Qed.

Lemma rmatch_group r caps pos s k :
  rmatch (RGroup r) caps pos s k
  = rmatch r caps pos s
      (λ caps' pos' s', k (caps' ++ [take (pos' - pos) s]) pos' s').
Proof. done. Qed.

Lemma rmatch_alt r1 r2 caps pos s k :
  rmatch (RAlt r1 r2) caps pos s k
  = match rmatch r1 caps pos s k with
    | Some x => Some x
    | None => rmatch r2 caps pos s k
    end.
Proof. done. Qed.

Lemma rmatch_lit_miss l caps pos s k :
  startsWith s l = false → rmatch (RLit l) caps pos s k = None.
Proof. simpl. by intros ->. Qed.

Lemma branch_tail caps pos rest :
  rest ≠ [] → Forall (λ c, is_dot c = true) rest →
  rmatch (RSeq (RLit (lit "/")) (RSeq (RGroup (RPlus is_dot)) (REnd false)))
    caps pos (lit "/" ++ rest) accept
  = Some (caps ++ [rest], (pos + length (lit "/") + length rest)%nat).
Proof.
  intros Hne Hrest. rewrite rmatch_seq, rmatch_lit_app, rmatch_seq.
  by apply rmatch_group_plus_all.
Qed.

Lemma match_at_branch m rest :
  rest ≠ [] → Forall (λ c, is_dot c = true) rest →
  match_at SPECTR_BRANCH_PATTERN 0
    (lit "spectr/" ++ mode_name m ++ lit "/" ++ rest)
  = Some ([mode_name m; rest],
          length (lit "spectr/" ++ mode_name m ++ lit "/" ++ rest)).
Proof.
  intros Hne Hrest. unfold match_at, SPECTR_BRANCH_PATTERN.
  rewrite rmatch_seq, rmatch_begin, rmatch_seq, rmatch_lit_app, rmatch_seq.
  rewrite rmatch_group, !rmatch_alt.
  destruct m; unfold mode_name.
  - rewrite rmatch_lit_app, branch_tail by done.
    rewrite Nat.add_comm, Nat.add_sub, take_app_length.
    repeat f_equal; rewrite ?length_app; lia.
  - rewrite (rmatch_lit_miss (lit "proposal")) by done.
    rewrite rmatch_lit_app, branch_tail by done.
    rewrite Nat.add_comm, Nat.add_sub, take_app_length.
    repeat f_equal; rewrite ?length_app; lia.
  - rewrite (rmatch_lit_miss (lit "proposal")) by done.
    rewrite (rmatch_lit_miss (lit "archive")) by done.
    rewrite rmatch_lit_app, branch_tail by done.
    rewrite Nat.add_comm, Nat.add_sub, take_app_length.
    repeat f_equal; rewrite ?length_app; lia.
Qed.

Lemma parseSpectrBranch_spectr m rest :
  rest ≠ [] → Forall (λ c, is_dot c = true) rest →
  parseSpectrBranch (lit "spectr/" ++ mode_name m ++ lit "/" ++ rest)
  = {| changeId := Some rest; isSpectrBranch := true; mode := Some m |}.
Proof.
  intros Hne Hrest. unfold parseSpectrBranch, str_match.
  rewrite (exec_from_hit _ _ _ _ _ (match_at_branch m rest Hne Hrest)).
  unfold group. cbn [nth]. by destruct m.
Qed.

End BranchFacts.

Section MarkerClaims.
Import JS Regex IssueTypes PrTypes Detect Spec.

(** C4: for every non-empty change id over [[a-zA-Z0-9_-]] extracting
    from the generated marker gives the id back, for the issue marker
    and for the PR-impact marker; a marker that carries another tag, or
    an empty id, is not matched, so extraction returns null. *)
Theorem marker_roundtrip :
  (∀ id : str, id ≠ [] → id_chars id →
     extractChangeIdFromBody (generateChangeIdMarker id) = Some id
     ∧ extractChangeIdFromComment (generatePRImpactMarker id) = Some id)
  ∧ (∀ tag id : str, id_chars tag → id_chars id →
       (tag ≠ CHANGE_ID_TAG →
          extractChangeIdFromBody (marker_text tag id) = None)
       ∧ (tag ≠ PR_IMPACT_TAG →
            extractChangeIdFromComment (marker_text tag id) = None))
  ∧ extractChangeIdFromBody (generateChangeIdMarker []) = None
  ∧ extractChangeIdFromComment (generatePRImpactMarker []) = None.
Proof.
  split; [|split; [|by vm_compute]].
  - intros id Hne Hid. split.
    + unfold extractChangeIdFromBody, CHANGE_ID_MARKER_PATTERN.
      rewrite generateChangeIdMarker_text, str_match_marker; done.
    + unfold extractChangeIdFromComment, PR_IMPACT_MARKER_PATTERN.
      rewrite generatePRImpactMarker_text, str_match_marker; done.
  - intros tag id Htag Hid. split; intros Hne.
    + unfold extractChangeIdFromBody, CHANGE_ID_MARKER_PATTERN.
      rewrite str_match_wrong_tag; [done|compute_done|done..].
    + unfold extractChangeIdFromComment, PR_IMPACT_MARKER_PATTERN.
      rewrite str_match_wrong_tag; [done|compute_done|done..].
Qed.

Lemma marker_roundtrip_witness :
  extractChangeIdFromBody (generateChangeIdMarker (lit "add_feature-V2"))
  = Some (lit "add_feature-V2")
  ∧ extractChangeIdFromComment (generatePRImpactMarker (lit "add_feature-V2"))
    = Some (lit "add_feature-V2")
  ∧ extractChangeIdFromBody (marker_text (lit "spectr-id") (lit "test")) = None
  ∧ extractChangeIdFromComment (marker_text CHANGE_ID_TAG (lit "test")) = None.
Proof.
  destruct marker_roundtrip as (Hrt & Hwrong & _).
  destruct (Hrt (lit "add_feature-V2") ltac:(compute_done) ltac:(compute_done))
    as [H1 H2].
  destruct (Hwrong (lit "spectr-id") (lit "test")
              ltac:(compute_done) ltac:(compute_done)) as [H3 _].
  destruct (Hwrong CHANGE_ID_TAG (lit "test")
              ltac:(compute_done) ltac:(compute_done)) as [_ H4].
  split; [exact H1|]. split; [exact H2|].
  split; [apply H3|apply H4]; compute_done.
Defined.

(** C8: the three scenarios of the branch parser. *)
Theorem parseSpectrBranch_scenarios :
  parseSpectrBranch (lit "spectr/proposal/add-feature")
  = {| changeId := Some (lit "add-feature"); isSpectrBranch := true;
       mode := Some proposal |}
  ∧ parseSpectrBranch (lit "main")
    = {| changeId := None; isSpectrBranch := false; mode := None |}
  ∧ parseSpectrBranch (lit "spectr/proposal/")
    = {| changeId := None; isSpectrBranch := false; mode := None |}.
Proof.
  split; [|split].
  - apply (parseSpectrBranch_spectr proposal (lit "add-feature"));
      compute_done.
  - unfold parseSpectrBranch. by vm_compute (str_match _ _).
  - unfold parseSpectrBranch. by vm_compute (str_match _ _).
Qed.

(** C10, as the code has it: a branch [spectr/<mode>/<rest>] whose
    remainder is non-empty and free of line terminators is a spectr
    branch whose change id is the whole remainder, slashes and all; when
    the remainder has a unit outside [[a-zA-Z0-9_-]] the marker
    generated from it does not give it back. *)
Theorem parseSpectrBranch_remainder (m : PRMode) (rest : str) :
  rest ≠ [] → Forall (λ c, is_dot c = true) rest →
  parseSpectrBranch (lit "spectr/" ++ mode_name m ++ lit "/" ++ rest)
  = {| changeId := Some rest; isSpectrBranch := true; mode := Some m |}
  ∧ (¬ id_chars rest →
     extractChangeIdFromComment (generatePRImpactMarker rest) ≠ Some rest).
Proof.
  intros Hne Hrest. split; [by apply parseSpectrBranch_spectr|].
  intros Hout. unfold extractChangeIdFromComment, PR_IMPACT_MARKER_PATTERN.
  destruct (str_match _ _) as [mt|] eqn:Hm; [|done].
  apply str_match_marker_inv in Hm as [_ Hall]. by intros [= <-].
Qed.

Lemma parseSpectrBranch_remainder_witness :
  parseSpectrBranch (lit "spectr/proposal/a/b")
  = {| changeId := Some (lit "a/b"); isSpectrBranch := true;
       mode := Some proposal |}
  ∧ extractChangeIdFromComment (generatePRImpactMarker (lit "a/b"))
    ≠ Some (lit "a/b").
Proof.
  destruct (parseSpectrBranch_remainder proposal (lit "a/b")
              ltac:(compute_done) ltac:(compute_done)) as [H1 H2].
  split; [exact H1|]. apply H2. compute_done.
Defined.

(** The remainder [a<U+2028>b] is non-empty and has a unit outside the
    id class, and the branch is not recognised. *)
Lemma parseSpectrBranch_line_separator :
  lit "a" ++ [8232%N] ++ lit "b" ≠ []
  ∧ ¬ id_chars (lit "a" ++ [8232%N] ++ lit "b")
  ∧ parseSpectrBranch (lit "spectr/proposal/" ++ lit "a" ++ [8232%N] ++ lit "b")
    = {| changeId := None; isSpectrBranch := false; mode := None |}.
Proof. split; [compute_done|]. split; [compute_done|]. by vm_compute. Qed.

End MarkerClaims.

(** ** Whitespace: [commentsMatch] and [bodiesMatch] *)

Section WhitespaceFacts.
Import JS Regex Spec.

Abbreviation all_ws := (Forall (λ c : N, is_ws c = true)).

Lemma flush_nil rest : flush [] rest = rest.
Proof. done. Qed.

Lemma words_ws_cons cur c t :
  is_ws c = true → words_from cur (c :: t) = flush cur (words_from [] t).
Proof. simpl. by intros ->. Qed.

Lemma words_ws_next cur t :
  ws_next t → words_from cur t = flush cur (words_from [] t).
Proof.
  destruct t as [|c t]; simpl; [done|]. intros ->. by destruct cur.
Qed.

Lemma words_ws_app cur w t :
  w ≠ [] → all_ws w → words_from cur (w ++ t) = flush cur (words_from [] t).
Proof.
  intros Hne Hw. revert cur. induction Hw as [|c w Hc Hw IH]; [done|].
  intros cur. rewrite <-app_comm_cons, words_ws_cons by done.
  destruct w as [|c' w]; [done|]. by rewrite IH.
Qed.

Lemma words_all_ws cur w : all_ws w → words_from cur w = flush cur [].
Proof.
  intros Hw. destruct w as [|c w]; [done|].
  rewrite <-(app_nil_r (c :: w)). by rewrite words_ws_app.
Qed.

Lemma take_ws_next n (t : str) :
  (0 < n)%nat → all_ws (take n t) → ws_next t.
Proof.
  destruct n, t; simpl; [lia|lia|done|]. by intros _ [? _]%Forall_cons.
Qed.

(** Dropping units that were matched leaves the words alone. *)
Lemma replace_go_words r rep :
  ws_edit r rep →
  ∀ s skip pos,
    (skip ≤ length s)%nat → all_ws (take skip s) →
    words_from [] (replace_go r rep skip pos s) = words_from [] s
    ∧ ∀ cur, skip = 0%nat ∨ ws_next (drop skip s) →
        words_from cur (replace_go r rep skip pos s) = words_from cur s.
Proof.
  intros Hr. induction s as [|c t IH]; intros skip pos Hskip Hws.
  - simpl in Hskip. assert (skip = 0%nat) as -> by lia. simpl.
    destruct (match_at r pos []) as [[caps e]|] eqn:Hm; [|done].
    apply Hr in Hm as (n & _ & Hn & _). simpl in Hn. lia.
  - destruct skip as [|n].
    + cbn [replace_go].
      destruct (match_at r pos (c :: t)) as [[caps e]|] eqn:Hm.
      * apply Hr in Hm as (n & -> & Hn & Hall & Hrep).
        replace (pos + n - pos)%nat with n by lia.
        destruct n as [|n]; [lia|]. simpl in Hn, Hall, Hrep.
        apply Forall_cons in Hall as [Hc Hall].
        destruct (IH n (S pos)) as [IH1 IH2]; [lia|done|].
        destruct Hrep as [[Hne Hrep]|[-> Hnext]].
        -- split; [|intros cur _]; rewrite words_ws_app, IH1 by done;
             by rewrite words_ws_cons.
        -- assert (ws_next t) as Ht.
           { destruct n; [done|]. eapply take_ws_next; [|done]. lia. }
           split; [|intros cur _]; simpl app;
             (rewrite IH2 by (destruct n; auto));
             by rewrite words_ws_cons, <-words_ws_next.
      * destruct (IH 0%nat (S pos)) as [IH1 IH2]; [lia|done|].
        split; [|intros cur _]; simpl; destruct (is_ws c); by rewrite ?IH1, ?IH2 by auto.
    + cbn [replace_go]. simpl in Hskip, Hws.
      apply Forall_cons in Hws as [Hc Hws].
      destruct (IH n (S pos)) as [IH1 IH2]; [lia|done|].
      split.
      * by rewrite IH1, words_ws_cons.
      * intros cur [?|Hnext]; [done|]. simpl in Hnext.
        assert (ws_next t) as Ht.
        { destruct n; [done|]. eapply take_ws_next; [|done]. lia. }
        rewrite IH2 by (destruct n; auto).
        by rewrite words_ws_cons, <-words_ws_next.
Qed.

Lemma replace_all_words r rep s :
  ws_edit r rep → words (replace_all s r rep) = words s.
Proof.
  intros Hr. unfold words, replace_all.
  by destruct (replace_go_words r rep Hr s 0 0) as [-> _]; [lia|done|].
Qed.

(** *** The three patterns edit whitespace only *)

Lemma rmatch_plus_inv p caps pos s k r :
  rmatch (RPlus p) caps pos s k = Some r →
  ∃ n, (1 ≤ n ≤ length s)%nat ∧ Forall (λ c, p c = true) (take n s)
       ∧ k caps (pos + n)%nat (drop n s) = Some r.
Proof.
  cbn [rmatch]. destruct s as [|c t]; [done|].
  destruct (p c) eqn:Hc; [|done]. intros H.
  apply star_loop_inv in H as (n & Hn & Hall & Hk).
  exists (S n). simpl. repeat split; [lia|lia|by constructor|].
  by replace (pos + S n)%nat with (S pos + n)%nat by lia.
Qed.

Lemma ws_edit_WS_RUN : ws_edit PrFormat.WS_RUN [SP].
Proof.
  intros pos s caps e Hm. unfold match_at, PrFormat.WS_RUN in Hm.
  apply rmatch_plus_inv in Hm as (n & Hn & Hall & Hk).
  injection Hk as <- <-. exists n. repeat split; [lia..|done|].
  left. split; [done|]. by repeat constructor.
Qed.

Lemma ws_edit_CRLF : ws_edit IssueFormat.CRLF [LF].
Proof.
  intros pos s caps e Hm. unfold match_at, IssueFormat.CRLF in Hm.
  apply rmatch_lit_inv in Hm as (t & -> & Hk). injection Hk as <- <-.
  exists 2%nat. simpl. repeat split; [lia..| |].
  - by repeat constructor.
  - left. split; [done|]. by repeat constructor.
Qed.

Lemma ws_edit_TRAILING_WS : ws_edit IssueFormat.TRAILING_WS [].
Proof.
  intros pos s caps e Hm. unfold match_at, IssueFormat.TRAILING_WS in Hm.
  rewrite rmatch_seq in Hm.
  apply rmatch_plus_inv in Hm as (n & Hn & Hall & Hk).
  exists n. cbn [rmatch] in Hk.
  assert (e = (pos + n)%nat ∧ ws_next (drop n s)) as [-> Hnext].
  { destruct (drop n s) as [|c t]; [by injection Hk as <- <-|].
    simpl in Hk. destruct (is_line_terminator c) eqn:Hc; [|done].
    injection Hk as <- <-. split; [done|]. by apply line_terminator_ws. }
  repeat split; [lia..|done|]. by right.
Qed.

(** *** Trimming *)

Lemma words_trimStart s : words (trimStart s) = words s.
Proof.
  unfold words. induction s as [|c t IH]; [done|].
  simpl. destruct (is_ws c) eqn:Hc; [done|]. simpl. by rewrite Hc.
Qed.

Lemma trimEnd_nil_ws s : trimEnd s = [] → all_ws s.
Proof.
  induction s as [|c t IH]; [done|]. simpl.
  destruct (trimEnd t); [|done]. destruct (is_ws c) eqn:Hc; [|done].
  intros _. constructor; auto.
Qed.

Lemma words_trimEnd cur s : words_from cur (trimEnd s) = words_from cur s.
Proof.
  revert cur. induction s as [|c t IH]; intros cur; [done|].
  assert (words_from cur (trimEnd (c :: t)) = words_from cur (c :: trimEnd t))
    as ->.
  { simpl. destruct (trimEnd t); [|done].
    destruct (is_ws c) eqn:Hc; simpl; [by destruct cur|by rewrite Hc]. }
  simpl. destruct (is_ws c); by rewrite IH.
Qed.

Lemma words_trim s : words (trim s) = words s.
Proof. unfold trim, words. by rewrite words_trimEnd, words_trimStart. Qed.

Lemma trimEnd_nonws_app cur y :
  Forall (λ c, is_ws c = false) cur → trimEnd (cur ++ y) = cur ++ trimEnd y.
Proof.
  induction 1 as [|c cur Hc _ IH]; [done|].
  simpl. rewrite IH, Hc. by destruct (cur ++ trimEnd y).
Qed.

Lemma trimStart_stops s : stops is_ws s → trimStart s = s.
Proof. destruct s as [|c t]; [done|]. simpl. by intros ->. Qed.

(** *** Collapsing and the words *)

Lemma collapse_true_stops s : stops is_ws (collapse_from true s).
Proof.
  induction s as [|c t IH]; [done|]. simpl.
  by destruct (is_ws c) eqn:Hc.
Qed.

Lemma trimStart_collapse s :
  trimStart (collapse_from false s) = collapse_from true s.
Proof.
  destruct s as [|c t]; [done|]. simpl.
  destruct (is_ws c) eqn:Hc; simpl; [|by rewrite Hc].
  apply trimStart_stops, collapse_true_stops.
Qed.

Lemma words_nonempty cur s : Forall (λ w, w ≠ []) (words_from cur s).
Proof.
  revert cur. induction s as [|c t IH]; intros cur; simpl.
  - destruct cur; by repeat constructor.
  - destruct (is_ws c); [|done].
    destruct cur; simpl; [apply IH|constructor; [done|apply IH]].
Qed.

Lemma join_nonempty_nil (sep : str) (ws : list str) :
  Forall (λ w, w ≠ []) ws → join sep ws = [] → ws = [].
Proof.
  destruct 1 as [|w ws Hw _]; [done|]. simpl.
  destruct ws; [done|]. by destruct w.
Qed.

Lemma trimEnd_collapse cur s :
  Forall (λ c, is_ws c = false) cur →
  trimEnd (cur ++ collapse_from (bool_decide (cur = [])) s)
  = join [SP] (words_from cur s).
Proof.
  revert cur. induction s as [|c t IH]; intros cur Hcur.
  - simpl. rewrite trimEnd_nonws_app, app_nil_r by done. by destruct cur.
  - simpl. destruct (is_ws c) eqn:Hc.
    + destruct cur as [|a cur]; [by apply (IH [])|].
      rewrite bool_decide_eq_false_2 by done. cbn [flush].
      rewrite trimEnd_nonws_app by done. simpl.
      specialize (IH [] ltac:(done)). simpl in IH. rewrite IH.
      pose proof (words_nonempty [] t) as Hne.
      destruct (words_from [] t) as [|w ws] eqn:Hw; [by rewrite app_nil_r|].
      destruct (join [SP] (w :: ws)) eqn:Hj; [|done].
      by apply join_nonempty_nil in Hj.
    + specialize (IH (cur ++ [c])).
      rewrite bool_decide_eq_false_2 in IH by (by destruct cur).
      rewrite <-IH.
      * rewrite <-app_assoc. simpl. by destruct (bool_decide (cur = [])).
      * apply Forall_app. split; [done|]. by repeat constructor.
Qed.

(** Collapse-and-trim is the words joined by single spaces. *)
Lemma collapse_trim_words s : collapse_trim s = join [SP] (words s).
Proof.
  unfold collapse_trim, trim, words. rewrite trimStart_collapse.
  by rewrite <-(trimEnd_collapse [] s).
Qed.

End WhitespaceFacts.

Section WhitespaceClaims.
Import JS Regex Spec.

Abbreviation all_ws := (Forall (λ c : N, is_ws c = true)).

(** The greedy run, accepted as it is, is the maximal one. *)
Lemma star_loop_accept_max p caps pos s :
  ∃ n, (n ≤ length s)%nat ∧ Forall (λ c, p c = true) (take n s)
       ∧ stops p (drop n s)
       ∧ star_loop p (λ pos' _, Some (caps, pos')) pos s
         = Some (caps, (pos + n)%nat).
Proof.
  revert pos. induction s as [|c t IH]; intros pos.
  - exists 0%nat. simpl. by rewrite Nat.add_0_r.
  - simpl. destruct (p c) eqn:Hc.
    + destruct (IH (S pos)) as (n & Hn & Hall & Hstop & ->).
      exists (S n). simpl. repeat split; [lia|by constructor|done|].
      do 2 f_equal. lia.
    + exists 0%nat. simpl. rewrite Nat.add_0_r. repeat split; [lia|done..].
Qed.

Lemma replace_go_collapse s :
  ∀ skip pos,
    replace_go PrFormat.WS_RUN [SP] 0 pos s = collapse_from false s
    ∧ ((skip ≤ length s)%nat → Forall (λ c, is_ws c = true) (take skip s) →
       stops is_ws (drop skip s) →
       replace_go PrFormat.WS_RUN [SP] skip pos s = collapse_from true s).
Proof.
  induction s as [|c t IH]; intros skip pos.
  - split; [done|]. intros Hskip _ _. simpl in Hskip.
    by assert (skip = 0%nat) as -> by lia.
  - assert (replace_go PrFormat.WS_RUN [SP] 0 pos (c :: t)
            = collapse_from false (c :: t)) as H1.
    { cbn [replace_go]. unfold match_at, PrFormat.WS_RUN. cbn [rmatch].
      simpl. destruct (is_ws c) eqn:Hc.
      - destruct (star_loop_accept_max is_ws [] (S pos) t)
          as (n & Hn & Hall & Hstop & Hl).
        unfold accept. rewrite Hl.
        replace (S pos + n - pos)%nat with (S n) by lia.
        simpl. f_equal. by apply (IH n (S pos)).
      - f_equal. by apply (IH 0%nat (S pos)). }
    split; [done|]. intros Hskip Hall Hstop.
    destruct skip as [|n].
    + rewrite H1. simpl in *. by rewrite Hstop.
    + simpl in *. apply Forall_cons in Hall as [-> Hall].
      apply (IH n (S pos)); [lia|done..].
Qed.

Lemma normalize_collapse_trim s : PrFormat.normalize s = collapse_trim s.
Proof.
  unfold PrFormat.normalize, collapse_trim, replace_all.
  by destruct (replace_go_collapse s 0 0) as [-> _].
Qed.

Lemma words_body_normalize s : words (IssueFormat.normalize s) = words s.
Proof.
  unfold IssueFormat.normalize.
  rewrite words_trim, replace_all_words by apply ws_edit_TRAILING_WS.
  by rewrite replace_all_words by apply ws_edit_CRLF.
Qed.

(** *** [/\r\n/g] *)

Lemma match_at_CRLF pos s :
  match_at IssueFormat.CRLF pos s
  = if startsWith s [CR; LF] then Some ([], (pos + 2)%nat) else None.
Proof. unfold match_at, IssueFormat.CRLF. cbn [rmatch]. done. Qed.

Lemma replace_go_cons r rep pos c t :
  replace_go r rep 0 pos (c :: t)
  = match match_at r pos (c :: t) with
    | Some (_, e) =>
        match (e - pos)%nat with
        | S n => rep ++ replace_go r rep n (S pos) t
        | O => rep ++ c :: replace_go r rep 0 (S pos) t
        end
    | None => c :: replace_go r rep 0 (S pos) t
    end.
Proof. done. Qed.

Lemma replace_go_crlf (n : nat) :
  ∀ s pos, (length s ≤ n)%nat →
    replace_go IssueFormat.CRLF [LF] 0 pos s = crlf_to_lf s.
Proof.
  induction n as [|n IH]; intros s pos Hn.
  - destruct s; [|simpl in Hn; lia]. done.
  - destruct s as [|c [|d t]]; [done| |].
    + rewrite replace_go_cons, match_at_CRLF. cbn.
      by rewrite andb_false_r.
    + rewrite replace_go_cons, match_at_CRLF.
      change (crlf_to_lf (c :: d :: t))
        with (if ((CR =? c) && (LF =? d))%N then LF :: crlf_to_lf t
              else c :: crlf_to_lf (d :: t)).
      cbn [startsWith]. rewrite andb_true_r.
      destruct ((CR =? c) && (LF =? d))%N.
      * replace (pos + 2 - pos)%nat with 2%nat by lia.
        change (replace_go IssueFormat.CRLF [LF] 1 (S pos) (d :: t))
          with (replace_go IssueFormat.CRLF [LF] 0 (S (S pos)) t).
        cbn [app]. f_equal. apply IH. simpl in Hn. lia.
      * f_equal. apply IH. simpl in *. lia.
Qed.

Lemma replace_all_crlf s :
  replace_all s IssueFormat.CRLF [LF] = crlf_to_lf s.
Proof. by apply (replace_go_crlf (length s)). Qed.

(** *** [/\s+$/gm] *)

Abbreviation line_end := (λ (caps' : list str) (pos' : nat) (s' : str),
  rmatch (REnd true) caps' pos' s' accept).

Lemma at_line_end_run (n : nat) (s : str) :
  all_ws (take n s) → (n ≤ length s)%nat → line_end_here (drop n s) →
  at_line_end s = true.
Proof.
  revert s. induction n as [|n IH]; intros s Hws Hn Hend.
  - destruct s as [|c t]; [done|]. simpl in *. by rewrite Hend.
  - destruct s as [|c t]; [done|]. simpl in *.
    apply Forall_cons in Hws as [-> Hws]. rewrite IH by (done || lia).
    apply orb_true_r.
Qed.

Lemma star_loop_line_end caps pos s :
  at_line_end s = true →
  is_Some (star_loop is_ws (line_end caps) pos s).
Proof.
  revert pos. induction s as [|c t IH]; intros pos Hs; [by eexists|].
  cbn [at_line_end] in Hs. cbn [star_loop].
  destruct (is_ws c) eqn:Hc.
  - destruct (is_line_terminator c) eqn:Hl.
    + destruct (star_loop _ _ _ t); [by eexists|]. cbn. rewrite Hl.
      by eexists.
    + cbn in Hs. destruct (IH (S pos) Hs) as [r ->]. by eexists.
  - rewrite andb_false_l, orb_false_r in Hs. cbn. rewrite Hs. by eexists.
Qed.

Lemma star_loop_line_end_inv caps pos s caps' e :
  star_loop is_ws (line_end caps) pos s = Some (caps', e) →
  ∃ n, e = (pos + n)%nat ∧ (n ≤ length s)%nat ∧ all_ws (take n s)
       ∧ line_end_here (drop n s).
Proof.
  intros (n & Hn & Hws & Hk)%star_loop_inv. exists n.
  cbn [rmatch] in Hk. destruct (drop n s) as [|c t] eqn:Hd.
  - by injection Hk as <- <-.
  - destruct (is_line_terminator c) eqn:Hl; [|done].
    cbn in Hk. by injection Hk as <- <-.
Qed.

Lemma match_at_TRAILING_WS pos c t :
  match_at IssueFormat.TRAILING_WS pos (c :: t)
  = if is_ws c then star_loop is_ws (line_end []) (S pos) t else None.
Proof. unfold match_at, IssueFormat.TRAILING_WS. by cbn [rmatch]. Qed.

Lemma replace_go_strip s :
  ∀ skip pos,
    (skip ≤ length s)%nat → all_ws (take skip s) →
    skip = 0%nat ∨ line_end_here (drop skip s) →
    replace_go IssueFormat.TRAILING_WS [] skip pos s = strip_line_ends s.
Proof.
  induction s as [|c t IH]; intros skip pos Hskip Hws Hend.
  - simpl in Hskip. by assert (skip = 0%nat) as -> by lia.
  - destruct skip as [|n].
    + cbn [replace_go strip_line_ends]. rewrite match_at_TRAILING_WS.
      destruct (is_ws c) eqn:Hc; cbn [andb];
        [|f_equal; apply IH; [lia|done|by left]].
      destruct (at_line_end t) eqn:Hle.
      * destruct (star_loop_line_end [] (S pos) t Hle) as [[caps' e] Hm].
        rewrite Hm.
        apply star_loop_line_end_inv in Hm as (n & -> & Hn & Hall & Hhere).
        replace (S pos + n - pos)%nat with (S n) by lia. cbn [app].
        apply IH; [done|done|by right].
      * destruct (star_loop _ _ _ t) as [[caps' e]|] eqn:Hm.
        -- apply star_loop_line_end_inv in Hm as (n & -> & Hn & Hall & Hhere).
           by rewrite (at_line_end_run n t) in Hle.
        -- f_equal. apply IH; [lia|done|by left].
    + cbn [replace_go strip_line_ends]. simpl in Hskip, Hws, Hend.
      apply Forall_cons in Hws as [Hc Hws]. rewrite Hc.
      destruct Hend as [?|Hend]; [done|].
      rewrite (at_line_end_run n t) by (done || lia). cbn [andb].
      apply IH; [lia|done|by right].
Qed.

Lemma replace_all_strip s :
  replace_all s IssueFormat.TRAILING_WS [] = strip_line_ends s.
Proof. apply replace_go_strip; [simpl; lia|done|by left]. Qed.

Lemma body_normalize_line_trim s : IssueFormat.normalize s = line_trim s.
Proof.
  unfold IssueFormat.normalize, line_trim.
  by rewrite replace_all_crlf, replace_all_strip.
Qed.

(** *** What the line form does not see *)

Lemma crlf_to_lf_cons c d t :
  crlf_to_lf (c :: d :: t)
  = if ((CR =? c) && (LF =? d))%N then LF :: crlf_to_lf t
    else c :: crlf_to_lf (d :: t).
Proof. done. Qed.

Lemma crlf_to_lf_LF t : crlf_to_lf (LF :: t) = LF :: crlf_to_lf t.
Proof. by destruct t. Qed.

Lemma strip_line_ends_cons c t :
  strip_line_ends (c :: t)
  = if is_ws c && at_line_end t then strip_line_ends t
    else c :: strip_line_ends t.
Proof. done. Qed.

Lemma at_line_end_cons c t :
  at_line_end (c :: t) = is_line_terminator c || (is_ws c && at_line_end t).
Proof. done. Qed.

Lemma same_lines_sym z z' : same_lines z z' → same_lines z' z.
Proof. unfold same_lines. by intros [-> ->]. Qed.

Lemma same_lines_trans z1 z2 z3 :
  same_lines z1 z2 → same_lines z2 z3 → same_lines z1 z3.
Proof. unfold same_lines. by intros [-> ->] [-> ->]. Qed.

(** Any unit in front keeps two such texts alike, also behind a CR. *)
Lemma same_lines_cons c z z' :
  same_lines z z' ∧ same_lines (CR :: z) (CR :: z') →
  same_lines (c :: z) (c :: z') ∧ same_lines (CR :: c :: z) (CR :: c :: z').
Proof.
  unfold same_lines at 1. intros [[Hs Ha] Hcr].
  assert (same_lines (c :: z) (c :: z')) as Hc.
  { destruct (decide (c = CR)) as [->|Hne]; [done|].
    assert (∀ t, crlf_to_lf (c :: t) = c :: crlf_to_lf t) as Hu.
    { intros [|d t]; [done|]. rewrite crlf_to_lf_cons.
      destruct (N.eqb_spec CR c) as [?|_]; [by subst|done]. }
    unfold same_lines.
    rewrite (Hu z), (Hu z'), !strip_line_ends_cons, !at_line_end_cons.
    by rewrite Hs, Ha. }
  split; [done|]. destruct Hc as [Hs' Ha']. unfold same_lines.
  rewrite !crlf_to_lf_cons. cbn [N.eqb Pos.eqb CR andb].
  change (13 =? 13)%N with true. cbn [andb].
  destruct (LF =? c)%N.
  - by rewrite !strip_line_ends_cons, !at_line_end_cons, Hs, Ha.
  - by rewrite !strip_line_ends_cons, !at_line_end_cons, Hs', Ha'.
Qed.

Lemma same_lines_app x z z' :
  same_lines z z' ∧ same_lines (CR :: z) (CR :: z') →
  same_lines (x ++ z) (x ++ z')
  ∧ same_lines (CR :: x ++ z) (CR :: x ++ z').
Proof.
  intros H. induction x as [|c x IH]; [done|]. by apply same_lines_cons.
Qed.

(** Whitespace in front of a line feed. *)
Lemma line_feed_run (n : nat) :
  ∀ (w y : str), (length w ≤ n)%nat → all_ws w →
    strip_line_ends (crlf_to_lf (w ++ LF :: y))
    = strip_line_ends (LF :: crlf_to_lf y)
    ∧ at_line_end (crlf_to_lf (w ++ LF :: y)) = true.
Proof.
  induction n as [|n IH]; intros w y Hn Hw.
  - destruct w; [|simpl in Hn; lia]. cbn [app]. by rewrite crlf_to_lf_LF.
  - destruct w as [|c w]; [cbn [app]; by rewrite crlf_to_lf_LF|].
    apply Forall_cons in Hw as [Hc Hw]. simpl in Hn.
    assert (∀ t, at_line_end t = true →
              strip_line_ends (c :: t) = strip_line_ends t
              ∧ at_line_end (c :: t) = true) as Hstep.
    { intros t Ht. rewrite strip_line_ends_cons, at_line_end_cons, Hc, Ht.
      split; [done|]. apply orb_true_r. }
    destruct w as [|d w].
    + cbn [app]. rewrite crlf_to_lf_cons.
      destruct ((CR =? c) && (LF =? LF))%N; [done|].
      rewrite crlf_to_lf_LF.
      destruct (Hstep (LF :: crlf_to_lf y)) as [-> ->]; done.
    + apply Forall_cons in Hw as Hdw. destruct Hdw as [Hd Hw'].
      change ((c :: d :: w) ++ LF :: y) with (c :: d :: (w ++ LF :: y)).
      rewrite crlf_to_lf_cons. destruct ((CR =? c) && (LF =? d))%N eqn:Hcd.
      * destruct (IH w y) as [Hs Ha]; [simpl in Hn; lia|done|].
        assert (LF = d) as <-.
        { apply andb_true_iff in Hcd as [_ Hcd]. by apply N.eqb_eq. }
        rewrite strip_line_ends_cons, Ha. cbn [is_ws]. split; [|done].
        by rewrite Hs.
      * destruct (IH (d :: w) y) as [Hs Ha]; [simpl in *; lia|done|].
        change (d :: w ++ LF :: y) with ((d :: w) ++ LF :: y).
        destruct (Hstep _ Ha) as [-> ->]. by rewrite Hs.
Qed.

Lemma same_lines_line_feed w y :
  all_ws w →
  same_lines (w ++ LF :: y) (LF :: y)
  ∧ same_lines (CR :: w ++ LF :: y) (CR :: LF :: y).
Proof.
  intros Hw. unfold same_lines.
  destruct (line_feed_run (length w) w y) as [-> ->]; [done..|].
  destruct (line_feed_run (S (length w)) (CR :: w) y) as [Hs Ha];
    [done|by constructor|].
  cbn [app] in Hs, Ha. rewrite Hs, Ha.
  by rewrite crlf_to_lf_cons, !crlf_to_lf_LF.
Qed.

Lemma crlf_to_lf_ws (n : nat) :
  ∀ w : str, (length w ≤ n)%nat → all_ws w → all_ws (crlf_to_lf w).
Proof.
  induction n as [|n IH]; intros w Hn Hw.
  - destruct w; [done|simpl in Hn; lia].
  - destruct w as [|c [|d w]]; [done..|].
    rewrite crlf_to_lf_cons. apply Forall_cons in Hw as Hcw.
    destruct Hcw as [Hc Hw']. apply Forall_cons in Hw' as Hdw.
    destruct Hdw as [Hd Hw'']. simpl in Hn.
    destruct ((CR =? c) && (LF =? d))%N.
    + apply Forall_cons_2; [done|]. apply IH; [lia|done].
    + apply Forall_cons_2; [done|]. apply IH; [simpl; lia|done].
Qed.

Lemma strip_line_ends_ws w :
  all_ws w → strip_line_ends w = [] ∧ at_line_end w = true.
Proof.
  induction 1 as [|c w Hc _ [IHs IHa]]; [done|].
  rewrite strip_line_ends_cons, at_line_end_cons, Hc, IHa.
  split; [done|]. apply orb_true_r.
Qed.

(** Whitespace at the end of the text. *)
Lemma same_lines_end w :
  all_ws w → same_lines w [] ∧ same_lines (CR :: w) [CR].
Proof.
  intros Hw. unfold same_lines.
  destruct (strip_line_ends_ws (crlf_to_lf w)) as [-> ->];
    [by apply (crlf_to_lf_ws (length w))|].
  destruct (strip_line_ends_ws (crlf_to_lf (CR :: w))) as [-> ->]; [|done].
  apply (crlf_to_lf_ws (S (length w))); [done|by constructor].
Qed.

Lemma bodiesMatch_line_trim a b :
  IssueFormat.bodiesMatch a b = true ↔ line_trim a = line_trim b.
Proof.
  unfold IssueFormat.bodiesMatch, str_eqb.
  by rewrite bool_decide_eq_true, !body_normalize_line_trim.
Qed.

Lemma same_lines_bodiesMatch z z' :
  same_lines z z' → IssueFormat.bodiesMatch z z' = true.
Proof.
  intros [Hs _]. apply bodiesMatch_line_trim. unfold line_trim.
  by rewrite Hs.
Qed.

(** Whitespace at the start of the text. *)
Lemma line_trim_start (n : nat) :
  ∀ (w x : str), (length w ≤ n)%nat → all_ws w →
    trimStart (strip_line_ends (crlf_to_lf (w ++ x)))
    = trimStart (strip_line_ends (crlf_to_lf x)).
Proof.
  induction n as [|n IH]; intros w x Hn Hw.
  - by destruct w; [|simpl in Hn; lia].
  - destruct w as [|c w]; [done|].
    apply Forall_cons in Hw as [Hc Hw]. simpl in Hn.
    assert (∀ d t, is_ws d = true →
              trimStart (strip_line_ends (d :: t))
              = trimStart (strip_line_ends t)) as Hstep.
    { intros d t Hd. rewrite strip_line_ends_cons.
      destruct (is_ws d && at_line_end t); [done|].
      cbn [trimStart]. by rewrite Hd. }
    destruct (w ++ x) as [|d t] eqn:Hwx.
    + apply app_eq_nil in Hwx as [-> ->].
      change (trimStart (strip_line_ends [c]) = []).
      by rewrite Hstep.
    + cbn [app]. rewrite Hwx, crlf_to_lf_cons.
      destruct ((CR =? c) && (LF =? d))%N eqn:Hcd.
      * apply andb_true_iff in Hcd as [_ <-%N.eqb_eq].
        destruct w as [|d' w'].
        -- cbn [app] in Hwx. subst x. by rewrite crlf_to_lf_LF.
        -- injection Hwx as -> <-. apply Forall_cons in Hw as [_ Hw].
           rewrite Hstep by done. apply IH; [simpl in Hn; lia|done].
      * rewrite Hstep, <-Hwx by done. apply IH; [lia|done].
Qed.

(** C1, as the code has it: [commentsMatch] holds exactly when the two
    texts are identical after collapsing every run of whitespace to one
    space and trimming.  [bodiesMatch] holds exactly when the two texts
    have the same line form: CR LF turned into LF, every whitespace
    unit deleted that only whitespace separates from a line terminator
    or from the end of the text, and the result trimmed.  So
    [bodiesMatch] implies that the collapsed texts are identical, and it
    does not see whitespace in front of a line feed (blank lines, the
    number of consecutive newlines, CR LF against LF, spaces at the end
    of a line) nor whitespace at either end of the text. *)
Theorem whitespace_equivalence :
  (∀ a b : str,
     PrFormat.commentsMatch a b = true ↔ collapse_trim a = collapse_trim b)
  ∧ (∀ a b : str,
       IssueFormat.bodiesMatch a b = true ↔ line_trim a = line_trim b)
  ∧ (∀ a b : str,
       IssueFormat.bodiesMatch a b = true → collapse_trim a = collapse_trim b)
  ∧ (∀ x w y : str,
       all_ws w →
       IssueFormat.bodiesMatch (x ++ w ++ LF :: y) (x ++ LF :: y) = true)
  ∧ (∀ (x y : str) (n m : nat),
       IssueFormat.bodiesMatch (x ++ replicate (S n) LF ++ y)
                               (x ++ replicate (S m) LF ++ y) = true)
  ∧ (∀ x y : str,
       IssueFormat.bodiesMatch (x ++ CR :: LF :: y) (x ++ LF :: y) = true)
  ∧ (∀ x w : str,
       all_ws w →
       IssueFormat.bodiesMatch (x ++ w) x = true
       ∧ IssueFormat.bodiesMatch (w ++ x) x = true).
Proof.
  assert (∀ x w y, all_ws w → same_lines (x ++ w ++ LF :: y) (x ++ LF :: y))
    as Hfeed.
  { intros x w y Hw. by apply same_lines_app, same_lines_line_feed. }
  split; [|split; [|split; [|split; [|split; [|split]]]]].
  - intros a b. unfold PrFormat.commentsMatch, str_eqb.
    by rewrite bool_decide_eq_true, !normalize_collapse_trim.
  - apply bodiesMatch_line_trim.
  - intros a b. unfold IssueFormat.bodiesMatch, str_eqb.
    rewrite bool_decide_eq_true. intros Heq.
    rewrite !collapse_trim_words.
    by rewrite <-(words_body_normalize a), <-(words_body_normalize b), Heq.
  - intros x w y Hw. by apply same_lines_bodiesMatch, Hfeed.
  - intros x y n m. apply same_lines_bodiesMatch.
    assert (∀ k, replicate (S k) LF ++ y = replicate k LF ++ LF :: y) as Hk.
    { intros k. change (LF :: y) with ([LF] ++ y).
      rewrite app_assoc. f_equal. induction k as [|k IHk]; [done|].
      cbn [replicate app]. f_equal. exact IHk. }
    rewrite !Hk.
    apply same_lines_trans with (x ++ LF :: y);
      [|apply same_lines_sym]; apply Hfeed; by apply Forall_replicate.
  - intros x y. apply same_lines_bodiesMatch.
    apply (Hfeed x [CR] y). by repeat constructor.
  - intros x w Hw. split.
    + apply same_lines_bodiesMatch.
      rewrite <-(app_nil_r x) at 2. by apply same_lines_app, same_lines_end.
    + apply bodiesMatch_line_trim. unfold line_trim, trim.
      by rewrite (line_trim_start (length w)).
Qed.

Lemma whitespace_equivalence_witness :
  PrFormat.commentsMatch (lit "This is  a   comment") (lit "This is a comment")
  = true
  ∧ IssueFormat.bodiesMatch (lit "a" ++ [LF; LF; LF] ++ lit "b  " ++ [CR; LF])
                            (lit "a " ++ [LF] ++ lit "b") = true
  ∧ collapse_trim (lit "a" ++ [LF; LF; LF] ++ lit "b  " ++ [CR; LF])
    = collapse_trim (lit "a " ++ [LF] ++ lit "b")
  ∧ IssueFormat.bodiesMatch (lit "## Summary" ++ [SP; 9%N; CR; LF] ++ lit "text")
                            (lit "## Summary" ++ [LF] ++ lit "text") = true
  ∧ IssueFormat.bodiesMatch (lit "text" ++ [SP; LF]) (lit "text") = true.
Proof.
  destruct whitespace_equivalence as (Hc & Hl & Hb & Hfeed & _ & _ & Hend).
  split; [apply Hc; by vm_compute|].
  split; [apply Hl; by vm_compute|].
  split; [apply Hb; by vm_compute|].
  split.
  - apply (Hfeed (lit "## Summary") [SP; 9%N; CR] (lit "text")).
    by repeat constructor.
  - apply (Hend (lit "text") [SP; LF]). by repeat constructor.
Defined.

(** Two bodies that differ in the length of a whitespace run inside a
    line have the same collapsed form, and [bodiesMatch] tells them
    apart. *)
Lemma bodiesMatch_inner_run :
  collapse_trim (lit "a  b") = collapse_trim (lit "a b")
  ∧ IssueFormat.bodiesMatch (lit "a  b") (lit "a b") = false.
Proof. by vm_compute. Qed.

End WhitespaceClaims.

(** ** Formatters: length ceiling and marker line *)

Section FormatFacts.
Import JS Regex Spec.

Lemma substring_0 (s : str) (b : Z) :
  0 ≤ b → substring s 0 b = take (Z.to_nat b) s.
Proof.
  intros Hb. unfold substring. pose proof (len_nonneg s) as Hs.
  rewrite (Z.min_l 0 (len s)), Z.max_id by done.
  destruct (Z.le_gt_cases b (len s)) as [Hle|Hgt].
  - rewrite (Z.min_l b), (Z.max_r 0 b), Z.min_l, Z.max_r by lia.
    by rewrite Z.sub_0_r, drop_0.
  - rewrite (Z.min_r b), (Z.max_r 0 (len s)), Z.min_l, Z.max_r by lia.
    rewrite Z.sub_0_r, drop_0. unfold len in *.
    rewrite !take_ge; [done|lia..].
Qed.

Lemma slice_0 (s : str) (b : Z) :
  0 ≤ b → slice s 0 b = take (Z.to_nat b) s.
Proof.
  intros Hb. unfold slice, slice_index. pose proof (len_nonneg s) as Hs.
  rewrite Z.ltb_irrefl. destruct (b <? 0) eqn:Hlt; [lia|].
  rewrite (Z.min_l 0) by lia. rewrite Z.sub_0_r, drop_0.
  destruct (Z.le_gt_cases b (len s)) as [Hle|Hgt].
  - by rewrite Z.min_l.
  - rewrite Z.min_r by lia. unfold len in *. rewrite !take_ge; [done|lia..].
Qed.

Lemma len_take (s : str) (n : nat) : len (take n s) ≤ Z.of_nat n.
Proof. unfold len. rewrite length_take. lia. Qed.

Lemma len_take_le (s : str) (n : nat) : len (take n s) ≤ len s.
Proof. unfold len. rewrite length_take. lia. Qed.

(** [lastIndexOf] answers [-1] or an index of the text. *)
Lemma lastIndexOf_from_range needle hay i :
  lastIndexOf_from needle hay i = -1
  ∨ i ≤ lastIndexOf_from needle hay i ≤ i + len hay.
Proof.
  revert i. induction hay as [|c t IH]; intros i.
  - simpl. destruct (startsWith [] needle); unfold len; simpl; lia.
  - cbn [lastIndexOf_from]. specialize (IH (i + 1)).
    unfold len in *. cbn [length].
    destruct (0 <=? lastIndexOf_from needle t (i + 1)) eqn:Hl; [lia|].
    destruct (startsWith (c :: t) needle); lia.
Qed.

(** It is not below an occurrence. *)
Lemma lastIndexOf_from_ge needle hay i j :
  0 ≤ i → startsWith (drop j hay) needle = true → (j ≤ length hay)%nat →
  i + Z.of_nat j ≤ lastIndexOf_from needle hay i.
Proof.
  revert i j. induction hay as [|c t IH]; intros i j Hi Hs Hj.
  - simpl in Hj. assert (j = 0%nat) as -> by lia. simpl in *.
    rewrite Hs. lia.
  - cbn [lastIndexOf_from].
    pose proof (lastIndexOf_from_range needle t (i + 1)) as Hr.
    destruct j as [|j].
    + simpl in Hs. rewrite Hs.
      destruct (0 <=? lastIndexOf_from needle t (i + 1)) eqn:Hl; lia.
    + simpl in Hs, Hj. specialize (IH (i + 1) j ltac:(lia) Hs ltac:(lia)).
      destruct (0 <=? lastIndexOf_from needle t (i + 1)) eqn:Hl; lia.
Qed.

(** A cut at or after the end of the marker, followed by a notice that
    opens with a line feed, keeps the marker line. *)
Lemma take_marker_line (marker x notice : str) (k : nat) :
  (length marker ≤ k)%nat →
  startsWith (take k (marker ++ LF :: x) ++ LF :: notice) (marker ++ [LF])
  = true.
Proof.
  intros Hk. apply startsWith_spec.
  rewrite take_app_ge by done.
  destruct (k - length marker)%nat as [|n] eqn:Hn; simpl.
  - exists notice. by rewrite app_nil_r, <-app_assoc.
  - exists (take n x ++ LF :: notice). by rewrite <-!app_assoc.
Qed.

Lemma startsWith_marker_line (marker x : str) :
  startsWith (marker ++ LF :: x) (marker ++ [LF]) = true.
Proof. apply startsWith_spec. exists x. by rewrite <-app_assoc. Qed.

Lemma join_cons2 (sep p q : str) (ps : list str) :
  join sep (p :: q :: ps) = p ++ sep ++ join sep (q :: ps).
Proof. done. Qed.

Lemma truncateBody_len body :
  len (IssueFormat.truncateBody body) ≤ IssueTypes.MAX_ISSUE_BODY_LENGTH.
Proof.
  unfold IssueFormat.truncateBody.
  destruct (len body <=? _) eqn:Hle; [lia|].
  rewrite len_app.
  assert (0 ≤ IssueTypes.MAX_ISSUE_BODY_LENGTH
              - len IssueFormat.TRUNCATION_NOTICE) as Hm by done.
  revert Hm.
  generalize (IssueTypes.MAX_ISSUE_BODY_LENGTH).
  generalize (len IssueFormat.TRUNCATION_NOTICE). intros n mx Hm.
  rewrite (substring_0 body) by lia.
  pose proof (len_take body (Z.to_nat (mx - n))) as Ht.
  destruct (_ <? _) eqn:Hcut; [|lia].
  rewrite substring_0 by lia.
  pose proof (len_take_le (take (Z.to_nat (mx - n)) body)
                (Z.to_nat (lastIndexOf (take (Z.to_nat (mx - n)) body) [LF]))).
  lia.
Qed.

Lemma truncateBody_marker_line (marker x : str) :
  len marker < IssueTypes.MAX_ISSUE_BODY_LENGTH
               - len IssueFormat.TRUNCATION_NOTICE →
  startsWith (IssueFormat.truncateBody (marker ++ LF :: x)) (marker ++ [LF])
  = true.
Proof.
  intros Hm. unfold IssueFormat.truncateBody.
  destruct (len _ <=? _) eqn:Hle; [apply startsWith_marker_line|].
  apply Z.leb_gt in Hle.
  set (m := IssueTypes.MAX_ISSUE_BODY_LENGTH
            - len IssueFormat.TRUNCATION_NOTICE) in *.
  assert (m < IssueTypes.MAX_ISSUE_BODY_LENGTH) as Hlt by done.
  clearbody m.
  change IssueFormat.TRUNCATION_NOTICE
    with (LF :: tail IssueFormat.TRUNCATION_NOTICE).
  revert Hle Hlt.
  generalize (tail IssueFormat.TRUNCATION_NOTICE).
  generalize (IssueTypes.MAX_ISSUE_BODY_LENGTH).
  intros mx notice Hle Hlt.
  pose proof (len_nonneg marker) as Hmk.
  rewrite (substring_0 (marker ++ LF :: x)) by lia.
  set (body := marker ++ LF :: x) in *.
  set (cut := take (Z.to_nat m) body).
  unfold len in Hm.
  destruct (_ <? _) eqn:Hcut.
  - assert (Z.of_nat (length marker) ≤ lastIndexOf cut [LF]) as Hln.
    { etrans; [|apply (lastIndexOf_from_ge [LF] cut 0 (length marker))];
        [lia|lia| |].
      - subst cut body. rewrite skipn_firstn_comm, drop_app_length.
        destruct (Z.to_nat m - length marker)%nat eqn:Hn; [lia|].
        cbn [take startsWith]. by rewrite N.eqb_refl.
      - subst cut. rewrite length_take. subst body.
        unfold len in Hle. rewrite length_app in *. cbn [length] in *. lia. }
    rewrite substring_0 by lia. subst cut.
    rewrite take_take. apply take_marker_line. lia.
  - apply take_marker_line. lia.
Qed.

End FormatFacts.

Section FormatClaims.
Import JS Regex Spec IssueTypes PrTypes.
Context `{Host}.

Lemma formatIssueBody_shape (proposal : ChangeProposal) :
  ∃ x, IssueFormat.formatIssueBody proposal
       = IssueFormat.truncateBody
           (generateChangeIdMarker (id proposal) ++ LF :: x).
Proof.
  unfold IssueFormat.formatIssueBody.
  destruct (affectedSpecs proposal), (tasksContent proposal) as [[|??]|];
    cbn [app]; rewrite join_cons2; eexists; reflexivity.
Qed.

Lemma formatPRComment_len (impact : SpecImpact) :
  len (PrFormat.formatPRComment impact) ≤ MAX_COMMENT_BODY_LENGTH.
Proof.
  unfold PrFormat.formatPRComment.
  destruct (_ <? _) eqn:Hlt; [|lia].
  assert (0 ≤ MAX_COMMENT_BODY_LENGTH - len PrFormat.truncationNotice)
    as Hm by done.
  revert Hm. generalize MAX_COMMENT_BODY_LENGTH.
  generalize PrFormat.truncationNotice. intros notice mx Hm.
  rewrite slice_0, len_app by done.
  match goal with |- len (take ?n ?b) + _ ≤ _ =>
    pose proof (len_take b n) end.
  lia.
Qed.

Lemma formatPRComment_marker_line (impact : SpecImpact) :
  len (generatePRImpactMarker (changeId impact))
  < MAX_COMMENT_BODY_LENGTH - len PrFormat.truncationNotice →
  startsWith (PrFormat.formatPRComment impact)
    (generatePRImpactMarker (changeId impact) ++ [LF]) = true.
Proof.
  intros Hm. unfold PrFormat.formatPRComment. rewrite join_cons2.
  destruct (_ <? _) eqn:Hlt; [|apply startsWith_marker_line].
  change PrFormat.truncationNotice
    with (LF :: tail PrFormat.truncationNotice) at 2.
  revert Hm. generalize (tail PrFormat.truncationNotice).
  generalize (MAX_COMMENT_BODY_LENGTH - len PrFormat.truncationNotice).
  intros m notice Hm.
  pose proof (len_nonneg (generatePRImpactMarker (changeId impact))).
  rewrite slice_0 by lia. apply take_marker_line. unfold len in *. lia.
Qed.

Lemma marker_len_short (prefix i suffix : str) (room : Z) :
  len i ≤ 255 → len prefix + len suffix + 255 < room →
  len (prefix ++ i ++ suffix) < room.
Proof. rewrite !len_app. lia. Qed.

(** C6: the rendered issue body and the rendered PR comment never
    exceed 65,536 code units, truncated or not; and each begins with
    the marker line of its change id for every id the action can
    meet: for every id of at most 255 units (the longest name of a
    directory or of a branch), and more generally whenever the marker
    is shorter than the truncation point, 65,536 less the length of
    the truncation notice. *)
Theorem rendered_body_bounds :
  (∀ proposal : ChangeProposal,
     len (IssueFormat.formatIssueBody proposal) ≤ 65536
     ∧ (len (id proposal) ≤ 255 →
        startsWith (IssueFormat.formatIssueBody proposal)
          (generateChangeIdMarker (id proposal) ++ [LF]) = true)
     ∧ (len (generateChangeIdMarker (id proposal))
        < 65536 - len IssueFormat.TRUNCATION_NOTICE →
        startsWith (IssueFormat.formatIssueBody proposal)
          (generateChangeIdMarker (id proposal) ++ [LF]) = true))
  ∧ (∀ impact : SpecImpact,
       len (PrFormat.formatPRComment impact) ≤ 65536
       ∧ (len (changeId impact) ≤ 255 →
          startsWith (PrFormat.formatPRComment impact)
            (generatePRImpactMarker (changeId impact) ++ [LF]) = true)
       ∧ (len (generatePRImpactMarker (changeId impact))
          < 65536 - len PrFormat.truncationNotice →
          startsWith (PrFormat.formatPRComment impact)
            (generatePRImpactMarker (changeId impact) ++ [LF]) = true)).
Proof.
  split.
  - intros proposal. destruct (formatIssueBody_shape proposal) as [x ->].
    split; [apply truncateBody_len|].
    split; [|apply truncateBody_marker_line].
    intros Hid. apply truncateBody_marker_line.
    by apply marker_len_short.
  - intros impact. split; [apply formatPRComment_len|].
    split; [|apply formatPRComment_marker_line].
    intros Hid. apply formatPRComment_marker_line.
    by apply marker_len_short.
Qed.

End FormatClaims.

Section FormatExamples.
Import JS Regex Spec IssueTypes PrTypes.

Lemma rendered_body_bounds_witness :
  startsWith (IssueFormat.formatIssueBody Demo.proposal)
    (generateChangeIdMarker (id Demo.proposal) ++ [LF]) = true
  ∧ startsWith (PrFormat.formatPRComment (H := Demo.host) Demo.impact)
      (generatePRImpactMarker (changeId Demo.impact) ++ [LF]) = true.
Proof.
  destruct (rendered_body_bounds (H := Demo.host)) as [Hi Hp]. split.
  - apply (proj1 (proj2 (Hi Demo.proposal))). by vm_compute.
  - apply (proj1 (proj2 (Hp Demo.impact))). by vm_compute.
Defined.

Lemma formatIssueBody_marker_too_long (proposal : ChangeProposal) :
  65536 < len (generateChangeIdMarker (id proposal)) →
  startsWith (IssueFormat.formatIssueBody proposal)
    (generateChangeIdMarker (id proposal)) = false.
Proof.
  intros Hlong. destruct (startsWith _ _) eqn:Hs; [exfalso|done].
  apply startsWith_length in Hs.
  destruct (formatIssueBody_shape proposal) as [x Hx].
  pose proof (truncateBody_len
                (generateChangeIdMarker (id proposal) ++ LF :: x)) as Hlen.
  rewrite <-Hx in Hlen. unfold len in *.
  change MAX_ISSUE_BODY_LENGTH with 65536 in Hlen. lia.
Qed.

(** The bound on the id is needed: with an id of 65,536 units the
    marker alone is longer than the ceiling, and the truncated body
    does not begin with it. *)
Lemma formatIssueBody_long_id :
  startsWith (IssueFormat.formatIssueBody Demo.long_proposal)
    (generateChangeIdMarker (id Demo.long_proposal)) = false.
Proof.
  apply formatIssueBody_marker_too_long.
  unfold generateChangeIdMarker, Demo.long_proposal, id, len.
  rewrite !length_app, length_replicate.
  change (length (lit "<!-- spectr-change-id:")) with 22%nat. lia.
Qed.

End FormatExamples.

(** ** Reconciler: [syncActiveChange], [closeIssue] and the archived loop *)

Section SyncClaims.
Import JS Spec IssueTypes Remote IssueSync IssueIndex.

Variable octokit : Octokit.
Variable repo' : RepoContext.

(** C2: the decision procedure of [syncActiveChange].  No existing
    issue: one create request, result created.  Existing issue and
    updates disabled: skipped, nothing sent.  Existing closed issue:
    the reopen request and, whenever it is answered, the update request
    whatever the contents, result updated.  Existing open issue with
    the rendered title and a body that [bodiesMatch] accepts: skipped,
    nothing sent.  Otherwise: one update request, result updated. *)
Theorem syncActiveChange_decision (change : ChangeProposal)
    (config : IssueSyncConfig) (labels : list str) (log : list Request) :
  let title' := IssueFormat.formatIssueTitle (id change) config in
  let body' := IssueFormat.formatIssueBody change in
  let run := λ existing,
    syncActiveChange octokit repo' change config labels existing log in
  run None
  = answered octokit log (IssuesCreate (owner repo') (repo repo') title' body' labels)
      Created
  ∧ ∀ issue : ManagedIssue,
      (updateExisting config = false → run (Some issue) = (Ok Skipped, log))
      ∧ (updateExisting config = true → state issue = closed_state →
         run (Some issue)
         = match octokit log (reopen_request repo' (number issue)) with
           | Throw e => (Throw e, log ++ [reopen_request repo' (number issue)])
           | Ok _ =>
               answered octokit (log ++ [reopen_request repo' (number issue)])
                 (update_request repo' (number issue) title' body' labels) Updated
           end)
      ∧ (updateExisting config = true → state issue = open →
         IssueFormat.bodiesMatch (body issue) body' = true →
         title issue = title' →
         run (Some issue) = (Ok Skipped, log))
      ∧ (updateExisting config = true → state issue = open →
         ¬ (IssueFormat.bodiesMatch (body issue) body' = true
            ∧ title issue = title') →
         run (Some issue)
         = answered octokit log (update_request repo' (number issue) title' body' labels)
             Updated).
Proof.
  intros title' body' run. subst run. split; [|intros issue; repeat split].
  - unfold syncActiveChange, createIssue, bind, request, ret, answered.
    by destruct (octokit log _).
  - intros Hcfg. unfold syncActiveChange. by rewrite Hcfg.
  - intros Hcfg Hst. unfold syncActiveChange. rewrite Hcfg, Hst. simpl.
    unfold reopenIssue, updateIssue, bind, request, ret, answered.
    destruct (octokit log _); [|done]. fold title' body'.
    unfold update_request. by destruct (octokit (log ++ _) _).
  - intros Hcfg Hst Hbody Htitle. unfold syncActiveChange.
    fold title' body'. rewrite Hcfg, Hst, Hbody. simpl.
    by rewrite (proj2 (str_eqb_eq _ _) Htitle).
  - intros Hcfg Hst Hne. unfold syncActiveChange.
    fold title' body'. rewrite Hcfg, Hst. simpl.
    assert (IssueFormat.bodiesMatch (body issue) body'
            && str_eqb (title issue) title' = false) as ->.
    { apply not_true_is_false. intros [??]%andb_true_iff. apply Hne.
      split; [done|]. by apply str_eqb_eq. }
    unfold updateIssue, bind, request, ret, answered, update_request.
    by destruct (octokit log _).
Qed.

Lemma closeIssue_commented (issueNumber : N) (comment : str)
    (log : list Request) :
  comment ≠ [] →
  closeIssue octokit repo' issueNumber (Some comment) log
  = match octokit log (comment_request repo' issueNumber comment) with
    | Throw e =>
        (Throw e, log ++ [comment_request repo' issueNumber comment])
    | Ok _ =>
        answered octokit
          (log ++ [comment_request repo' issueNumber comment])
          (close_request repo' issueNumber) tt
    end.
Proof.
  intros Hne. destruct comment as [|c comment]; [done|].
  unfold closeIssue, bind, request, ret, answered. simpl.
  destruct (octokit log _); [|done]. by destruct (octokit (log ++ _) _).
Qed.

Lemma comment_first_app (l1 l2 : list Request) :
  comment_first repo' l1 → comment_first repo' l2 →
  comment_first repo' (l1 ++ l2).
Proof. induction 1; intros; simpl; [done|by constructor; auto..]. Qed.

(** In such a log every close request directly follows the comment
    request of the same issue. *)
Lemma comment_first_lookup (l : list Request) (j : nat) (n : N) :
  comment_first repo' l →
  l !! j = Some (close_request repo' n) →
  ∃ i c, j = S i ∧ l !! i = Some (comment_request repo' n c).
Proof.
  intros Hl. revert j. induction Hl as [|m c rest _ IH|m c rest _ IH];
    intros j Hj; [done|..].
  - destruct j as [|j]; [done|]. simpl in Hj.
    destruct (IH _ Hj) as (i & c' & -> & Hi). by exists (S i), c'.
  - destruct j as [|[|j]]; [done| |].
    + simpl in Hj. injection Hj as ->. by exists 0%nat, c.
    + simpl in Hj. destruct (IH _ Hj) as (i & c' & -> & Hi).
      by exists (S (S i)), c'.
Qed.

Lemma archived_step_log (issueMap : gmap str ManagedIssue)
    (st : SyncResult * list Request) (change : ChangeProposal) :
  ∃ new, (archived_step octokit repo' issueMap st change).2 = st.2 ++ new
         ∧ comment_first repo' new
         ∧ Forall (λ rq, ∀ n c, rq = comment_request repo' n c →
                             c = ARCHIVED_COMMENT) new.
Proof.
  destruct st as [result log]. unfold archived_step.
  destruct (issueMap !! id change) as [issue|];
    [|exists []; by rewrite app_nil_r; repeat constructor].
  destruct (state_eqb (state issue) open);
    [|exists []; by rewrite app_nil_r; repeat constructor].
  rewrite closeIssue_commented by done. unfold answered.
  destruct (octokit log _).
  - destruct (octokit (log ++ _) _); simpl;
      (eexists; split; [by rewrite <-app_assoc|]);
      (split; [by repeat constructor|]);
      repeat constructor; by intros ?? [=].
  - simpl. eexists. split; [done|]. split; [by repeat constructor|].
    repeat constructor. by intros ?? [=].
Qed.

Lemma closeArchivedChanges_log (config : IssueSyncConfig)
    (issueMap : gmap str ManagedIssue) (archivedChanges : list ChangeProposal)
    (st : SyncResult * list Request) :
  ∃ new,
    (closeArchivedChanges octokit repo' config issueMap archivedChanges st).2
    = st.2 ++ new
    ∧ comment_first repo' new
    ∧ Forall (λ rq, ∀ n c, rq = comment_request repo' n c →
                        c = ARCHIVED_COMMENT) new.
Proof.
  unfold closeArchivedChanges.
  destruct (closeOnArchive config);
    [|exists []; by rewrite app_nil_r; repeat constructor].
  revert st. induction archivedChanges as [|change rest IH]; intros st.
  - exists []. by rewrite app_nil_r; repeat constructor.
  - simpl. destruct (archived_step_log issueMap st change)
      as (new1 & Hs1 & Hc1 & Ha1).
    destruct (IH (archived_step octokit repo' issueMap st change))
      as (new2 & Hs2 & Hc2 & Ha2).
    exists (new1 ++ new2). rewrite Hs2, Hs1, app_assoc.
    split; [done|]. split; [by apply comment_first_app|by apply Forall_app].
Qed.

(** C7: when [closeIssue] is given a closing comment, the comment
    request is issued first and the close request only after it was
    answered; and over the whole loop on the archived changes every
    request that closes an issue directly follows the request that
    posts the closing comment on that issue. *)
Theorem comment_precedes_close :
  (∀ (issueNumber : N) (comment : str) (log : list Request),
     comment ≠ [] →
     closeIssue octokit repo' issueNumber (Some comment) log
     = match octokit log (comment_request repo' issueNumber comment) with
       | Throw e =>
           (Throw e, log ++ [comment_request repo' issueNumber comment])
       | Ok _ =>
           answered octokit
             (log ++ [comment_request repo' issueNumber comment])
             (close_request repo' issueNumber) tt
       end)
  ∧ (∀ (config : IssueSyncConfig) (issueMap : gmap str ManagedIssue)
       (archivedChanges : list ChangeProposal)
       (result : SyncResult) (log : list Request),
       ∃ new,
         (closeArchivedChanges octokit repo' config issueMap
            archivedChanges (result, log)).2 = log ++ new
         ∧ ∀ (j : nat) (n : N),
             new !! j = Some (close_request repo' n) →
             ∃ i, j = S i
                  ∧ new !! i
                    = Some (comment_request repo' n ARCHIVED_COMMENT)).
Proof.
  split; [apply closeIssue_commented|].
  intros config issueMap archivedChanges result log.
  destruct (closeArchivedChanges_log config issueMap archivedChanges
              (result, log)) as (new & Hnew & Hcf & Hall).
  exists new. split; [done|]. intros j n Hj.
  destruct (comment_first_lookup new j n Hcf Hj) as (i & c & -> & Hi).
  exists i. split; [done|]. rewrite Hi. do 2 f_equal.
  rewrite Forall_forall in Hall.
  eapply Hall; [|done]. by eapply list_elem_of_lookup_2.
Qed.

End SyncClaims.

Section SyncExamples.
Import JS Spec IssueTypes Remote IssueSync IssueIndex.

Lemma syncActiveChange_decision_witness :
  syncActiveChange Demo.octokit Demo.repo Demo.proposal Demo.config []
    (Some Demo.closed_issue) []
  = (Ok Updated,
     [reopen_request Demo.repo 7%N;
      update_request Demo.repo 7%N
        (IssueFormat.formatIssueTitle (id Demo.proposal) Demo.config)
        (IssueFormat.formatIssueBody Demo.proposal) []])
  ∧ syncActiveChange Demo.octokit Demo.repo Demo.proposal Demo.config []
      (Some Demo.open_issue) []
    = (Ok Skipped, []).
Proof.
  destruct (syncActiveChange_decision Demo.octokit Demo.repo Demo.proposal
              Demo.config [] []) as [_ Hex].
  split.
  - destruct (Hex Demo.closed_issue) as (_ & Hclosed & _).
    exact (Hclosed eq_refl eq_refl).
  - destruct (Hex Demo.open_issue) as (_ & _ & Hopen & _).
    apply Hopen; [done|done|by vm_compute|done].
Defined.

Lemma comment_precedes_close_witness :
  closeIssue Demo.octokit Demo.repo 7%N (Some ARCHIVED_COMMENT) []
  = (Ok tt, [comment_request Demo.repo 7%N ARCHIVED_COMMENT;
             close_request Demo.repo 7%N]).
Proof.
  destruct (comment_precedes_close Demo.octokit Demo.repo) as [Hc _].
  apply (Hc 7%N ARCHIVED_COMMENT []). by vm_compute.
Defined.

End SyncExamples.

(** ** Impact calculator and delta parser *)

Section CalculateClaims.
Import JS Spec PrTypes Calculate.
Context `{Host}.

Lemma count_op_snoc o l c :
  count_op o (l ++ [c])
  = (count_op o l + if PrFormat.op_eqb (operation c) o then 1 else 0)%nat.
Proof.
  unfold count_op. rewrite List.filter_app, length_app. simpl.
  by destruct (PrFormat.op_eqb _ _).
Qed.

Lemma counted_push {A} (mk : A → SpecChange) (o : Operation)
    (bump : OperationCounts → OperationCounts) (xs : list A) (a : Acc) :
  (∀ x, operation (mk x) = o) →
  (∀ c o', match o' with
           | add => added | modify => modified
           | op_remove => removed | rename => renamed
           end (bump c)
           = (match o' with
              | add => added | modify => modified
              | op_remove => removed | rename => renamed
              end c + if PrFormat.op_eqb o o' then 1 else 0)%nat) →
  counted a →
  counted (fold_left (λ a x, push_change (mk x) bump a) xs a).
Proof.
  intros Hop Hbump. revert a.
  induction xs as [|x xs IH]; intros a Ha; [done|].
  simpl. apply IH. destruct Ha as (Ha & Hm & Hr & Hn).
  unfold counted, push_change. simpl. rewrite !count_op_snoc, Hop.
  rewrite (Hbump _ add), (Hbump _ modify), (Hbump _ op_remove),
    (Hbump _ rename).
  by rewrite Ha, Hm, Hr, Hn.
Qed.

Lemma counted_step (a : Acc) (f : SpecFile) :
  counted a → counted (impact_step a f).
Proof.
  intros Ha. unfold impact_step.
  apply (counted_push _ rename); [done|by intros ? []; simpl; lia|].
  apply (counted_push _ op_remove); [done|by intros ? []; simpl; lia|].
  apply (counted_push _ modify); [done|by intros ? []; simpl; lia|].
  apply (counted_push _ add); [done|by intros ? []; simpl; lia|].
  done.
Qed.

(** C3: in the summary of [calculateSpecImpact] the total is the sum of
    the four counts, and each count is the number of changes of its
    operation in the sequence of changes. *)
Theorem impact_counts (changeId' workspacePath : str) (mode' : PRMode) :
  let impact := calculateSpecImpact changeId' workspacePath mode' in
  total (counts impact)
  = (added (counts impact) + modified (counts impact)
     + removed (counts impact) + renamed (counts impact))%nat
  ∧ added (counts impact) = count_op add (changes impact)
  ∧ modified (counts impact) = count_op modify (changes impact)
  ∧ removed (counts impact) = count_op op_remove (changes impact)
  ∧ renamed (counts impact) = count_op rename (changes impact).
Proof.
  intros impact. subst impact. unfold calculateSpecImpact. simpl.
  split; [done|].
  generalize (findDeltaSpecFiles changeId' workspacePath). intros files.
  enough (∀ a, counted a → counted (fold_left impact_step files a)) as Hc.
  { apply Hc. by repeat split. }
  induction files as [|f files IH]; intros a Ha; [done|].
  simpl. by apply IH, counted_step.
Qed.


Lemma requirements_loop_no_header (lines : list str) :
  Forall (λ line, matchRequirementHeader line = None) lines →
  requirements_loop lines [] None = ([], None).
Proof.
  induction 1 as [|line lines Hline _ IH]; [done|].
  cbn [requirements_loop]. rewrite Hline.
  destruct (isH3Header line); cbn [andb push_current]; [done|].
  by destruct (startsWith line (lit "## ")).
Qed.

Lemma parseRequirementsFromSection_no_header (sectionContent : str) :
  Forall (λ line, matchRequirementHeader line = None)
    (split LF sectionContent) →
  parseRequirementsFromSection sectionContent = [].
Proof.
  intros Hlines. unfold parseRequirementsFromSection.
  by rewrite requirements_loop_no_header.
Qed.


End CalculateClaims.

Section CalculateExamples.
Import JS Spec PrTypes Calculate.

(** C5, at the archive [2025-12-10-add-issue-sync] and the change id
    [issue-sync]: the one entry is neither the id nor the id behind a
    date, and [checkArchiveStatus] answers true. *)
Theorem checkArchiveStatus_suffix_collision :
  readdirSync (Host := Demo.host) Demo.archive_dir
  = Some [lit "2025-12-10-add-issue-sync"]
  ∧ is_archive_entry (lit "issue-sync") (lit "2025-12-10-add-issue-sync")
    = false
  ∧ is_archive_entry (lit "add-issue-sync") (lit "2025-12-10-add-issue-sync")
    = true
  ∧ checkArchiveStatus (H := Demo.host) (lit "issue-sync") (lit "/w") = true.
Proof. by vm_compute. Qed.

End CalculateExamples.

Section ArchiveFacts.
Import JS Spec PrTypes Calculate.
Context `{Host}.

Lemma endsWith_app (p s : str) : endsWith (p ++ s) s = true.
Proof. unfold endsWith. rewrite reverse_app. apply startsWith_app. Qed.

Lemma is_archive_entry_suffix (changeId' entry : str) :
  is_archive_entry changeId' entry = true →
  endsWith entry (lit "-" ++ changeId') || str_eqb entry changeId' = true.
Proof.
  unfold is_archive_entry. intros [Heq|[Hdate Hid]%andb_true_iff]%orb_true_iff.
  - rewrite Heq. apply orb_true_r.
  - apply str_eqb_eq in Hid. apply orb_true_iff. left.
    rewrite <-(take_drop 11 entry), Hid.
    destruct (take 11 entry) as [|y1 [|y2 [|y3 [|y4 [|h1 [|m1 [|m2 [|h2
      [|d1 [|d2 [|h3 [|??]]]]]]]]]]]]; try done.
    cbn [is_date_prefix forallb] in Hdate. rewrite !andb_true_iff in Hdate.
    destruct Hdate as (_ & _ & _ & Hh3 & _). apply N.eqb_eq in Hh3 as <-.
    change ([y1; y2; y3; y4; h1; m1; m2; h2; d1; d2; 45%N] ++ changeId')
      with ([y1; y2; y3; y4; h1; m1; m2; h2; d1; d2]
            ++ (lit "-" ++ changeId')).
    apply endsWith_app.
Qed.

(** The half of C5 that the code has: an entry that is the id, or the
    id behind a date, makes the change count as archived. *)
Lemma checkArchiveStatus_archived (changeId' workspacePath : str)
    (entries : list str) :
  let archivePath :=
    path_join [workspacePath; lit "spectr"; lit "changes"; lit "archive"] in
  existsSync archivePath = true →
  readdirSync archivePath = Some entries →
  existsb (is_archive_entry changeId') entries = true →
  checkArchiveStatus changeId' workspacePath = true.
Proof.
  intros archivePath Hex Hrd Hent. unfold checkArchiveStatus.
  fold archivePath. rewrite Hex, Hrd. simpl.
  apply existsb_exists in Hent as (e & Hin & He).
  apply existsb_exists. exists e. split; [done|].
  by apply is_archive_entry_suffix.
Qed.

End ArchiveFacts.

(** ** The unit tests of the repository, replayed on the embedding *)

Section RepositoryTests.
Import JS Regex Spec IssueTypes PrTypes Detect.

Example test_generateChangeIdMarker :
  generateChangeIdMarker (lit "add-new-feature-v2")
  = lit "<!-- spectr-change-id:add-new-feature-v2 -->".
Proof. by vm_compute. Qed.

Example test_extractChangeIdFromBody :
  extractChangeIdFromBody
    (lit "<!-- spectr-change-id:add-feature -->" ++ [LF; LF]
     ++ lit "## Proposal" ++ [LF] ++ lit "Some content")
  = Some (lit "add-feature")
  ∧ extractChangeIdFromBody
      (lit "## Proposal" ++ [LF] ++ lit "Some content without marker") = None
  ∧ extractChangeIdFromBody
      (lit "<!--  spectr-change-id:add-feature  -->" ++ [LF; LF] ++ lit "Content")
    = Some (lit "add-feature")
  ∧ extractChangeIdFromBody (lit "<!--spectr-change-id:test-->")
    = Some (lit "test").
Proof. by vm_compute. Qed.

Example test_CHANGE_ID_MARKER_PATTERN_invalid :
  Forall (λ marker, str_match marker CHANGE_ID_MARKER_PATTERN = None)
    [lit "<!-- spectr-id:test -->"; lit "<!-- change-id:test -->";
     lit "spectr-change-id:test"; lit "<!-- spectr-change-id: -->"].
Proof. repeat constructor. Qed.

Example test_extractChangeIdFromComment :
  extractChangeIdFromComment
    (lit "<!--  spectr-pr-impact:my-change  -->" ++ [LF] ++ lit "Content")
  = Some (lit "my-change")
  ∧ extractChangeIdFromComment (lit "Regular PR comment without marker") = None
  ∧ extractChangeIdFromComment [] = None
  ∧ str_match (lit "<!-- spectr-change-id:test -->") PR_IMPACT_MARKER_PATTERN
    = None.
Proof. by vm_compute. Qed.

Example test_parseSpectrBranch :
  parseSpectrBranch (lit "spectr/archive/update-auth")
  = {| changeId := Some (lit "update-auth"); isSpectrBranch := true;
       mode := Some archive |}
  ∧ parseSpectrBranch (lit "spectr/remove/old-feature")
    = {| changeId := Some (lit "old-feature"); isSpectrBranch := true;
         mode := Some remove |}
  ∧ isSpectrBranch (parseSpectrBranch (lit "feature/add-something")) = false
  ∧ isSpectrBranch (parseSpectrBranch (lit "spectr/something-else")) = false.
Proof. by vm_compute. Qed.

Example test_commentsMatch :
  PrFormat.commentsMatch (lit "This is a comment") (lit "This is a comment")
  = true
  ∧ PrFormat.commentsMatch (lit "This is  a   comment") (lit "This is a comment")
    = true
  ∧ PrFormat.commentsMatch (lit "Line 1" ++ [LF; LF; LF] ++ lit "Line 2")
      (lit "Line 1" ++ [LF] ++ lit "Line 2") = true
  ∧ PrFormat.commentsMatch (lit "This is comment one") (lit "This is comment two")
    = false.
Proof. by vm_compute. Qed.

Example test_formatSummaryTable :
  let table :=
    PrFormat.formatSummaryTable
      {| added := 3; modified := 1; removed := 2; renamed := 0; total := 6 |} in
  includes table (lit "| Operation | Count |") = true
  ∧ includes table (lit "| Added | 3 |") = true
  ∧ includes table (lit "| Modified | 1 |") = true
  ∧ includes table (lit "| Removed | 2 |") = true
  ∧ includes table (lit "| Renamed | 0 |") = true.
Proof. by vm_compute. Qed.

Example test_formatDiffPreview :
  PrFormat.formatDiffPreview [] = lit "_No spec changes detected_"
  ∧ (let preview :=
       PrFormat.formatDiffPreview
         [{| capabilityName := lit "auth"; operation := rename;
             requirementName := lit "User Authentication";
             content := None; oldName := Some (lit "Login") |}] in
     includes preview (lit "#### Renamed") = true
     ∧ includes preview (lit "- `Login` " ++ [8594%N] ++ lit " `User Authentication`")
       = true).
Proof. by vm_compute. Qed.

Example test_formatPRComment :
  let comment :=
    PrFormat.formatPRComment (H := Demo.host)
      {| PrTypes.capabilities := []; PrTypes.changeId := lit "test";
         PrTypes.changes := [];
         PrTypes.counts := {| added := 0; modified := 0; removed := 0;
                              renamed := 0; total := 0 |};
         PrTypes.isArchived := true; PrTypes.mode := archive |} in
  includes comment (lit "<!-- spectr-pr-impact:test -->") = true
  ∧ includes comment (lit "## Spectr Impact: `test`") = true
  ∧ includes comment (lit "| Archived | Yes |") = true
  ∧ includes comment (lit "| Mode | Archive |") = true
  ∧ includes comment (lit "spectr/changes/test/proposal.md") = true.
Proof. by vm_compute. Qed.

(** The scenario of the specification: a body that differs from the
    rendered one by trailing whitespace only causes no request. *)
Example test_trailing_whitespace_skips :
  IssueIndex.syncActiveChange Demo.octokit Demo.repo Demo.proposal Demo.config
    []
    (Some {| IssueTypes.number := 7%N;
             IssueTypes.changeId := lit "issue-sync";
             IssueTypes.state := open;
             IssueTypes.title :=
               IssueFormat.formatIssueTitle (lit "issue-sync") Demo.config;
             IssueTypes.body :=
               IssueFormat.formatIssueBody Demo.proposal
               ++ lit "  " ++ [CR; LF; LF] |})
    []
  = (Remote.Ok IssueIndex.Skipped, []).
Proof. by vm_compute. Qed.

End RepositoryTests.
(** ** Markers through the renderers *)

Section RenderFacts.
Import JS Regex Spec IssueTypes PrTypes.

Lemma match_at_marker_app tag id rest :
  stops is_ws (tag ++ lit ":") →
  id ≠ [] → Forall (λ c, is_id_char c = true) id →
  match_at (marker_pattern tag) 0 (marker_text tag id ++ rest)
  = Some ([id], length (marker_text tag id)).
Proof.
  intros Htag Hne Hid. unfold match_at, marker_pattern, marker_text.
  replace ((lit "<!--" ++ [SP] ++ (tag ++ lit ":") ++ id ++ [SP] ++ lit "-->")
           ++ rest)
    with (lit "<!--" ++ [SP] ++ (tag ++ lit ":") ++ id ++ [SP]
          ++ lit "-->" ++ rest)
    by (by rewrite <-!app_assoc).
  rewrite rmatch_seq, rmatch_lit_app, rmatch_seq, rmatch_star.
  destruct id as [|c id]; [done|]. inversion_clear Hid as [|?? Hc Hid'].
  erewrite (star_loop_greedy is_ws _ _ [SP]);
    [reflexivity|by repeat constructor| |].
  2:{ destruct tag; simpl in *; done. }
  cbv beta. rewrite rmatch_seq. rewrite rmatch_lit_app, rmatch_seq.
  rewrite <-app_comm_cons, rmatch_group_plus by done.
  erewrite (star_loop_greedy is_id_char _ _ id); [reflexivity|done| |done].
  cbv beta. rewrite rmatch_seq, rmatch_star.
  erewrite (star_loop_greedy is_ws _ _ [SP]);
    [reflexivity|by repeat constructor| |done].
  cbv beta. rewrite rmatch_lit_app.
  unfold accept. f_equal. f_equal.
  - f_equal.
    replace (_ - _)%nat with (length (c :: id)) by (simpl; lia).
    by rewrite app_comm_cons, take_app_length.
  - rewrite !length_app. simpl. lia.
Qed.

(** A text that starts with a marker yields the marker's id. *)
Lemma str_match_marker_app tag id rest :
  stops is_ws (tag ++ lit ":") →
  id ≠ [] → Forall (λ c, is_id_char c = true) id →
  ∃ m, str_match (marker_text tag id ++ rest) (marker_pattern tag) = Some m
       ∧ group m 1 = id.
Proof.
  intros Htag Hne Hid. unfold str_match.
  rewrite (exec_from_hit _ _ _ _ _ (match_at_marker_app tag id rest Htag Hne Hid)).
  eexists. split; [reflexivity|done].
Qed.

Lemma startsWith_marker_extract tag id s :
  stops is_ws (tag ++ lit ":") →
  id ≠ [] → Forall (λ c, is_id_char c = true) id →
  startsWith s (marker_text tag id ++ [LF]) = true →
  ∃ m, str_match s (marker_pattern tag) = Some m ∧ group m 1 = id.
Proof.
  intros Htag Hne Hid [t ->]%startsWith_spec. rewrite <-app_assoc.
  by apply str_match_marker_app.
Qed.

Lemma extract_formatIssueBody (proposal : ChangeProposal) :
  marker_id (id proposal) →
  extractChangeIdFromBody (IssueFormat.formatIssueBody proposal)
  = Some (id proposal).
Proof.
  intros (Hne & Hid & Hlen).
  destruct (formatIssueBody_shape proposal) as [x Hx].
  pose proof (truncateBody_marker_line _ x Hlen) as Hs. rewrite <-Hx in Hs.
  rewrite generateChangeIdMarker_text in Hs.
  apply startsWith_marker_extract in Hs as (m & Hm & Hg);
    [|by vm_compute|done..].
  unfold extractChangeIdFromBody, CHANGE_ID_MARKER_PATTERN.
  by rewrite Hm, Hg.
Qed.

End RenderFacts.

Section RenderedMarkers.
Import JS Regex Spec IssueTypes PrTypes.
Context `{Host}.

(** X1: the body rendered for a change proposal whose id is a non-empty
    word of [[a-zA-Z0-9_-]] (short enough for its marker to survive
    truncation) is recognised again: both extraction functions read
    the proposal's id back from it, whatever the proposal's content. *)
Theorem formatIssueBody_extract (proposal : ChangeProposal) :
  id proposal ≠ [] → id_chars (id proposal) →
  len (generateChangeIdMarker (id proposal))
  < MAX_ISSUE_BODY_LENGTH - len IssueFormat.TRUNCATION_NOTICE →
  extractChangeIdFromBody (IssueFormat.formatIssueBody proposal)
  = Some (id proposal)
  ∧ IssueFormat.extractChangeId (IssueFormat.formatIssueBody proposal)
    = Some (id proposal).
Proof.
  intros Hne Hid Hlen.
  pose proof (extract_formatIssueBody proposal (conj Hne (conj Hid Hlen)))
    as Hex.
  split; [done|]. exact Hex.
Qed.

(** X2: the comment rendered for a spec impact whose change id is a
    non-empty word of [[a-zA-Z0-9_-]] carries a marker from which
    [extractChangeIdFromComment] reads the change id back. *)
Theorem formatPRComment_extract (impact : SpecImpact) :
  changeId impact ≠ [] → id_chars (changeId impact) →
  len (generatePRImpactMarker (changeId impact))
  < MAX_COMMENT_BODY_LENGTH - len PrFormat.truncationNotice →
  extractChangeIdFromComment (PrFormat.formatPRComment impact)
  = Some (changeId impact).
Proof.
  intros Hne Hid Hlen.
  pose proof (formatPRComment_marker_line impact Hlen) as Hs.
  rewrite generatePRImpactMarker_text in Hs.
  apply startsWith_marker_extract in Hs as (m & Hm & Hg);
    [|by vm_compute|done..].
  unfold extractChangeIdFromComment, PR_IMPACT_MARKER_PATTERN.
  by rewrite Hm, Hg.
Qed.

End RenderedMarkers.

Section RenderedExamples.
Import JS Spec IssueTypes PrTypes.

Lemma formatIssueBody_extract_witness :
  extractChangeIdFromBody (IssueFormat.formatIssueBody Demo.proposal)
  = Some (lit "issue-sync")
  ∧ IssueFormat.extractChangeId (IssueFormat.formatIssueBody Demo.proposal)
    = Some (lit "issue-sync").
Proof.
  apply (formatIssueBody_extract Demo.proposal);
    [compute_done|compute_done|by vm_compute].
Defined.

Lemma formatPRComment_extract_witness :
  extractChangeIdFromComment
    (PrFormat.formatPRComment (H := Demo.host) Demo.impact)
  = Some (changeId Demo.impact).
Proof.
  apply (formatPRComment_extract (H := Demo.host) Demo.impact);
    [compute_done|compute_done|by vm_compute].
Defined.

End RenderedExamples.

Section TruncateFacts.
Import JS Spec IssueTypes.

(** An answer of [lastIndexOf] other than [-1] is the index of an
    occurrence. *)
Lemma lastIndexOf_from_hit needle hay i :
  lastIndexOf_from needle hay i ≠ -1 →
  i ≤ lastIndexOf_from needle hay i
  ∧ startsWith (drop (Z.to_nat (lastIndexOf_from needle hay i - i)) hay)
      needle = true.
Proof.
  revert i. induction hay as [|c t IH]; intros i Hr.
  - simpl in *. destruct (startsWith [] needle) eqn:Hs; [|done].
    rewrite Z.sub_diag. split; [lia|done].
  - cbn [lastIndexOf_from] in *.
    destruct (0 <=? lastIndexOf_from needle t (i + 1)) eqn:Hl.
    + apply Z.leb_le in Hl.
      destruct (IH (i + 1) ltac:(lia)) as [Hle Hs]. split; [lia|].
      replace (Z.to_nat (lastIndexOf_from needle t (i + 1) - i))
        with (S (Z.to_nat (lastIndexOf_from needle t (i + 1) - (i + 1))))
        by lia.
      done.
    + destruct (startsWith (c :: t) needle) eqn:Hs; [|done].
      rewrite Z.sub_diag. split; [lia|done].
Qed.

Lemma startsWith_drop_lookup (s : str) (n : nat) (c : N) :
  startsWith (drop n s) [c] = true → s !! n = Some c.
Proof.
  intros [t Ht]%startsWith_spec.
  rewrite <-(take_drop n s) at 1. rewrite Ht.
  assert (n ≤ length s)%nat as Hn.
  { destruct (decide (n ≤ length s)%nat); [done|].
    rewrite drop_ge in Ht by lia. done. }
  rewrite lookup_app_r; rewrite length_take, Nat.min_l by lia; [|lia].
  by rewrite Nat.sub_diag.
Qed.

(** X3: when a body exceeds the ceiling, [truncateBody] keeps a prefix
    of it and appends the notice; the prefix fills the room left by
    the notice or ends just before a line feed, and in both cases it
    is at least four fifths of that room. *)
Theorem truncateBody_kept (body : str) :
  MAX_ISSUE_BODY_LENGTH < len body →
  ∃ n : nat,
    IssueFormat.truncateBody body
    = take n body ++ IssueFormat.TRUNCATION_NOTICE
    ∧ 4 * (MAX_ISSUE_BODY_LENGTH - len IssueFormat.TRUNCATION_NOTICE)
      ≤ 5 * Z.of_nat n
    ∧ Z.of_nat n
      ≤ MAX_ISSUE_BODY_LENGTH - len IssueFormat.TRUNCATION_NOTICE
    ∧ (Z.of_nat n
       = MAX_ISSUE_BODY_LENGTH - len IssueFormat.TRUNCATION_NOTICE
       ∨ body !! n = Some LF).
Proof.
  intros Hlong. unfold IssueFormat.truncateBody.
  destruct (len body <=? _) eqn:Hle; [lia|]. clear Hle.
  assert (0 ≤ MAX_ISSUE_BODY_LENGTH - len IssueFormat.TRUNCATION_NOTICE
          ≤ MAX_ISSUE_BODY_LENGTH) as Hm by (split; done).
  revert Hlong Hm. generalize MAX_ISSUE_BODY_LENGTH.
  generalize IssueFormat.TRUNCATION_NOTICE. intros notice mx Hlong Hm.
  set (m := mx - len notice) in *. clearbody m.
  rewrite (substring_0 body) by lia.
  set (cut := take (Z.to_nat m) body).
  assert (len cut = m) as Hcut.
  { subst cut. unfold len in *. rewrite length_take. lia. }
  destruct (_ <? _) eqn:Hnl.
  - apply Z.ltb_lt in Hnl.
    unfold lastIndexOf in *.
    destruct (lastIndexOf_from_hit [LF] cut 0 ltac:(lia)) as [Hge Hs].
    pose proof (lastIndexOf_from_range [LF] cut 0) as Hr.
    set (l := lastIndexOf_from [LF] cut 0) in *. clearbody l.
    rewrite substring_0 by done. rewrite Z.sub_0_r in Hs.
    exists (Z.to_nat l). subst cut. rewrite take_take.
    rewrite Nat.min_l by lia.
    split; [done|]. split; [lia|]. split; [lia|]. right.
    apply startsWith_drop_lookup in Hs.
    by apply lookup_take_Some in Hs as [Hs _].
  - exists (Z.to_nat m). split; [done|]. split; [lia|]. split; [lia|].
    left. lia.
Qed.

End TruncateFacts.

Section TruncateExamples.
Import JS Spec IssueTypes.

Lemma truncateBody_kept_witness :
  ∃ n : nat,
    IssueFormat.truncateBody DemoRun.long_body
    = take n DemoRun.long_body ++ IssueFormat.TRUNCATION_NOTICE
    ∧ 4 * (MAX_ISSUE_BODY_LENGTH - len IssueFormat.TRUNCATION_NOTICE)
      ≤ 5 * Z.of_nat n
    ∧ Z.of_nat n
      ≤ MAX_ISSUE_BODY_LENGTH - len IssueFormat.TRUNCATION_NOTICE
    ∧ (Z.of_nat n
       = MAX_ISSUE_BODY_LENGTH - len IssueFormat.TRUNCATION_NOTICE
       ∨ DemoRun.long_body !! n = Some LF).
Proof.
  apply (truncateBody_kept DemoRun.long_body).
  unfold DemoRun.long_body, len. rewrite length_replicate.
  change MAX_ISSUE_BODY_LENGTH with 65536. lia.
Defined.
End TruncateExamples.
(** ** The two loops of [syncIssues] *)

Section ReconcileFacts.
Import JS Spec IssueTypes Remote IssueSync IssueIndex IssueRun.

Variable octokit : Octokit.
Variable repo' : RepoContext.
Variable config : IssueSyncConfig.

(** [issueMap.get(k)] is the last managed issue whose change id is
    [k]. *)
Lemma build_issueMap_lookup (managedIssues : list ManagedIssue) (k : str) :
  build_issueMap managedIssues !! k
  = last (List.filter (λ m, bool_decide (changeId m = k)) managedIssues).
Proof.
  unfold build_issueMap.
  induction managedIssues as [|m ms IH] using rev_ind; [done|].
  rewrite fold_left_app, List.filter_app, last_app. simpl.
  destruct (decide (changeId m = k)) as [Hk|Hk].
  - rewrite bool_decide_true by done. simpl.
    by rewrite Hk, lookup_insert_eq.
  - rewrite bool_decide_false by done. simpl.
    by rewrite lookup_insert_ne.
Qed.

Lemma build_issueMap_elem (managedIssues : list ManagedIssue) (k : str)
    (m : ManagedIssue) :
  build_issueMap managedIssues !! k = Some m →
  m ∈ managedIssues ∧ changeId m = k.
Proof.
  rewrite build_issueMap_lookup. intros Hl%last_Some_elem_of.
  apply list_elem_of_In, filter_In in Hl as [Hin Hk].
  apply bool_decide_eq_true in Hk. split; [|done].
  by apply list_elem_of_In.
Qed.

Lemma allLabels_spectrLabel : spectrLabel config ∈ allLabels config.
Proof.
  unfold allLabels. destruct (existsb _ _) eqn:He.
  - apply existsb_exists in He as (l & Hl & Heq).
    apply str_eqb_eq in Heq as <-. by apply list_elem_of_In.
  - apply elem_of_app. right. by apply list_elem_of_singleton.
Qed.

Lemma allLabels_incl (l : str) : l ∈ labels config → l ∈ allLabels config.
Proof.
  unfold allLabels. destruct (existsb _ _); [done|].
  intros. apply elem_of_app. by left.
Qed.

Section Requests.
Variable managedIssues : list ManagedIssue.

Local Ltac log_all :=
  repeat (apply Forall_cons_2; [assumption|]); apply Forall_nil_2.

Lemma syncActiveChange_requests (change : ChangeProposal)
    (existing : option ManagedIssue) (log : list Request) :
  (∀ m, existing = Some m → m ∈ managedIssues) →
  ∃ new,
    (syncActiveChange octokit repo' change config (allLabels config)
       existing log).2 = log ++ new
    ∧ Forall (managed_request repo' config managedIssues) new.
Proof.
  intros Hex. unfold syncActiveChange.
  destruct existing as [m|].
  - specialize (Hex m eq_refl).
    assert (managed_request repo' config managedIssues
              (update_request repo' (number m)
                 (IssueFormat.formatIssueTitle (id change) config)
                 (IssueFormat.formatIssueBody change) (allLabels config)))
      as Hup by (simpl; eauto).
    assert (managed_request repo' config managedIssues
              (reopen_request repo' (number m)))
      as Hre by (simpl; eauto).
    destruct (updateExisting config); simpl;
      [|exists []; by rewrite app_nil_r].
    destruct (state_eqb (state m) closed_state).
    + unfold reopenIssue, updateIssue, bind, request, ret.
      fold (reopen_request repo' (number m)).
      destruct (octokit log _); cbn [snd].
      * fold (update_request repo' (number m)
                (IssueFormat.formatIssueTitle (id change) config)
                (IssueFormat.formatIssueBody change) (allLabels config)).
        destruct (octokit (log ++ _) _); cbn [snd];
          (eexists [_; _]; split;
             [by rewrite <-app_assoc|log_all]).
      * eexists [_]. split; [done|log_all].
    + destruct (_ && _); [exists []; by rewrite app_nil_r|].
      unfold updateIssue, bind, request, ret.
      fold (update_request repo' (number m)
              (IssueFormat.formatIssueTitle (id change) config)
              (IssueFormat.formatIssueBody change) (allLabels config)).
      destruct (octokit log _); cbn [snd];
        (eexists [_]; split; [done|log_all]).
  - unfold createIssue, bind, request, ret.
    destruct (octokit log _); cbn [snd];
      (eexists [_]; split; [done|]);
      (apply Forall_cons_2; [|apply Forall_nil_2]);
      (split; [done|]); (split; [done|]); apply allLabels_spectrLabel.
Qed.

Lemma active_step_requests (st : SyncResult * list Request)
    (change : ChangeProposal) :
  ∃ new,
    (active_step octokit repo' config (allLabels config)
       (build_issueMap managedIssues) st change).2 = st.2 ++ new
    ∧ Forall (managed_request repo' config managedIssues) new.
Proof.
  destruct st as [result log]. unfold active_step.
  destruct (syncActiveChange_requests change
              (build_issueMap managedIssues !! id change) log)
    as (new & Hnew & Hall).
  { intros m Hm. by apply build_issueMap_elem in Hm as [? _]. }
  exists new. split; [|done].
  destruct (syncActiveChange _ _ _ _ _ _ _) as [[[]|e] log'];
    simpl in *; done.
Qed.

Lemma archived_step_requests (st : SyncResult * list Request)
    (change : ChangeProposal) :
  ∃ new,
    (archived_step octokit repo' (build_issueMap managedIssues) st
       change).2 = st.2 ++ new
    ∧ Forall (managed_request repo' config managedIssues) new.
Proof.
  destruct st as [result log]. unfold archived_step.
  destruct (build_issueMap managedIssues !! id change) as [m|] eqn:Hm;
    [|exists []; by rewrite app_nil_r].
  apply build_issueMap_elem in Hm as [Hm _].
  destruct (state_eqb (state m) open);
    [|exists []; by rewrite app_nil_r].
  assert (managed_request repo' config managedIssues
            (comment_request repo' (number m) ARCHIVED_COMMENT))
    as Hco by (simpl; eauto).
  assert (managed_request repo' config managedIssues
            (close_request repo' (number m)))
    as Hcl by (simpl; eauto).
  rewrite closeIssue_commented by done. unfold answered.
  destruct (octokit log _).
  - destruct (octokit (log ++ _) _); cbn [snd];
      (eexists [_; _]; split;
         [by rewrite <-app_assoc|log_all]).
  - cbn [snd]. eexists [_]. split; [done|log_all].
Qed.

Lemma fold_requests (step : SyncResult * list Request → ChangeProposal
                            → SyncResult * list Request)
    (changes : list ChangeProposal) (st : SyncResult * list Request) :
  (∀ st change, ∃ new,
     (step st change).2 = st.2 ++ new
     ∧ Forall (managed_request repo' config managedIssues) new) →
  ∃ new,
    (fold_left step changes st).2 = st.2 ++ new
    ∧ Forall (managed_request repo' config managedIssues) new.
Proof.
  intros Hstep. revert st.
  induction changes as [|change rest IH]; intros st.
  - exists []. by rewrite app_nil_r.
  - simpl. destruct (Hstep st change) as (new1 & Hs1 & Ha1).
    destruct (IH (step st change)) as (new2 & Hs2 & Ha2).
    exists (new1 ++ new2). rewrite Hs2, Hs1, app_assoc.
    split; [done|by apply Forall_app].
Qed.

End Requests.

(** X4: whatever the API answers, every request of a reconciliation
    goes to the configured repository; a request that updates, reopens,
    closes or comments names the number of one of the managed issues
    that were listed, and every issue that is created is given the
    management label. *)
Theorem reconcile_requests
    (activeChanges archivedChanges : list ChangeProposal)
    (managedIssues : list ManagedIssue) (log : list Request) :
  ∃ new,
    (reconcile octokit repo' config activeChanges archivedChanges
       managedIssues log).2 = log ++ new
    ∧ Forall (managed_request repo' config managedIssues) new.
Proof.
  unfold reconcile, closeArchivedChanges.
  destruct (fold_requests managedIssues
              (active_step octokit repo' config (allLabels config)
                 (build_issueMap managedIssues))
              activeChanges
              ({| closed := 0; created := 0; errors := [];
                  totalChanges := length activeChanges; updated := 0 |}, log)
              (active_step_requests managedIssues))
    as (new1 & Hs1 & Ha1).
  destruct (closeOnArchive config); [|by exists new1].
  destruct (fold_requests managedIssues
              (archived_step octokit repo' (build_issueMap managedIssues))
              archivedChanges
              (fold_left
                 (active_step octokit repo' config (allLabels config)
                    (build_issueMap managedIssues))
                 activeChanges
                 ({| closed := 0; created := 0; errors := [];
                     totalChanges := length activeChanges; updated := 0 |},
                  log))
              (archived_step_requests managedIssues))
    as (new2 & Hs2 & Ha2).
  exists (new1 ++ new2). rewrite Hs2, Hs1, app_assoc.
  split; [done|by apply Forall_app].
Qed.

End ReconcileFacts.

Section ReconcileCounts.
Import JS Spec IssueTypes Remote IssueSync IssueIndex IssueRun.

Variable octokit : Octokit.
Variable repo' : RepoContext.
Variable config : IssueSyncConfig.
Variable issueMap : gmap str ManagedIssue.

Lemma active_step_counts (labels' : list str)
    (st : SyncResult * list Request) (change : ChangeProposal) :
  let r := st.1 in
  let r' := (active_step octokit repo' config labels' issueMap st change).1 in
  totalChanges r' = totalChanges r ∧ closed r' = closed r
  ∧ (created r ≤ created r')%nat ∧ (updated r ≤ updated r')%nat
  ∧ ∃ es, errors r' = errors r ++ es
          ∧ (created r' + updated r' + length es
             ≤ created r + updated r + 1)%nat
          ∧ Forall (λ e, err_recoverable e = true
                         ∧ err_changeId e = id change) es.
Proof.
  destruct st as [r log]. unfold active_step. cbn [fst].
  destruct (syncActiveChange _ _ _ _ _ _ _) as [[[]|e] log']; cbn [fst];
    repeat (split; [simpl; lia|]).
  1-3: exists []; rewrite app_nil_r; simpl; repeat split; [lia|done].
  eexists [_]. simpl. repeat split; [lia|]. by repeat constructor.
Qed.

Lemma active_loop_counts (labels' : list str)
    (changes : list ChangeProposal) (st : SyncResult * list Request) :
  let r := st.1 in
  let r' := (fold_left (active_step octokit repo' config labels' issueMap)
               changes st).1 in
  totalChanges r' = totalChanges r ∧ closed r' = closed r
  ∧ (created r ≤ created r')%nat ∧ (updated r ≤ updated r')%nat
  ∧ ∃ es, errors r' = errors r ++ es
          ∧ (created r' + updated r' + length es
             ≤ created r + updated r + length changes)%nat
          ∧ Forall (λ e, err_recoverable e = true
                         ∧ ∃ c, c ∈ changes ∧ err_changeId e = id c) es.
Proof.
  revert st. induction changes as [|change rest IH]; intros st; cbn zeta.
  - simpl. repeat (split; [lia|]). exists []. rewrite app_nil_r.
    repeat split; [simpl; lia|done].
  - cbn [fold_left].
    destruct (active_step_counts labels' st change)
      as (Ht1 & Hc1 & Hcr1 & Hu1 & es1 & He1 & Hn1 & Ha1).
    destruct (IH (active_step octokit repo' config labels' issueMap st change))
      as (Ht2 & Hc2 & Hcr2 & Hu2 & es2 & He2 & Hn2 & Ha2).
    cbn zeta in *.
    repeat (split; [lia|]). exists (es1 ++ es2).
    rewrite He2, He1, app_assoc, length_app. split; [done|].
    split; [simpl; lia|]. apply Forall_app. split.
    + eapply Forall_impl; [exact Ha1|]. intros e [? ?]. split; [done|].
      exists change. split; [left|done].
    + eapply Forall_impl; [exact Ha2|]. intros e [? (c & ? & ?)].
      split; [done|]. exists c. split; [by right|done].
Qed.

Lemma archived_step_counts (st : SyncResult * list Request)
    (change : ChangeProposal) :
  let r := st.1 in
  let r' := (archived_step octokit repo' issueMap st change).1 in
  totalChanges r' = totalChanges r ∧ created r' = created r
  ∧ updated r' = updated r ∧ (closed r ≤ closed r')%nat
  ∧ ∃ es, errors r' = errors r ++ es
          ∧ (closed r' + length es ≤ closed r + 1)%nat
          ∧ Forall (λ e, err_recoverable e = true
                         ∧ err_changeId e = id change) es.
Proof.
  destruct st as [r log]. unfold archived_step. cbn [fst].
  assert (∃ es, errors r = errors r ++ es
                ∧ (closed r + length es ≤ closed r + 1)%nat
                ∧ Forall (λ e, err_recoverable e = true
                               ∧ err_changeId e = id change) es) as Hsame.
  { exists []. rewrite app_nil_r. repeat split; [simpl; lia|done]. }
  destruct (issueMap !! id change) as [m|]; [|done].
  destruct (state_eqb (state m) open); [|done].
  destruct (closeIssue _ _ _ _ _) as [[[]|e] log']; cbn [fst];
    repeat (split; [simpl; lia|]).
  - exists []. rewrite app_nil_r. simpl. repeat split; [lia|done].
  - eexists [_]. simpl. repeat split; [lia|]. by repeat constructor.
Qed.

Lemma archived_loop_counts (changes : list ChangeProposal)
    (st : SyncResult * list Request) :
  let r := st.1 in
  let r' := (fold_left (archived_step octokit repo' issueMap) changes st).1 in
  totalChanges r' = totalChanges r ∧ created r' = created r
  ∧ updated r' = updated r ∧ (closed r ≤ closed r')%nat
  ∧ ∃ es, errors r' = errors r ++ es
          ∧ (closed r' + length es ≤ closed r + length changes)%nat
          ∧ Forall (λ e, err_recoverable e = true
                         ∧ ∃ c, c ∈ changes ∧ err_changeId e = id c) es.
Proof.
  revert st. induction changes as [|change rest IH]; intros st; cbn zeta.
  - simpl. repeat (split; [lia|]). exists []. rewrite app_nil_r.
    repeat split; [simpl; lia|done].
  - cbn [fold_left].
    destruct (archived_step_counts st change)
      as (Ht1 & Hc1 & Hu1 & Hcl1 & es1 & He1 & Hn1 & Ha1).
    destruct (IH (archived_step octokit repo' issueMap st change))
      as (Ht2 & Hc2 & Hu2 & Hcl2 & es2 & He2 & Hn2 & Ha2).
    cbn zeta in *.
    repeat (split; [lia|]). exists (es1 ++ es2).
    rewrite He2, He1, app_assoc, length_app. split; [done|].
    split; [simpl; lia|]. apply Forall_app. split.
    + eapply Forall_impl; [exact Ha1|]. intros e [? ?]. split; [done|].
      exists change. split; [left|done].
    + eapply Forall_impl; [exact Ha2|]. intros e [? (c & ? & ?)].
      split; [done|]. exists c. split; [by right|done].
Qed.

End ReconcileCounts.

Section ReconcileResult.
Import JS Spec IssueTypes Remote IssueSync IssueIndex IssueRun.

Variable octokit : Octokit.
Variable repo' : RepoContext.
Variable config : IssueSyncConfig.

(** X5: the result of a reconciliation accounts for every change at
    most once.  [totalChanges] is the number of active changes; created
    plus updated is at most that number and closed at most the number
    of archived changes; counts and errors together never exceed the
    number of changes processed; every error is recoverable and names
    the id of one of the changes; with [closeOnArchive] off nothing is
    closed. *)
Theorem reconcile_counts
    (activeChanges archivedChanges : list ChangeProposal)
    (managedIssues : list ManagedIssue) (log : list Request) :
  let r := (reconcile octokit repo' config activeChanges archivedChanges
              managedIssues log).1 in
  totalChanges r = length activeChanges
  ∧ (created r + updated r ≤ length activeChanges)%nat
  ∧ (closed r ≤ length archivedChanges)%nat
  ∧ (created r + updated r + closed r + length (errors r)
     ≤ length activeChanges + length archivedChanges)%nat
  ∧ Forall (λ e, err_recoverable e = true
                 ∧ ∃ c, c ∈ activeChanges ++ archivedChanges
                        ∧ err_changeId e = id c) (errors r)
  ∧ (closeOnArchive config = false → closed r = 0%nat).
Proof.
  cbn zeta. unfold reconcile, closeArchivedChanges.
  set (st0 := ({| closed := 0; created := 0; errors := [];
                  totalChanges := length activeChanges; updated := 0 |},
               log)).
  destruct (active_loop_counts octokit repo' config
              (build_issueMap managedIssues) (allLabels config)
              activeChanges st0)
    as (Ht1 & Hc1 & _ & _ & es1 & He1 & Hn1 & Ha1).
  set (st1 := fold_left _ activeChanges st0) in *.
  cbn zeta in *. simpl in Ht1, Hc1, He1, Hn1.
  assert (Forall (λ e, err_recoverable e = true
                       ∧ ∃ c, c ∈ activeChanges ++ archivedChanges
                              ∧ err_changeId e = id c) es1) as Ha1'.
  { eapply Forall_impl; [exact Ha1|]. intros e [? (c & ? & ?)].
    split; [done|]. exists c. split; [|done]. apply elem_of_app. by left. }
  destruct (closeOnArchive config).
  - destruct (archived_loop_counts octokit repo'
                (build_issueMap managedIssues) archivedChanges st1)
      as (Ht2 & Hc2 & Hu2 & Hcl2 & es2 & He2 & Hn2 & Ha2).
    cbn zeta in *. rewrite He2, He1, length_app.
    repeat (split; [lia|]). split; [|done].
    apply Forall_app. split; [done|].
    eapply Forall_impl; [exact Ha2|]. intros e [? (c & ? & ?)].
    split; [done|]. exists c. split; [|done]. apply elem_of_app. by right.
  - rewrite He1. repeat (split; [lia|]). done.
Qed.

End ReconcileResult.
(** ** A second run, and a run with updates off *)

Section QuietRun.
Import JS Regex Spec IssueTypes Remote IssueSync IssueIndex IssueRun SyncRead.

Variable octokit : Octokit.
Variable repo' : RepoContext.
Variable config : IssueSyncConfig.

Lemma bodiesMatch_refl (b : str) : IssueFormat.bodiesMatch b b = true.
Proof. unfold IssueFormat.bodiesMatch. by apply str_eqb_eq. Qed.

Lemma managed_entry_rendered (n : N) (change : ChangeProposal) :
  marker_id (id change) →
  managed_entry (rendered config n change) = [listed config n change].
Proof.
  intros Hid. unfold managed_entry, rendered. cbn [api_pull_request api_body].
  cbn [from_option Datatypes.id]. rewrite extract_formatIssueBody by done.
  destruct Hid as (Hne & _). unfold listed. by destruct (id change).
Qed.

Lemma flat_map_rendered (numbers : list N) (changes : list ChangeProposal) :
  Forall (λ c, marker_id (id c)) changes →
  flat_map managed_entry (zip_with (rendered config) numbers changes)
  = zip_with (listed config) numbers changes.
Proof.
  intros Hall. revert numbers.
  induction Hall as [|c cs Hc Hcs IH]; intros [|n ns]; [done..|].
  cbn [zip_with flat_map]. by rewrite managed_entry_rendered, IH.
Qed.

Lemma build_issueMap_None (managedIssues : list ManagedIssue) (k : str) :
  build_issueMap managedIssues !! k = None
  ↔ k ∉ List.map changeId managedIssues.
Proof.
  rewrite build_issueMap_lookup.
  induction managedIssues as [|m ms IH] using rev_ind.
  - split; [intros _; by apply not_elem_of_nil|done].
  - rewrite List.filter_app, last_app, List.map_app. simpl.
    rewrite not_elem_of_app.
    destruct (decide (changeId m = k)) as [Hk|Hk].
    + rewrite bool_decide_true by done. simpl. split; [done|].
      intros [_ Hn]. exfalso. apply Hn. rewrite Hk. by left.
    + rewrite bool_decide_false by done. simpl. rewrite IH.
      split; [|by intros [? _]]. intros Hn. split; [done|].
      by intros ->%list_elem_of_singleton.
Qed.

Lemma changeId_listed (numbers : list N) (changes : list ChangeProposal)
    (m : ManagedIssue) :
  m ∈ zip_with (listed config) numbers changes →
  ∃ n c, c ∈ changes ∧ m = listed config n c.
Proof.
  intros (n & c & -> & _ & Hc)%elem_of_zip_with. by exists n, c.
Qed.

Lemma NoDup_id_inj (changes : list ChangeProposal) (c c' : ChangeProposal) :
  NoDup (List.map id changes) → c ∈ changes → c' ∈ changes →
  id c = id c' → c = c'.
Proof.
  intros Hnd [i Hi]%list_elem_of_lookup [j Hj]%list_elem_of_lookup Heq.
  assert (i = j) as ->; [|congruence].
  eapply NoDup_lookup; [exact Hnd|..].
  - change (List.map id changes) with (id <$> changes).
    by rewrite list_lookup_fmap, Hi.
  - change (List.map id changes) with (id <$> changes).
    by rewrite list_lookup_fmap, Hj, Heq.
Qed.

Lemma issueMap_listed (numbers : list N) (changes : list ChangeProposal)
    (c : ChangeProposal) :
  NoDup (List.map id changes) → length numbers = length changes →
  c ∈ changes →
  ∃ n, build_issueMap (zip_with (listed config) numbers changes) !! id c
       = Some (listed config n c).
Proof.
  intros Hnd Hlen Hc.
  destruct (build_issueMap _ !! id c) as [m|] eqn:Hm.
  - apply build_issueMap_elem in Hm as [Hin Hid].
    apply changeId_listed in Hin as (n & c' & Hc' & ->).
    cbn [changeId listed] in Hid.
    rewrite (NoDup_id_inj changes c' c Hnd Hc' Hc Hid). by exists n.
  - apply build_issueMap_None in Hm. exfalso. apply Hm.
    apply list_elem_of_lookup in Hc as [i Hi].
    destruct (lookup_lt_is_Some_2 numbers i) as [n Hn].
    { rewrite Hlen. by eapply lookup_lt_Some. }
    apply list_elem_of_In, in_map_iff. exists (listed config n c).
    split; [done|]. apply list_elem_of_In.
    apply (list_elem_of_lookup_2 _ i).
    by rewrite lookup_zip_with, Hn, Hi.
Qed.

Lemma fold_left_id {A B} (f : A → B → A) (l : list B) (a : A) :
  (∀ b, b ∈ l → f a b = a) → fold_left f l a = a.
Proof.
  induction l as [|b l IH]; [done|]. intros Hf. simpl.
  rewrite Hf by left. apply IH. intros b' Hb'. apply Hf. by right.
Qed.

Lemma syncActiveChange_listed (n : N) (change : ChangeProposal)
    (labels' : list str) (log : list Request) :
  syncActiveChange octokit repo' change config labels'
    (Some (listed config n change)) log = (Ok Skipped, log).
Proof.
  unfold syncActiveChange, listed. cbn [state body title number].
  destruct (updateExisting config); [|done]. cbn [negb state_eqb].
  rewrite bodiesMatch_refl. by rewrite (proj2 (str_eqb_eq _ _) eq_refl).
Qed.

(** X6: a run that finds, for every active change, the open issue the
    action itself renders for it leaves the repository alone.  When
    the listing returns for each active change (distinct ids that the
    marker pattern reads back) an open issue with the rendered title
    and body, [findManagedIssues] recognises all of them and the
    reconciliation sends no request and reports nothing created,
    updated, closed or failed, provided no archived change shares an
    id with an active one. *)
Theorem second_run_quiet (paginate : Paginate) (numbers : list N)
    (activeChanges archivedChanges : list ChangeProposal)
    (log : list Request) :
  NoDup (List.map id activeChanges) →
  Forall (λ c, marker_id (id c)) activeChanges →
  length numbers = length activeChanges →
  (∀ c, c ∈ archivedChanges → id c ∉ List.map id activeChanges) →
  paginate (spectrLabel config) (owner repo') (repo repo')
  = Ok (zip_with (rendered config) numbers activeChanges) →
  ∃ managedIssues,
    findManagedIssues paginate repo' (spectrLabel config) = Ok managedIssues
    ∧ length managedIssues = length activeChanges
    ∧ reconcile octokit repo' config activeChanges archivedChanges
        managedIssues log
      = (quiet_result (length activeChanges), log).
Proof.
  intros Hnd Hids Hlen Harch Hpag.
  exists (zip_with (listed config) numbers activeChanges).
  unfold findManagedIssues. rewrite Hpag, flat_map_rendered by done.
  split; [done|]. split; [rewrite length_zip_with; lia|].
  unfold reconcile. rewrite fold_left_id.
  - unfold closeArchivedChanges. destruct (closeOnArchive config); [|done].
    apply fold_left_id. intros c Hc. unfold archived_step.
    assert (build_issueMap (zip_with (listed config) numbers activeChanges)
              !! id c = None) as ->; [|done].
    apply build_issueMap_None. intros Hin. apply (Harch c Hc).
    apply list_elem_of_In, in_map_iff in Hin as (m & Hm & Hin).
    apply list_elem_of_In, changeId_listed in Hin as (n & c' & Hc' & ->).
    cbn [changeId listed] in Hm. rewrite <-Hm.
    apply list_elem_of_In, in_map. by apply list_elem_of_In.
  - intros c Hc. unfold active_step.
    destruct (issueMap_listed numbers activeChanges c Hnd Hlen Hc)
      as [n ->].
    by rewrite syncActiveChange_listed.
Qed.

Lemma creates_only_loop (changes : list ChangeProposal)
    (managedIssues : list ManagedIssue) :
  updateExisting config = false →
  ∀ (r0 : SyncResult) (log : list Request),
    updated r0 = 0%nat ∧ closed r0 = 0%nat →
    let st := fold_left
                (active_step octokit repo' config (allLabels config)
                   (build_issueMap managedIssues)) changes (r0, log) in
    st.2
    = log ++ List.map (create_request repo' config)
               (List.filter
                  (λ c, bool_decide (id c ∉ List.map changeId managedIssues))
                  changes)
    ∧ updated st.1 = 0%nat ∧ closed st.1 = 0%nat.
Proof.
  intros Hup. induction changes as [|c cs IH]; intros r0 log Hr0; cbn zeta.
  - simpl. by rewrite app_nil_r.
  - cbn [fold_left List.filter].
    destruct (build_issueMap managedIssues !! id c) as [m|] eqn:Hm.
    + assert (active_step octokit repo' config (allLabels config)
                (build_issueMap managedIssues) (r0, log) c = (r0, log))
        as ->.
      { unfold active_step, syncActiveChange. by rewrite Hm, Hup. }
      rewrite bool_decide_false.
      2:{ intros Hn%build_issueMap_None. congruence. }
      exact (IH r0 log Hr0).
    + rewrite bool_decide_true by by apply build_issueMap_None.
      cbn [List.map].
      assert (∃ r1, active_step octokit repo' config (allLabels config)
                      (build_issueMap managedIssues) (r0, log) c
                    = (r1, log ++ [create_request repo' config c])
                    ∧ updated r1 = 0%nat ∧ closed r1 = 0%nat)
        as (r1 & -> & Hr1).
      { unfold active_step, syncActiveChange. rewrite Hm.
        unfold createIssue, bind, request, ret.
        fold (create_request repo' config c).
        destruct (octokit log (create_request repo' config c)) as [a|e];
          eexists; (split; [reflexivity|done]). }
      destruct (IH r1 (log ++ [create_request repo' config c]) Hr1)
        as (Hl & Hu & Hc).
      cbn zeta in *. by rewrite Hl, <-app_assoc.
Qed.

(** X7: with [updateExisting] and [closeOnArchive] off, a
    reconciliation never touches an existing issue: its requests are
    exactly the create requests, in order, for the active changes whose
    id no managed issue carries, and nothing is reported updated or
    closed. *)
Theorem reconcile_creates_only
    (activeChanges archivedChanges : list ChangeProposal)
    (managedIssues : list ManagedIssue) (log : list Request) :
  updateExisting config = false → closeOnArchive config = false →
  let run := reconcile octokit repo' config activeChanges archivedChanges
               managedIssues log in
  run.2
  = log ++ List.map (create_request repo' config)
             (List.filter
                (λ c, bool_decide (id c ∉ List.map changeId managedIssues))
                activeChanges)
  ∧ updated run.1 = 0%nat ∧ closed run.1 = 0%nat.
Proof.
  intros Hup Hcl. cbn zeta. unfold reconcile, closeArchivedChanges.
  rewrite Hcl.
  apply (creates_only_loop activeChanges managedIssues Hup). by simpl.
Qed.

End QuietRun.

Section QuietExamples.
Import JS Spec IssueTypes Remote IssueSync IssueIndex IssueRun SyncRead.

Lemma second_run_quiet_witness :
  ∃ managedIssues,
    findManagedIssues DemoRun.paginate Demo.repo (spectrLabel Demo.config)
    = Ok managedIssues
    ∧ length managedIssues = length [Demo.proposal]
    ∧ reconcile Demo.octokit Demo.repo Demo.config [Demo.proposal] []
        managedIssues []
      = (quiet_result (length [Demo.proposal]), []).
Proof.
  apply (second_run_quiet Demo.octokit Demo.repo Demo.config
           DemoRun.paginate [7%N] [Demo.proposal] [] []).
  - compute_done.
  - apply Forall_cons_2; [|apply Forall_nil_2].
    split; [compute_done|]. split; [compute_done|by vm_compute].
  - reflexivity.
  - intros c Hc. by apply elem_of_nil in Hc.
  - reflexivity.
Defined.

Lemma reconcile_creates_only_witness :
  let run := reconcile Demo.octokit Demo.repo DemoRun.frozen_config
               [Demo.proposal] [] [] [] in
  run.2
  = [] ++ List.map (create_request Demo.repo DemoRun.frozen_config)
            (List.filter
               (λ c, bool_decide (id c ∉ List.map changeId []))
               [Demo.proposal])
  ∧ updated run.1 = 0%nat ∧ closed run.1 = 0%nat.
Proof.
  apply (reconcile_creates_only Demo.octokit Demo.repo DemoRun.frozen_config
           [Demo.proposal] [] [] []); reflexivity.
Defined.

End QuietExamples.
(** ** Listing the managed issues *)

Section ListingFacts.
Import JS Regex Spec IssueTypes Remote SyncRead.

Lemma extractChangeIdFromBody_inv (b cid : str) :
  extractChangeIdFromBody b = Some cid →
  cid ≠ [] ∧ id_chars cid.
Proof.
  unfold extractChangeIdFromBody, CHANGE_ID_MARKER_PATTERN.
  destruct (str_match b _) as [m|] eqn:Hm; [|done].
  intros [= <-]. by apply str_match_marker_inv in Hm.
Qed.

Lemma managed_entry_elem (issue : ApiIssue) (m : ManagedIssue) :
  m ∈ managed_entry issue ↔
  api_pull_request issue = false
  ∧ extractChangeIdFromBody (default [] (api_body issue)) = Some (changeId m)
  ∧ m = {| body := default [] (api_body issue);
           changeId := changeId m;
           number := api_number issue;
           state := api_state issue;
           title := api_title issue |}.
Proof.
  unfold managed_entry. destruct (api_pull_request issue).
  { split; [by intros ?%elem_of_nil|by intros [? _]]. }
  destruct (extractChangeIdFromBody _) as [cid|] eqn:Hex.
  - destruct (extractChangeIdFromBody_inv _ _ Hex) as [Hne _].
    destruct cid as [|c cid]; [done|]. cbn [truthy from_option Datatypes.id].
    rewrite list_elem_of_singleton. split.
    + intros ->. by cbn.
    + intros (_ & [= Hc] & ->). by rewrite <-Hc.
  - cbn [truthy]. split; [by intros ?%elem_of_nil|by intros (_ & ? & _)].
Qed.

(** X8: what [findManagedIssues] keeps of a listing.  A failure of the
    listing is passed on.  Otherwise the managed issues are exactly
    the listed entries that are not pull requests and whose body
    (empty when absent) carries a change id marker, with the number,
    state, title and body of the entry and the marker's id, which is
    never empty and lies in [[a-zA-Z0-9_-]]; the order of the listing
    is kept. *)
Theorem findManagedIssues_listing (paginate : Paginate)
    (repo' : RepoContext) (spectrLabel' : str) :
  match paginate spectrLabel' (owner repo') (repo repo') with
  | Throw e => findManagedIssues paginate repo' spectrLabel' = Throw e
  | Ok issues =>
      ∃ managedIssues,
        findManagedIssues paginate repo' spectrLabel' = Ok managedIssues
        ∧ (∀ m, m ∈ managedIssues ↔
             ∃ issue, issue ∈ issues
               ∧ api_pull_request issue = false
               ∧ extractChangeIdFromBody (default [] (api_body issue))
                 = Some (changeId m)
               ∧ m = {| body := default [] (api_body issue);
                        changeId := changeId m;
                        number := api_number issue;
                        state := api_state issue;
                        title := api_title issue |})
        ∧ Forall (λ m, changeId m ≠ [] ∧ id_chars (changeId m)
                       ∧ extractChangeIdFromBody (body m)
                         = Some (changeId m)) managedIssues
        ∧ List.map number managedIssues
          `sublist_of` List.map api_number issues
  end.
Proof.
  unfold findManagedIssues.
  destruct (paginate _ _ _) as [issues|e]; [|done].
  eexists. split; [reflexivity|]. split; [|split].
  - intros m. rewrite list_elem_of_In, in_flat_map. split.
    + intros (issue & Hin & Hm). exists issue.
      split; [by apply list_elem_of_In|].
      by apply managed_entry_elem, list_elem_of_In.
    + intros (issue & Hin & Hm). exists issue.
      split; [by apply list_elem_of_In|].
      by apply list_elem_of_In, managed_entry_elem.
  - apply Forall_forall. intros m Hm.
    apply list_elem_of_In, in_flat_map in Hm as (issue & _ & Hm).
    apply list_elem_of_In, managed_entry_elem in Hm as (_ & Hex & Heq).
    destruct (extractChangeIdFromBody_inv _ _ Hex) as [Hne Hid].
    split; [done|]. split; [done|]. rewrite Heq. by cbn.
  - induction issues as [|issue issues IH]; [done|].
    cbn [flat_map List.map]. rewrite List.map_app.
    unfold managed_entry at 1. destruct (api_pull_request issue).
    { by apply sublist_cons. }
    destruct (truthy _); [|by apply sublist_cons].
    cbn. by apply sublist_skip.
Qed.

End ListingFacts.
(** ** Inputs and the repository context *)

Section SplitTrimFacts.
Import JS Spec.

Lemma split_nonempty (sep : N) (s : str) : split sep s ≠ [].
Proof.
  induction s as [|c t IH]; [done|]. simpl.
  destruct (c =? sep)%N; [done|]. by destruct (split sep t).
Qed.

Lemma split_no_sep (sep : N) (p : str) : sep ∉ p → split sep p = [p].
Proof.
  induction p as [|c t IH]; [done|]. intros [Hc Ht]%not_elem_of_cons.
  simpl. rewrite (proj2 (N.eqb_neq c sep)) by done. by rewrite IH.
Qed.

Lemma split_app_sep (sep : N) (p rest : str) :
  sep ∉ p → split sep (p ++ sep :: rest) = p :: split sep rest.
Proof.
  induction p as [|c t IH]; intros Hp.
  - simpl. by rewrite N.eqb_refl.
  - apply not_elem_of_cons in Hp as [Hc Ht]. simpl.
    rewrite (proj2 (N.eqb_neq c sep)) by done. by rewrite IH.
Qed.

Lemma split_inv (sep : N) (s p : str) (ps : list str) :
  split sep s = p :: ps →
  (sep ∉ p)
  ∧ ((ps = [] ∧ s = p)
     ∨ ∃ rest, s = p ++ sep :: rest ∧ split sep rest = ps).
Proof.
  revert p ps. induction s as [|c t IH]; intros p ps.
  - simpl. intros [= <- <-]. split; [apply not_elem_of_nil|by left].
  - simpl. destruct (c =? sep)%N eqn:Hc.
    + apply N.eqb_eq in Hc as ->. intros [= <- <-].
      split; [apply not_elem_of_nil|]. right. by exists t.
    + apply N.eqb_neq in Hc.
      destruct (split sep t) as [|w ws] eqn:Hs;
        [by apply split_nonempty in Hs|].
      intros [= <- <-]. destruct (IH w ws eq_refl) as [Hw Hcase].
      split; [by apply not_elem_of_cons|].
      destruct Hcase as [[-> ->]|(rest & -> & Hrest)]; [by left|].
      right. by exists rest.
Qed.

Lemma split_parts_no_sep (sep : N) (s : str) :
  Forall (λ p, sep ∉ p) (split sep s).
Proof.
  induction s as [|c t IH]; simpl.
  - apply Forall_cons_2; [apply not_elem_of_nil|apply Forall_nil_2].
  - destruct (c =? sep)%N eqn:Hc.
    + apply Forall_cons_2; [apply not_elem_of_nil|done].
    + apply N.eqb_neq in Hc. destruct (split sep t) as [|w ws].
      * apply Forall_cons_2; [|apply Forall_nil_2].
        apply not_elem_of_cons. split; [done|apply not_elem_of_nil].
      * apply Forall_cons in IH as [Hw Hws].
        apply Forall_cons_2; [by apply not_elem_of_cons|done].
Qed.

Lemma split_join (sep : N) (ps : list str) :
  ps ≠ [] → Forall (λ p, sep ∉ p) ps → split sep (join [sep] ps) = ps.
Proof.
  intros Hne Hall. induction Hall as [|p ps Hp Hps IH]; [done|].
  destruct ps as [|q ps].
  - simpl. by apply split_no_sep.
  - rewrite join_cons2. cbn [app].
    rewrite split_app_sep by done. by rewrite IH.
Qed.

Lemma trimStart_elem (c : N) (s : str) : c ∈ trimStart s → c ∈ s.
Proof.
  induction s as [|a t IH]; [done|]. simpl.
  destruct (is_ws a); [|done]. intros Hc. right. by apply IH.
Qed.

Lemma trimEnd_elem (c : N) (s : str) : c ∈ trimEnd s → c ∈ s.
Proof.
  induction s as [|a t IH]; [done|]. simpl.
  destruct (trimEnd t) as [|b t'].
  - destruct (is_ws a); [by intros ?%elem_of_nil|].
    intros ->%list_elem_of_singleton. by left.
  - intros [->|Hc]%elem_of_cons; [by left|]. right. by apply IH.
Qed.

Lemma trim_elem (c : N) (s : str) : c ∈ trim s → c ∈ s.
Proof. intros Hc. by apply trimStart_elem, trimEnd_elem. Qed.

Lemma trimStart_is_stops (s : str) : stops is_ws (trimStart s).
Proof.
  induction s as [|a t IH]; [done|]. simpl.
  destruct (is_ws a) eqn:Ha; [done|]. by simpl.
Qed.

Lemma trimEnd_stops (s : str) : stops is_ws s → stops is_ws (trimEnd s).
Proof.
  destruct s as [|a t]; [done|]. simpl. intros Ha.
  destruct (trimEnd t); [by rewrite Ha|done].
Qed.

Lemma trimEnd_idem (s : str) : trimEnd (trimEnd s) = trimEnd s.
Proof.
  induction s as [|a t IH]; [done|]. cbn [trimEnd].
  destruct (trimEnd t) as [|b t'] eqn:Ht.
  - destruct (is_ws a) eqn:Ha; [done|]. simpl. by rewrite Ha.
  - change (trimEnd (a :: b :: t'))
      with (match trimEnd (b :: t') with
            | [] => if is_ws a then [] else [a]
            | x => a :: x
            end).
    by rewrite IH.
Qed.

Lemma trim_idem (s : str) : trim (trim s) = trim s.
Proof.
  unfold trim.
  rewrite (trimStart_stops (trimEnd (trimStart s)))
    by apply trimEnd_stops, trimStart_is_stops.
  apply trimEnd_idem.
Qed.

End SplitTrimFacts.

Section InputsFacts.
Import JS Spec IssueTypes Inputs IssueRun.

Lemma parseLabels_all_clean (labelsInput : str) :
  Forall clean_label (parseLabels labelsInput).
Proof.
  unfold parseLabels. apply Forall_forall. intros l Hl.
  apply list_elem_of_In, filter_In in Hl as [Hin Hlen].
  apply in_map_iff in Hin as (w & <- & Hw).
  pose proof (split_parts_no_sep 44%N labelsInput) as Hsep.
  rewrite Forall_forall in Hsep.
  specialize (Hsep w ltac:(by apply list_elem_of_In)).
  split; [|split].
  - apply Z.ltb_lt in Hlen. intros Hnil. rewrite Hnil in Hlen.
    unfold len in Hlen. simpl in Hlen. lia.
  - apply trim_idem.
  - intros Hc. by apply Hsep, trim_elem.
Qed.

Lemma parseLabels_padded (padded labels : list str) :
  Forall2 (λ p l, trim p = l) padded labels →
  Forall (λ p, 44%N ∉ p) padded → Forall (λ l, l ≠ []) labels →
  parseLabels (join [44%N] padded) = labels.
Proof.
  intros Htrim Hsep Hne. unfold parseLabels.
  destruct padded as [|p ps].
  { apply Forall2_nil_inv_l in Htrim as ->. done. }
  rewrite split_join by done. clear Hsep.
  induction Htrim as [|q l qs ls Hq Hqs IH]; [done|].
  apply Forall_cons in Hne as [Hl Hls]. cbn [List.map List.filter].
  rewrite Hq. destruct l as [|c l]; [done|].
  change (0 <? len (c :: l)) with true. cbn iota. by rewrite IH.
Qed.

(** X9: [parseLabels] keeps clean labels only and loses none.  Every
    label it returns is non-empty, has no whitespace around it and
    holds no comma; and when labels that are each padded with
    whitespace are joined with commas, it gives back exactly the
    labels, trimmed, in order, as long as none is blank. *)
Theorem parseLabels_labels :
  (∀ labelsInput, Forall clean_label (parseLabels labelsInput))
  ∧ (∀ padded labels : list str,
       Forall2 (λ p l, trim p = l) padded labels →
       Forall (λ p, 44%N ∉ p) padded → Forall (λ l, l ≠ []) labels →
       parseLabels (join [44%N] padded) = labels).
Proof. split; [apply parseLabels_all_clean|apply parseLabels_padded]. Qed.

Context `{ActionInputs}.

Lemma or_default_nonempty (s d : str) : d ≠ [] → or_default s d ≠ [].
Proof. by destruct s. Qed.

(** X10: the configuration read from the inputs.  The management
    label and the title prefix are never empty (an empty input falls
    back to [spectr-managed] and [[Spectr Change]]), every configured
    label is clean, so every label the action applies to an issue is
    non-empty; with no [issue-labels] input the labels are [spectr]
    and [change-proposal]; and sync is enabled only by an input that
    lower-cases to [true]. *)
Theorem getIssueSyncConfig_labels :
  let config := getIssueSyncConfig in
  spectrLabel config ≠ [] ∧ titlePrefix config ≠ []
  ∧ Forall clean_label (labels config)
  ∧ Forall (λ l, l ≠ []) (allLabels config)
  ∧ (getInput (lit "spectr-label") = [] →
     spectrLabel config = lit "spectr-managed")
  ∧ (getInput (lit "issue-labels") = [] →
     labels config = [lit "spectr"; lit "change-proposal"])
  ∧ (enabled config = true ↔
     toLowerCase (getInput (lit "sync-issues")) = lit "true").
Proof.
  cbn zeta. unfold getIssueSyncConfig.
  cbn [spectrLabel titlePrefix labels enabled].
  assert (or_default (getInput (lit "spectr-label")) (lit "spectr-managed")
          ≠ []) as Hsl by by apply or_default_nonempty.
  split; [done|]. split; [by apply or_default_nonempty|].
  split; [apply parseLabels_all_clean|]. split; [|split; [|split]].
  - unfold allLabels. cbn [spectrLabel labels].
    assert (Forall (λ l : str, l ≠ [])
              (parseLabels (or_default (getInput (lit "issue-labels"))
                              (lit "spectr,change-proposal")))) as Hls.
    { eapply Forall_impl; [apply parseLabels_all_clean|]. by intros l [? _]. }
    destruct (existsb _ _); [done|].
    apply Forall_app. split; [done|].
    apply Forall_cons_2; [done|apply Forall_nil_2].
  - by intros ->.
  - intros ->. by vm_compute.
  - apply str_eqb_eq.
Qed.

End InputsFacts.

Section InputsExamples.
Import JS Spec Inputs.

Lemma parseLabels_labels_witness :
  parseLabels (join [44%N] [lit " bug"; lit "needs review "])
  = [lit "bug"; lit "needs review"].
Proof.
  apply (proj2 parseLabels_labels).
  - constructor; [by vm_compute|].
    constructor; [by vm_compute|constructor].
  - compute_done.
  - compute_done.
Defined.

End InputsExamples.

Section RepoFacts.
Import JS Spec IssueTypes Remote SyncRead.
Context `{Process}.

Lemma split_repository (repository o r : str) :
  (∃ more, split 47%N repository = o :: r :: more) ↔
  (47%N ∉ o) ∧ (47%N ∉ r)
  ∧ ∃ rest, repository = o ++ 47%N :: r ++ rest
            ∧ (rest = [] ∨ ∃ t, rest = 47%N :: t).
Proof.
  split.
  - intros [more Hs].
    apply split_inv in Hs as [Ho [[? _]|(rest1 & -> & Hs)]]; [done|].
    apply split_inv in Hs as [Hr [[_ ->]|(rest2 & -> & Hs)]].
    + split; [done|]. split; [done|]. exists []. rewrite app_nil_r.
      split; [done|by left].
    + split; [done|]. split; [done|]. exists (47%N :: rest2).
      split; [done|]. right. by exists rest2.
  - intros (Ho & Hr & rest & -> & [->|[t ->]]).
    + exists []. rewrite app_nil_r, split_app_sep by done.
      by rewrite split_no_sep.
    + exists (split 47%N t). by rewrite !split_app_sep.
Qed.

Lemma getRepoContext_Ok (o r : str) :
  getRepoContext = Ok {| owner := o; repo := r |} ↔
  ∃ repository, env (lit "GITHUB_REPOSITORY") = Some repository
                ∧ repository_of repository o r.
Proof.
  unfold getRepoContext, repository_of.
  destruct (env _) as [repository|]; [|split; [done|by intros (? & ? & _)]].
  destruct repository as [|c s];
    [split; [done|]; intros (? & [= <-] & _ & _ & _ & _ & rest & Hr & _);
     by destruct o|].
  cbn [truthy negb from_option Datatypes.id].
  set (repository := c :: s).
  destruct (split 47%N repository) as [|o' [|r' more]] eqn:Hs.
  - by apply split_nonempty in Hs.
  - cbn [lookup list_lookup truthy negb orb].
    rewrite orb_true_r. split; [done|].
    intros (? & [= <-] & _ & _ & Ho & Hr & Hrest).
    destruct (proj2 (split_repository repository o r)
                (conj Ho (conj Hr Hrest))) as [more Hm].
    congruence.
  - cbn [lookup list_lookup].
    destruct o' as [|a o']; cbn [truthy negb orb].
    { split; [done|]. intros (? & [= <-] & Hne & _ & Ho & Hr & Hrest).
      destruct (proj2 (split_repository repository o r)
                  (conj Ho (conj Hr Hrest))) as [more' Hm].
      congruence. }
    destruct r' as [|b r']; cbn [truthy negb orb].
    { split; [done|]. intros (? & [= <-] & _ & Hne & Ho & Hr & Hrest).
      destruct (proj2 (split_repository repository o r)
                  (conj Ho (conj Hr Hrest))) as [more' Hm].
      congruence. }
    cbn [from_option Datatypes.id]. split.
    + intros [= <- <-]. exists repository. split; [done|].
      split; [done|]. split; [done|].
      by apply split_repository; exists more.
    + intros (? & [= <-] & _ & _ & Ho & Hr & Hrest).
      destruct (proj2 (split_repository repository o r)
                  (conj Ho (conj Hr Hrest))) as [more' Hm].
      congruence.
Qed.

Lemma getRepoContext_Throw :
  match getRepoContext with
  | Ok _ => True
  | Throw e =>
      match env (lit "GITHUB_REPOSITORY") with
      | None | Some [] =>
          e = lit "GITHUB_REPOSITORY environment variable is not set"
      | Some repository =>
          e = lit "Invalid GITHUB_REPOSITORY format: " ++ repository
      end
  end.
Proof.
  unfold getRepoContext.
  destruct (env _) as [[|c s]|]; [done| |done].
  cbn [truthy negb]. by destruct (negb _ || negb _).
Qed.

(** X11: [getRepoContext] reads the owner and the repository from
    the first two fields of [GITHUB_REPOSITORY].  It returns a context
    exactly when the variable is [<owner>/<repo>], possibly followed by
    [/] and more that is ignored, with a non-empty owner and
    repository name free of [/]; otherwise it throws, with the
    message that the variable is not set when it is absent or empty
    and with the message that names the offending value when it is
    malformed.  The copy of the function in the PR impact module is
    the same function. *)
Theorem getRepoContext_fields :
  (∀ o r : str,
     getRepoContext = Ok {| owner := o; repo := r |} ↔
     ∃ repository, env (lit "GITHUB_REPOSITORY") = Some repository
                   ∧ repository_of repository o r)
  ∧ match getRepoContext with
    | Ok _ => True
    | Throw e =>
        match env (lit "GITHUB_REPOSITORY") with
        | None | Some [] =>
            e = lit "GITHUB_REPOSITORY environment variable is not set"
        | Some repository =>
            e = lit "Invalid GITHUB_REPOSITORY format: " ++ repository
        end
    end
  ∧ PrComment.getRepoContext = getRepoContext.
Proof.
  split; [apply getRepoContext_Ok|]. split; [apply getRepoContext_Throw|done].
Qed.

End RepoFacts.
(** ** The PR impact run *)

Section DetectFacts.
Import JS Regex Spec PrTypes Detect PrDetect.

Lemma rmatch_alt_inv r1 r2 caps pos s k r :
  rmatch (RAlt r1 r2) caps pos s k = Some r →
  rmatch r1 caps pos s k = Some r ∨ rmatch r2 caps pos s k = Some r.
Proof.
  rewrite rmatch_alt. destruct (rmatch r1 caps pos s k); [by left|by right].
Qed.

Lemma branch_tail_inv caps pos s r :
  rmatch (RSeq (RLit (lit "/")) (RSeq (RGroup (RPlus is_dot)) (REnd false)))
    caps pos s accept = Some r →
  ∃ rest, rest ≠ [] ∧ Forall (λ c, is_dot c = true) rest
          ∧ s = lit "/" ++ rest.
Proof.
  rewrite rmatch_seq. intros (t & -> & H)%rmatch_lit_inv.
  rewrite rmatch_seq in H.
  apply rmatch_group_plus_inv in H as (n & [Hn1 Hn2] & Hall & H).
  cbn [rmatch] in H. destruct (drop n t) as [|c t'] eqn:Hd; [|done].
  exists t. assert (length t ≤ n)%nat as Hlen.
  { destruct (decide (length t ≤ n)%nat); [done|].
    assert (length (drop n t) = 0%nat) as Hl by by rewrite Hd.
    rewrite length_drop in Hl. lia. }
  rewrite take_ge in Hall by done.
  split; [|done]. destruct t; [simpl in *; lia|done].
Qed.

(** The branch names the pattern accepts. *)
Lemma str_match_branch_inv (b : str) (m : list str) :
  str_match b SPECTR_BRANCH_PATTERN = Some m →
  ∃ md rest, rest ≠ [] ∧ Forall (λ c, is_dot c = true) rest
             ∧ b = lit "spectr/" ++ mode_name md ++ lit "/" ++ rest.
Proof.
  unfold str_match.
  destruct (exec_from _ _ _) as [[[bg e] caps]|] eqn:He; [|done]. intros _.
  apply exec_from_inv in He as (n & _ & -> & Hm).
  unfold match_at, SPECTR_BRANCH_PATTERN in Hm. rewrite rmatch_seq in Hm.
  destruct n as [|n]; [|done]. rewrite drop_0 in Hm.
  cbn [Nat.add] in Hm. rewrite rmatch_begin, rmatch_seq in Hm.
  apply rmatch_lit_inv in Hm as (t & -> & Hm).
  rewrite rmatch_seq, rmatch_group in Hm.
  apply rmatch_alt_inv in Hm as [Hm|Hm];
    [|apply rmatch_alt_inv in Hm as [Hm|Hm]];
    apply rmatch_lit_inv in Hm as (t' & -> & Hm);
    apply branch_tail_inv in Hm as (rest & Hne & Hall & ->).
  - by exists proposal, rest.
  - by exists archive, rest.
  - by exists remove, rest.
Qed.

Lemma parseSpectrBranch_inv (b : str) :
  isSpectrBranch (parseSpectrBranch b) = true →
  ∃ md rest, rest ≠ [] ∧ Forall (λ c, is_dot c = true) rest
             ∧ b = lit "spectr/" ++ mode_name md ++ lit "/" ++ rest
             ∧ parseSpectrBranch b
               = {| Detect.changeId := Some rest; isSpectrBranch := true;
                    Detect.mode := Some md |}.
Proof.
  unfold parseSpectrBranch at 1.
  destruct (str_match b _) as [m|] eqn:Hm; [|done]. intros _.
  apply str_match_branch_inv in Hm as (md & rest & Hne & Hall & ->).
  exists md, rest. by rewrite parseSpectrBranch_spectr.
Qed.

Lemma parseSpectrBranch_not (b : str) :
  isSpectrBranch (parseSpectrBranch b) = false →
  Detect.changeId (parseSpectrBranch b) = None
  ∧ Detect.mode (parseSpectrBranch b) = None.
Proof.
  unfold parseSpectrBranch. by destruct (str_match b _).
Qed.

Lemma indexOf_prefix (p t : str) : indexOf (p ++ t) p = 0.
Proof.
  unfold indexOf. pose proof (startsWith_app p t) as Hs.
  destruct (p ++ t); cbn [indexOf_from]; by rewrite Hs.
Qed.

Lemma replace_first_prefix (p t : str) : replace_first (p ++ t) p [] = t.
Proof.
  unfold replace_first. rewrite indexOf_prefix.
  change (0 =? -1) with false. cbn iota.
  replace (Z.to_nat (0 + len p)) with (length p) by (unfold len; lia).
  by rewrite drop_app_length.
Qed.

Context `{Process} `{EventFile}.

Lemma getPRNumberFromEvent_truthy :
  getPRNumberFromEvent = None ∨ truthy_num getPRNumberFromEvent = true.
Proof.
  unfold getPRNumberFromEvent.
  destruct (truthy (env _)); [|by left]. cbn [negb].
  destruct (read_payload _) as [eventData|]; [|by left].
  destruct (truthy_num (pull_request_number eventData)) eqn:Hp; [by right|].
  destruct (issue_pull_request eventData); [|by left]. cbn [andb].
  destruct (truthy_num (issue_number eventData)) eqn:Hi; [by right|by left].
Qed.

Lemma detectPRContext_shape :
  let ctx := detectPRContext in
  isPR ctx = isPullRequestEvent
  ∧ branchName ctx = getHeadBranchName
  ∧ prNumber ctx ≠ Some 0%N
  ∧ if isSpectrPR ctx
    then isPR ctx = true
         ∧ ∃ md rest, rest ≠ [] ∧ Forall (λ c, is_dot c = true) rest
             ∧ branchName ctx
               = Some (lit "spectr/" ++ mode_name md ++ lit "/" ++ rest)
             ∧ ctx_changeId ctx = Some rest ∧ ctx_mode ctx = Some md
    else ctx_changeId ctx = None ∧ ctx_mode ctx = None.
Proof.
  cbn zeta. unfold detectPRContext.
  assert (getPRNumberFromEvent ≠ Some 0%N) as Hnum.
  { destruct getPRNumberFromEvent_truthy as [->| Ht]; [done|].
    intros Hz. by rewrite Hz in Ht. }
  destruct isPullRequestEvent; cbn [negb orb]; [|done].
  destruct getHeadBranchName as [[|c b]|] eqn:Hb; cbn [truthy negb];
    [done| |done].
  cbn [isPR branchName prNumber isSpectrPR ctx_changeId ctx_mode].
  split; [done|]. split; [done|]. split; [done|].
  change (default [] (Some (c :: b))) with (c :: b).
  destruct (isSpectrBranch (parseSpectrBranch (c :: b))) eqn:Hs.
  - apply parseSpectrBranch_inv in Hs
      as (md & rest & Hne & Hall & Heq & ->).
    split; [done|]. exists md, rest. by rewrite <-Heq.
  - by apply parseSpectrBranch_not.
Qed.

(** X12: what [detectPRContext] reports.  A PR number is never 0.  The
    context is a spectr PR only on a pull request event whose head
    branch is [spectr/<mode>/<rest>] with one of the three modes and a
    non-empty remainder free of line terminators, and then the change
    id is that remainder and the mode that mode: the change id and the
    mode of a spectr PR are never missing or empty.  Otherwise both
    are absent. *)
Theorem detectPRContext_spectr :
  let ctx := detectPRContext in
  isPR ctx = isPullRequestEvent
  ∧ branchName ctx = getHeadBranchName
  ∧ prNumber ctx ≠ Some 0%N
  ∧ if isSpectrPR ctx
    then isPR ctx = true
         ∧ ∃ md rest, rest ≠ [] ∧ Forall (λ c, is_dot c = true) rest
             ∧ branchName ctx
               = Some (lit "spectr/" ++ mode_name md ++ lit "/" ++ rest)
             ∧ ctx_changeId ctx = Some rest ∧ ctx_mode ctx = Some md
    else ctx_changeId ctx = None ∧ ctx_mode ctx = None.
Proof. exact detectPRContext_shape. Qed.

(** X13: where the head branch is read.  A non-empty [GITHUB_HEAD_REF]
    is the branch; failing that, a [GITHUB_REF] of the form
    [refs/heads/<branch>] gives [<branch>] whole, also when the branch
    name itself contains [refs/heads/]. *)
Theorem getHeadBranchName_ref (branch : str) :
  (truthy (env (lit "GITHUB_HEAD_REF")) = true →
   getHeadBranchName = env (lit "GITHUB_HEAD_REF"))
  ∧ (truthy (env (lit "GITHUB_HEAD_REF")) = false →
     env (lit "GITHUB_REF") = Some (lit "refs/heads/" ++ branch) →
     getHeadBranchName = Some branch).
Proof.
  unfold getHeadBranchName. split.
  - by intros ->.
  - intros -> ->. rewrite startsWith_app.
    cbn [from_option Datatypes.id]. by rewrite replace_first_prefix.
Qed.

End DetectFacts.

Section RunFacts.
Import JS Spec IssueTypes PrTypes Remote PrRemote PrDetect PrComment Inputs
  PrRun.
Context `{Host} `{Process} `{EventFile} `{RegExpEngine}.

Lemma truthy_num_Some (o : option N) :
  truthy_num o = true → ∃ n, o = Some n ∧ n ≠ 0%N.
Proof.
  destruct o as [n|]; [|done]. simpl. intros Hn%negb_true_iff.
  apply N.eqb_neq in Hn. by exists n.
Qed.

(** X14: what [runPRImpact] does.  Unless the event is a pull request
    from a spectr branch with a PR number, it returns the default
    result and sends nothing.  Otherwise it first reads the
    repository (a failure there ends the run before any request),
    then lists the comments of the PR, and after that sends at most
    one more request, whose body is the comment rendered for the
    calculated impact: a create request on the PR when it reports
    [commentCreated], an update request (only with [updateComment]
    on) when it reports [commentUpdated], and none when it reports
    neither; it never reports both, and a run that ends reports the
    change id and mode of the branch and a comment URL. *)
Theorem runPRImpact_outcome (octokit : PrOctokit) (config : PRImpactConfig)
    (workspacePath : str) (log : list PrRequest) :
  let ctx := detectPRContext in
  let run := runPRImpact octokit config workspacePath log in
  if isPR ctx && isSpectrPR ctx && truthy_num (prNumber ctx)
  then
    ∃ md changeId' n,
      changeId' ≠ [] ∧ ctx_changeId ctx = Some changeId'
      ∧ ctx_mode ctx = Some md ∧ prNumber ctx = Some n ∧ n ≠ 0%N
      ∧ let body :=
          PrFormat.formatPRComment
            (Calculate.calculateSpecImpact changeId' workspacePath md) in
        match getRepoContext with
        | Throw e => run = (Throw e, log)
        | Ok repo' =>
            ∃ new,
              run.2 = log ++ ListComments (owner repo') (repo repo') n :: new
              ∧ match run.1 with
                | Throw _ =>
                    new = []
                    ∨ new = [CreateComment (owner repo') (repo repo') n body]
                    ∨ ∃ cid, new = [UpdateComment (owner repo') (repo repo')
                                      cid body]
                | Ok res =>
                    ran res = true ∧ res_changeId res = Some changeId'
                    ∧ res_mode res = Some md ∧ is_Some (commentUrl res)
                    ∧ match commentCreated res, commentUpdated res with
                      | true, false =>
                          new = [CreateComment (owner repo') (repo repo')
                                   n body]
                      | false, true =>
                          updateComment config = true
                          ∧ ∃ cid, new = [UpdateComment (owner repo')
                                            (repo repo') cid body]
                      | false, false =>
                          updateComment config = true ∧ new = []
                      | true, true => False
                      end
                end
        end
  else run = (Ok defaultResult, log).
Proof.
  cbn zeta. unfold runPRImpact.
  pose proof detectPRContext_shape as (_ & _ & _ & Hctx).
  destruct (isPR detectPRContext); cbn [negb andb]; [|done].
  destruct (isSpectrPR detectPRContext); cbn [negb andb]; [|done].
  destruct (truthy_num (prNumber detectPRContext)) eqn:Hn;
    cbn [negb]; [|done].
  apply truthy_num_Some in Hn as (n & Hn & Hn0).
  destruct Hctx as (_ & md & rest & Hne & _ & _ & Hid & Hmd).
  exists md, rest, n. rewrite Hid, Hmd, Hn.
  do 5 (split; [done|]).
  destruct rest as [|c rest]; [done|]. cbn [from_option Datatypes.id].
  set (body := PrFormat.formatPRComment _).
  unfold pbind at 1. unfold lift at 1.
  destruct getRepoContext as [repo'|e]; [|done].
  unfold findImpactComment, createPRComment, updatePRComment,
    paginate_listComments, pbind, pret, lift.
  destruct (listComments octokit log _ _ _) as [comments|e];
    [|exists []; split; [done|by left]].
  destruct (RegExp_test _) as [test|e];
    [|exists []; split; [done|by left]].
  destruct (first_marked test comments) as [existing|].
  - destruct (updateComment config) eqn:Hup.
    + destruct (PrFormat.commentsMatch _ _); cbn [negb].
      * exists []. split; [done|]. cbn. by repeat split.
      * destruct (PrRemote.updateComment octokit _ _ _ _ _) as [d|e]; cbn.
        -- eexists [_]. split; [by rewrite <-app_assoc|]. cbn.
           repeat split; eauto.
        -- eexists [_]. split; [by rewrite <-app_assoc|]. cbn. eauto.
    + destruct (createComment octokit _ _ _ _ _) as [d|e]; cbn.
      * eexists [_]. split; [by rewrite <-app_assoc|]. cbn.
        by repeat split.
      * eexists [_]. split; [by rewrite <-app_assoc|]. cbn. eauto.
  - destruct (createComment octokit _ _ _ _ _) as [d|e]; cbn.
    + eexists [_]. split; [by rewrite <-app_assoc|]. cbn.
      by repeat split.
    + eexists [_]. split; [by rewrite <-app_assoc|]. cbn. eauto.
Qed.

End RunFacts.

Section CommentFacts.
Import JS Regex Spec IssueTypes PrTypes Remote PrRemote PrComment.

Lemma first_impact_spec (comments : list ApiComment) :
  match first_impact comments with
  | None =>
      Forall (λ c, extractChangeIdFromComment (default [] (c_body c)) = None)
        comments
  | Some found =>
      ∃ before c after,
        comments = before ++ c :: after
        ∧ Forall (λ c, extractChangeIdFromComment (default [] (c_body c))
                       = None) before
        ∧ c_body c = Some (ic_body found) ∧ c_id c = ic_id found
        ∧ extractChangeIdFromComment (ic_body found)
          = Some (ic_changeId found)
        ∧ ic_changeId found ≠ [] ∧ id_chars (ic_changeId found)
  end.
Proof.
  induction comments as [|c rest IH]; [apply Forall_nil_2|].
  cbn [first_impact].
  assert (truthy (c_body c) = false →
          extractChangeIdFromComment (default [] (c_body c)) = None)
    as Hempty.
  { destruct (c_body c) as [[|??]|]; intros Ht; try done; by vm_compute. }
  destruct (truthy (c_body c)) eqn:Ht.
  - destruct (str_match _ PR_IMPACT_MARKER_PATTERN) as [m|] eqn:Hm.
    + exists [], c, rest. split; [done|]. split; [done|].
      cbn [ic_body ic_id ic_changeId].
      destruct (c_body c) as [b|]; [|done]. cbn [from_option Datatypes.id] in *.
      split; [done|]. split; [done|].
      unfold extractChangeIdFromComment. rewrite Hm. split; [done|].
      by apply str_match_marker_inv in Hm.
    + assert (extractChangeIdFromComment (default [] (c_body c)) = None)
        as Hc by (unfold extractChangeIdFromComment; by rewrite Hm).
      destruct (first_impact rest) as [found|].
      * destruct IH as (before & c' & after & -> & Hb & Hrest).
        exists (c :: before), c', after. split; [done|].
        split; [by apply Forall_cons_2|done].
      * by apply Forall_cons_2.
  - specialize (Hempty eq_refl).
    destruct (first_impact rest) as [found|].
    + destruct IH as (before & c' & after & -> & Hb & Hrest).
      exists (c :: before), c', after. split; [done|].
      split; [by apply Forall_cons_2|done].
    + by apply Forall_cons_2.
Qed.

(** X15: [findAnyImpactComment] makes one listing request and passes
    a failure on.  On a listing it answers with the first comment
    whose body carries an impact marker, giving that comment's id and
    body and the marker's change id (never empty, in
    [[a-zA-Z0-9_-]]); it answers null exactly when no comment carries
    a marker. *)
Theorem findAnyImpactComment_first (octokit : PrOctokit)
    (repo' : RepoContext) (prNumber : N) (log : list PrRequest) :
  let run := findAnyImpactComment octokit repo' prNumber log in
  run.2 = log ++ [ListComments (owner repo') (repo repo') prNumber]
  ∧ match listComments octokit log (owner repo') (repo repo') prNumber with
    | Throw e => run.1 = Throw e
    | Ok comments =>
        ∃ answer, run.1 = Ok answer
          ∧ match answer with
            | None =>
                Forall (λ c, extractChangeIdFromComment
                               (default [] (c_body c)) = None) comments
            | Some found =>
                ∃ before c after,
                  comments = before ++ c :: after
                  ∧ Forall (λ c, extractChangeIdFromComment
                                   (default [] (c_body c)) = None) before
                  ∧ c_body c = Some (ic_body found)
                  ∧ c_id c = ic_id found
                  ∧ extractChangeIdFromComment (ic_body found)
                    = Some (ic_changeId found)
                  ∧ ic_changeId found ≠ []
                  ∧ id_chars (ic_changeId found)
            end
    end.
Proof.
  cbn zeta. unfold findAnyImpactComment, paginate_listComments, pbind, pret.
  destruct (listComments octokit log _ _ _) as [comments|e]; [|done].
  split; [done|]. exists (first_impact comments). split; [done|].
  apply first_impact_spec.
Qed.

End CommentFacts.
(** ** Discovery of the change proposals *)

Section DiscoverFacts.
Import JS Spec IssueTypes Discover.
Context `{Host} `{TasksJson}.

Lemma readChangeProposal_discovered (id' changePath : str)
    (archived : bool) (dir : str) (c : ChangeProposal) :
  changePath = path_join [dir; id'] →
  existsSync (path_join [changePath; PROPOSAL_FILE]) = true →
  readChangeProposal id' changePath archived = Some c →
  discovered archived dir c ∧ id c = id'.
Proof.
  intros Hpath Hex. unfold readChangeProposal, readProposalContent.
  destruct (readFileSync _) as [[|x content]|] eqn:Hread; [done| |done].
  cbn [truthy negb]. intros [= <-].
  unfold discovered.
  cbn [isArchived proposalContent path id tasksContent affectedSpecs
       from_option Datatypes.id].
  by rewrite Hread, Hex, <-Hpath.
Qed.

Lemma entries_discovered (archived : bool) (dir : str)
    (entry_of : Dirent → list ChangeProposal)
    (allowed : str → Prop) (entries : list Dirent) :
  (∀ entry c, c ∈ entry_of entry →
     entry_of entry = [c] ∧ d_isDirectory entry = true
     ∧ id c = d_name entry ∧ allowed (id c) ∧ discovered archived dir c) →
  (∀ entry, entry_of entry = [] ∨ ∃ c, entry_of entry = [c]) →
  Forall (λ c, discovered archived dir c ∧ allowed (id c))
    (flat_map entry_of entries)
  ∧ List.map id (flat_map entry_of entries)
    `sublist_of` List.map d_name (List.filter d_isDirectory entries).
Proof.
  intros Hentry Hshape. induction entries as [|entry rest [IH1 IH2]].
  - split; [apply Forall_nil_2|done].
  - cbn [flat_map List.filter].
    destruct (Hshape entry) as [Hnil|[c Hc]].
    + rewrite Hnil. cbn [app]. split; [done|].
      destruct (d_isDirectory entry); [|done]. by apply sublist_cons.
    + destruct (Hentry entry c) as (_ & Hdir & Hid & Hal & Hdisc).
      { rewrite Hc. by apply list_elem_of_singleton. }
      rewrite Hc, Hdir. cbn [app List.map]. split.
      * by apply Forall_cons_2.
      * rewrite Hid. by apply sublist_skip.
Qed.

Lemma active_entry_spec (changesPath : str) (entry : Dirent)
    (c : ChangeProposal) :
  c ∈ active_entry changesPath entry →
  active_entry changesPath entry = [c] ∧ d_isDirectory entry = true
  ∧ id c = d_name entry ∧ id c ≠ lit "archive"
  ∧ discovered false changesPath c.
Proof.
  unfold active_entry. destruct (d_isDirectory entry); [|by intros ?%elem_of_nil].
  cbn [negb orb]. destruct (str_eqb _ _) eqn:Hname; [by intros ?%elem_of_nil|].
  destruct (existsSync _) eqn:Hex; [|by intros ?%elem_of_nil]. cbn [negb].
  destruct (readChangeProposal _ _ _) as [p|] eqn:Hp;
    [|by intros ?%elem_of_nil].
  intros ->%list_elem_of_singleton.
  apply (readChangeProposal_discovered _ _ _ changesPath) in Hp
    as [Hd Hid]; [|done..].
  split; [done|]. split; [done|]. split; [done|]. split; [|done].
  rewrite Hid. intros Heq. apply str_eqb_eq in Heq. congruence.
Qed.

Lemma archived_entry_spec (archivePath : str) (entry : Dirent)
    (c : ChangeProposal) :
  c ∈ archived_entry archivePath entry →
  archived_entry archivePath entry = [c] ∧ d_isDirectory entry = true
  ∧ id c = d_name entry ∧ True
  ∧ discovered true archivePath c.
Proof.
  unfold archived_entry.
  destruct (d_isDirectory entry); [|by intros ?%elem_of_nil]. cbn [negb].
  destruct (existsSync _) eqn:Hex; [|by intros ?%elem_of_nil]. cbn [negb].
  destruct (readChangeProposal _ _ _) as [p|] eqn:Hp;
    [|by intros ?%elem_of_nil].
  intros ->%list_elem_of_singleton.
  apply (readChangeProposal_discovered _ _ _ archivePath) in Hp
    as [Hd Hid]; [|done..].
  split; [done|]. split; [done|]. split; [done|]. by split.
Qed.

(** X16: what discovery returns.  [discoverActiveChanges] and
    [discoverArchivedChanges] throw only when the directory exists and
    cannot be listed, and give no change when it does not exist.
    Every change they return is read from a subdirectory that holds a
    readable, non-empty [proposal.md]: its id is the name of the
    subdirectory (so an archived change keeps the full name of its
    archive directory), its path the subdirectory, its flag
    [isArchived] false for active and true for archived changes; an
    active change is never the [archive] directory; the changes come
    in listing order, at most one per subdirectory. *)
Theorem discovered_changes (workspacePath : str) :
  let changesPath := path_join [workspacePath; CHANGES_DIR] in
  let archivePath := path_join [workspacePath; ARCHIVE_DIR] in
  match discoverActiveChanges workspacePath with
  | None =>
      existsSync changesPath = true
      ∧ readdirSync_withFileTypes changesPath = None
  | Some changes =>
      Forall (λ c, discovered false changesPath c ∧ id c ≠ lit "archive")
        changes
      ∧ directory_names changesPath (List.map id changes)
  end
  ∧ match discoverArchivedChanges workspacePath with
    | None =>
        existsSync archivePath = true
        ∧ readdirSync_withFileTypes archivePath = None
    | Some changes =>
        Forall (λ c, discovered true archivePath c) changes
        ∧ directory_names archivePath (List.map id changes)
    end.
Proof.
  cbn zeta. split.
  - unfold discoverActiveChanges, directory_names.
    destruct (existsSync _) eqn:Hex; cbn [negb];
      [|split; [apply Forall_nil_2|done]].
    destruct (readdirSync_withFileTypes _) as [entries|] eqn:Hdir; [|done].
    destruct (entries_discovered false
                (path_join [workspacePath; CHANGES_DIR])
                (active_entry (path_join [workspacePath; CHANGES_DIR]))
                (λ i, i ≠ lit "archive") entries) as [Hall Hsub].
    + apply active_entry_spec.
    + intros entry. unfold active_entry.
      destruct (negb _ || _); [by left|].
      destruct (negb _); [by left|].
      destruct (readChangeProposal _ _ _); eauto.
    + split; [done|]. by exists entries.
  - unfold discoverArchivedChanges, directory_names.
    destruct (existsSync _) eqn:Hex; cbn [negb];
      [|split; [apply Forall_nil_2|done]].
    destruct (readdirSync_withFileTypes _) as [entries|] eqn:Hdir; [|done].
    destruct (entries_discovered true
                (path_join [workspacePath; ARCHIVE_DIR])
                (archived_entry (path_join [workspacePath; ARCHIVE_DIR]))
                (λ _, True) entries) as [Hall Hsub].
    + apply archived_entry_spec.
    + intros entry. unfold archived_entry.
      destruct (negb _); [by left|].
      destruct (negb _); [by left|].
      destruct (readChangeProposal _ _ _); eauto.
    + split; [|by exists entries].
      eapply Forall_impl; [exact Hall|]. by intros c [? _].
Qed.

End DiscoverFacts.
(** ** The delta parser and the impact *)

Section ImpactFacts.
Import JS Spec PrTypes Calculate.
Context `{Host}.

Lemma or_null_Some (s x : str) : or_null s = Some x → x = s ∧ x ≠ [].
Proof. destruct s; [done|]. by intros [= <-]. Qed.

Lemma matchRequirementHeader_Some (line name' : str) :
  matchRequirementHeader line = Some name' →
  name' ≠ [] ∧ startsWith line (lit "###") = true.
Proof.
  unfold matchRequirementHeader.
  destruct (startsWith line (lit "###")); [|done]. cbn [negb].
  destruct (startsWith _ (lit "Requirement:")); [|done]. cbn [negb].
  by intros [_ ?]%or_null_Some.
Qed.

Lemma matchRenamedFrom_Some (line name' : str) :
  matchRenamedFrom line = Some name' → name' ≠ [].
Proof.
  unfold matchRenamedFrom.
  repeat (match goal with
          | |- context [if ?b then _ else _] => destruct b
          end; try done);
    by intros [_ ?]%or_null_Some.
Qed.

Lemma matchRenamedTo_Some (line name' : str) :
  matchRenamedTo line = Some name' → name' ≠ [].
Proof.
  unfold matchRenamedTo.
  repeat (match goal with
          | |- context [if ?b then _ else _] => destruct b
          end; try done);
    by intros [_ ?]%or_null_Some.
Qed.

Lemma push_current_names (requirements : list ParsedRequirement)
    (currentReq : option ParsedRequirement) :
  Forall (λ r, name r ≠ []) requirements →
  (∀ r, currentReq = Some r → name r ≠ []) →
  Forall (λ r, name r ≠ []) (push_current requirements currentReq).
Proof.
  intros Hr Hc. destruct currentReq as [r|]; [|done]. simpl.
  apply Forall_app. split; [done|].
  apply Forall_cons_2; [by apply Hc|apply Forall_nil_2].
Qed.

Lemma requirements_loop_named (lines : list str)
    (requirements : list ParsedRequirement)
    (currentReq : option ParsedRequirement) :
  Forall (λ r, name r ≠ []) requirements →
  (∀ r, currentReq = Some r → name r ≠ []) →
  Forall (λ r, name r ≠ [])
    (push_current (requirements_loop lines requirements currentReq).1
       (requirements_loop lines requirements currentReq).2).
Proof.
  revert requirements currentReq.
  induction lines as [|line lines IH]; intros requirements currentReq Hr Hc.
  - by apply push_current_names.
  - cbn [requirements_loop].
    destruct (matchRequirementHeader line) as [name'|] eqn:Hm.
    + apply IH; [by apply push_current_names|].
      intros r [= <-]. by apply matchRequirementHeader_Some in Hm as [? _].
    + destruct (isH3Header line && _).
      { apply IH; [by apply push_current_names|done]. }
      destruct (startsWith line (lit "## "));
        [by apply push_current_names|].
      apply IH; [done|]. destruct currentReq as [r|]; [|done].
      intros r' [= <-]. cbn [name]. by apply Hc.
Qed.

Lemma parseRequirementsFromSection_named (sectionContent : str) :
  Forall (λ r, name r ≠ []) (parseRequirementsFromSection sectionContent).
Proof.
  unfold parseRequirementsFromSection.
  pose proof (requirements_loop_named (split LF sectionContent) [] None
                (Forall_nil_2 _) ltac:(done)) as Hn.
  by destruct (requirements_loop _ _ _).
Qed.

Lemma removed_loop_named (lines removed' : list str) :
  Forall (λ n, n ≠ []) removed' →
  Forall (λ n, n ≠ []) (removed_loop lines removed').
Proof.
  revert removed'. induction lines as [|line lines IH]; intros removed' Hr;
    [done|].
  cbn [removed_loop]. cbn zeta.
  destruct (matchRequirementHeader (trim line)) as [name'|] eqn:Hm.
  - apply IH, Forall_app. split; [done|].
    apply Forall_cons_2; [|apply Forall_nil_2].
    by apply matchRequirementHeader_Some in Hm as [? _].
  - destruct (_ || _); [|by apply IH].
    destruct (trim (slice_from (trim line) 2)) as [|c t] eqn:Hi;
      [by apply IH|].
    apply IH, Forall_app. split; [done|].
    apply Forall_cons_2; [done|apply Forall_nil_2].
Qed.

Lemma renamed_loop_named (lines : list str) (renamed' : list RenameOp)
    (currentFrom : option str) :
  Forall (λ rn, from rn ≠ [] ∧ to rn ≠ []) renamed' →
  (∀ f, currentFrom = Some f → f ≠ []) →
  Forall (λ rn, from rn ≠ [] ∧ to rn ≠ [])
    (renamed_loop lines renamed' currentFrom).
Proof.
  revert renamed' currentFrom.
  induction lines as [|line lines IH]; intros renamed' currentFrom Hr Hc;
    [done|].
  cbn [renamed_loop].
  destruct (matchRenamedFrom line) as [fromName|] eqn:Hf.
  - apply IH; [done|]. intros f [= <-].
    by apply matchRenamedFrom_Some in Hf.
  - destruct (matchRenamedTo line) as [toName|] eqn:Ht; [|by apply IH].
    destruct currentFrom as [f|]; [|by apply IH].
    apply IH; [|done]. apply Forall_app. split; [done|].
    apply Forall_cons_2; [|apply Forall_nil_2]. cbn [from to].
    split; [by apply Hc|by apply matchRenamedTo_Some in Ht].
Qed.

Lemma parse_bucket_Forall {A} (P : A → Prop) (parse : str → list A)
    (sectionContent : str) :
  Forall P (parse sectionContent) →
  Forall P (parse_bucket parse sectionContent).
Proof. destruct sectionContent; [intros _; apply Forall_nil_2|done]. Qed.

Lemma parseDeltaSpec_named (filePath : str) :
  let plan := parseDeltaSpec filePath in
  Forall (λ r, name r ≠ []) (plan_added plan)
  ∧ Forall (λ r, name r ≠ []) (plan_modified plan)
  ∧ Forall (λ n, n ≠ []) (plan_removed plan)
  ∧ Forall (λ rn, from rn ≠ [] ∧ to rn ≠ []) (plan_renamed plan).
Proof.
  cbn zeta. unfold parseDeltaSpec.
  destruct (readFileSync filePath) as [content|];
    [|repeat split; apply Forall_nil_2].
  cbn [plan_added plan_modified plan_removed plan_renamed].
  split; [apply parse_bucket_Forall, parseRequirementsFromSection_named|].
  split; [apply parse_bucket_Forall, parseRequirementsFromSection_named|].
  split.
  - apply parse_bucket_Forall, removed_loop_named, Forall_nil_2.
  - apply parse_bucket_Forall, renamed_loop_named; [apply Forall_nil_2|done].
Qed.

Lemma fold_push_change {A} (mk : A → SpecChange)
    (bump : OperationCounts → OperationCounts) (xs : list A) (a : Acc) :
  acc_changes (fold_left (λ a x, push_change (mk x) bump a) xs a)
  = acc_changes a ++ List.map mk xs
  ∧ acc_capabilities (fold_left (λ a x, push_change (mk x) bump a) xs a)
    = acc_capabilities a.
Proof.
  revert a. induction xs as [|x xs IH]; intros a.
  - simpl. by rewrite app_nil_r.
  - cbn [fold_left List.map]. destruct (IH (push_change (mk x) bump a))
      as [-> ->].
    cbn [push_change acc_changes acc_capabilities].
    by rewrite <-app_assoc.
Qed.

Lemma impact_step_changes (a : Acc) (f : SpecFile) :
  acc_changes (impact_step a f)
  = acc_changes a
    ++ plan_changes (sf_capabilityName f) (parseDeltaSpec (sf_filePath f))
  ∧ acc_capabilities (impact_step a f)
    = acc_capabilities a ++ [sf_capabilityName f].
Proof.
  unfold impact_step, plan_changes. cbn zeta.
  repeat match goal with
         | |- context [fold_left (λ a x, push_change (@?mk x) ?bump a) ?xs ?a0] =>
             let Hc := fresh in let Hp := fresh in
             destruct (fold_push_change mk bump xs a0) as [Hc Hp];
             rewrite ?Hc, ?Hp; clear Hc Hp
         end.
  cbn [acc_changes acc_capabilities]. by rewrite <-!app_assoc.
Qed.

Lemma impact_loop_changes (files : list SpecFile) (a : Acc) :
  acc_changes (fold_left impact_step files a)
  = acc_changes a
    ++ flat_map (λ f, plan_changes (sf_capabilityName f)
                        (parseDeltaSpec (sf_filePath f))) files
  ∧ acc_capabilities (fold_left impact_step files a)
    = acc_capabilities a ++ List.map sf_capabilityName files.
Proof.
  revert a. induction files as [|f files IH]; intros a.
  - simpl. by rewrite !app_nil_r.
  - cbn [fold_left flat_map List.map].
    destruct (IH (impact_step a f)) as [-> ->].
    destruct (impact_step_changes a f) as [-> ->].
    by rewrite <-!app_assoc.
Qed.

Lemma plan_changes_well_formed (capabilities : list str)
    (capabilityName' : str) (filePath : str) :
  capabilityName' ∈ capabilities →
  Forall (well_formed_change capabilities)
    (plan_changes capabilityName' (parseDeltaSpec filePath)).
Proof.
  intros Hcap. destruct (parseDeltaSpec_named filePath)
    as (Ha & Hm & Hr & Hn).
  unfold plan_changes. repeat apply Forall_app_2.
  - apply Forall_forall. intros c (r & <- & Hin)%list_elem_of_In%in_map_iff.
    rewrite Forall_forall in Ha.
    specialize (Ha r ltac:(by apply list_elem_of_In)).
    split; [done|]. split; [done|]. by cbn.
  - apply Forall_forall. intros c (r & <- & Hin)%list_elem_of_In%in_map_iff.
    rewrite Forall_forall in Hm.
    specialize (Hm r ltac:(by apply list_elem_of_In)).
    split; [done|]. split; [done|]. by cbn.
  - apply Forall_forall. intros c (r & <- & Hin)%list_elem_of_In%in_map_iff.
    rewrite Forall_forall in Hr.
    specialize (Hr r ltac:(by apply list_elem_of_In)).
    split; [done|]. split; [done|]. by cbn.
  - apply Forall_forall. intros c (r & <- & Hin)%list_elem_of_In%in_map_iff.
    rewrite Forall_forall in Hn.
    destruct (Hn r ltac:(by apply list_elem_of_In)) as [Hf Ht].
    split; [done|]. split; [done|]. cbn. split; [done|]. by eexists.
Qed.

(** X17: the changes of [calculateSpecImpact], without the loops.  The
    capabilities are the names of the delta spec files in order; the
    changes are, file after file, the added, the modified, the removed
    and the renamed requirements of the file's plan; and every change
    belongs to a listed capability, names a non-empty requirement,
    carries content exactly when it adds or modifies, and an old name
    (non-empty) exactly when it renames. *)
Theorem calculateSpecImpact_changes (changeId' workspacePath : str)
    (mode' : PRMode) :
  let impact := calculateSpecImpact changeId' workspacePath mode' in
  let files := findDeltaSpecFiles changeId' workspacePath in
  capabilities impact = List.map sf_capabilityName files
  ∧ changes impact
    = flat_map (λ f, plan_changes (sf_capabilityName f)
                       (parseDeltaSpec (sf_filePath f))) files
  ∧ Forall (well_formed_change (capabilities impact)) (changes impact)
  ∧ changeId impact = changeId' ∧ mode impact = mode'
  ∧ isArchived impact = checkArchiveStatus changeId' workspacePath.
Proof.
  cbn zeta. unfold calculateSpecImpact.
  cbn [capabilities changes changeId mode isArchived].
  destruct (impact_loop_changes (findDeltaSpecFiles changeId' workspacePath)
              {| acc_changes := []; acc_capabilities := [];
                 acc_counts := {| added := 0; modified := 0; removed := 0;
                                  renamed := 0; total := 0 |} |})
    as [-> ->].
  cbn [acc_changes acc_capabilities app].
  split; [done|]. split; [done|]. split; [|done].
  apply Forall_forall. intros c Hc.
  apply list_elem_of_In, in_flat_map in Hc as (f & Hf & Hc).
  assert (sf_capabilityName f
          ∈ List.map sf_capabilityName
              (findDeltaSpecFiles changeId' workspacePath)) as Hcap.
  { apply list_elem_of_In, in_map, Hf. }
  pose proof (plan_changes_well_formed _ _ (sf_filePath f) Hcap) as Hall.
  rewrite Forall_forall in Hall. by apply Hall, list_elem_of_In.
Qed.

End ImpactFacts.

Section ParserFacts.
Import JS Spec PrTypes Calculate.

Lemma startsWith_h3_not_h2 (line : str) :
  startsWith line (lit "###") = true → startsWith line (lit "## ") = false.
Proof.
  by intros [t ->]%startsWith_spec.
Qed.

Lemma push_current_name_app (requirements : list ParsedRequirement)
    (currentReq : option ParsedRequirement) :
  List.map name (push_current requirements currentReq)
  = List.map name requirements
    ++ match currentReq with Some r => [name r] | None => [] end.
Proof.
  destruct currentReq; simpl; [by rewrite List.map_app|by rewrite app_nil_r].
Qed.

Lemma requirements_loop_names (lines : list str)
    (requirements : list ParsedRequirement)
    (currentReq : option ParsedRequirement) :
  List.map name
    (push_current (requirements_loop lines requirements currentReq).1
       (requirements_loop lines requirements currentReq).2)
  = List.map name (push_current requirements currentReq)
    ++ omap matchRequirementHeader (lines_before_h2 lines).
Proof.
  revert requirements currentReq.
  induction lines as [|line lines IH]; intros requirements currentReq.
  - simpl. by rewrite app_nil_r.
  - cbn [requirements_loop lines_before_h2].
    destruct (matchRequirementHeader line) as [name'|] eqn:Hm.
    + destruct (matchRequirementHeader_Some _ _ Hm) as [_ Hh3].
      rewrite (startsWith_h3_not_h2 _ Hh3). cbn [omap list_omap].
      rewrite Hm, IH. cbn [push_current List.map].
      rewrite List.map_app. cbn [List.map name]. by rewrite <-app_assoc.
    + destruct (isH3Header line) eqn:Hh3; cbn [andb].
      * rewrite bool_decide_false by (by intros [? ?]). cbn [negb].
        unfold isH3Header in Hh3.
        assert (startsWith line (lit "###") = true) as Hh.
        { apply startsWith_spec in Hh3 as [t ->]. by apply startsWith_spec;
            exists (SP :: t). }
        rewrite (startsWith_h3_not_h2 _ Hh). cbn [omap list_omap].
        rewrite Hm, IH. by destruct currentReq.
      * destruct (startsWith line (lit "## ")); [by rewrite app_nil_r|].
        cbn [omap list_omap]. rewrite Hm, IH.
        destruct currentReq; cbn [push_current];
          [by rewrite !List.map_app|done].
Qed.

(** X18: the requirements [parseRequirementsFromSection] finds.
    Their names are, in order, the names of the requirement header
    lines of the section up to its first line that starts with
    [## ]: no header is lost, none is invented, and a header of
    another kind only ends the requirement before it. *)
Theorem parseRequirementsFromSection_names (sectionContent : str) :
  List.map name (parseRequirementsFromSection sectionContent)
  = omap matchRequirementHeader
      (lines_before_h2 (split LF sectionContent)).
Proof.
  unfold parseRequirementsFromSection.
  pose proof (requirements_loop_names (split LF sectionContent) [] None)
    as Hn.
  by destruct (requirements_loop _ _ _).
Qed.

End ParserFacts.

Section SectionFacts.
Import JS Spec PrTypes Calculate.

Lemma join_split (sep : N) (s : str) : join [sep] (split sep s) = s.
Proof.
  induction s as [|c t IH]; [done|]. simpl.
  destruct (c =? sep)%N eqn:Hc.
  - apply N.eqb_eq in Hc as ->.
    destruct (split sep t) as [|w ws] eqn:Hs;
      [by apply split_nonempty in Hs|].
    rewrite join_cons2. cbn [app]. by rewrite IH.
  - destruct (split sep t) as [|w ws] eqn:Hs;
      [by apply split_nonempty in Hs|].
    rewrite <-IH. by destruct ws.
Qed.

Lemma split_flat_app (sep : N) (ds : list str) (s : str) :
  Forall (λ p, sep ∉ p) ds →
  split sep (flat_map (λ l, l ++ [sep]) ds ++ s) = ds ++ split sep s.
Proof.
  induction 1 as [|d ds Hd _ IH]; [done|].
  cbn [flat_map]. rewrite <-!app_assoc. cbn [app].
  rewrite split_app_sep by done. by rewrite IH.
Qed.

Lemma h2_line_starts (line : str) :
  is_h2_line line = false → startsWith line (lit "## ") = false.
Proof.
  unfold is_h2_line. destruct (startsWith line (lit "## ")) eqn:Hs; [|done].
  apply startsWith_spec in Hs as [t ->]. done.
Qed.

Lemma lines_before_h2_all (lines : list str) :
  Forall (λ line, is_h2_line line = false) lines →
  lines_before_h2 lines = lines.
Proof.
  induction 1 as [|line lines Hl _ IH]; [done|]. cbn [lines_before_h2].
  rewrite (h2_line_starts _ Hl). by rewrite IH.
Qed.

Lemma section_end_lines (ds lines : list str) :
  lines ≠ [] →
  Forall (λ p, LF ∉ p) ds → Forall (λ p, LF ∉ p) lines →
  Forall (λ line, is_h2_line line = false) ds →
  Forall (λ line, is_h2_line line = false)
    (split LF
       (section_end (flat_map (λ l, l ++ [LF]) ds ++ join [LF] lines) lines
          (len (flat_map (λ l, l ++ [LF]) ds)))).
Proof.
  intros Hne Hds Hlines. revert ds Hne Hds.
  induction Hlines as [|line lines Hline Hlines IH]; intros ds Hne Hds Hgood;
    [done|].
  cbn [section_end]. fold (is_h2_line line).
  destruct (is_h2_line line) eqn:Hh2.
  - rewrite slice_0 by apply len_nonneg. unfold len. rewrite Nat2Z.id.
    rewrite take_app_length.
    rewrite <-(app_nil_r (flat_map _ ds)), split_flat_app by done.
    apply Forall_app_2; [done|]. by apply Forall_cons_2; [|apply Forall_nil_2].
  - destruct lines as [|line' lines].
    + cbn [section_end join]. rewrite split_flat_app by done.
      rewrite split_no_sep by done.
      apply Forall_app_2; [done|]. by apply Forall_cons_2; [|apply Forall_nil_2].
    + specialize (IH (ds ++ [line]) ltac:(done)).
      rewrite flat_map_app in IH. cbn [flat_map] in IH.
      rewrite app_nil_r, <-!app_assoc in IH. cbn [app] in IH.
      rewrite join_cons2. cbn [app].
      replace (len (flat_map (λ l, l ++ [LF]) ds) + len line + 1)
        with (len (flat_map (λ l, l ++ [LF]) ds ++ line ++ [LF])).
      2:{ rewrite !len_app. unfold len. simpl. lia. }
      apply IH.
      * apply Forall_app_2; [done|]. by apply Forall_cons_2; [|apply Forall_nil_2].
      * apply Forall_app_2; [done|]. by apply Forall_cons_2; [|apply Forall_nil_2].
Qed.

Lemma findDeltaSectionContent_no_h2 (content : str) (dt : DeltaType) :
  Forall (λ line, is_h2_line line = false)
    (split LF (findDeltaSectionContent content dt)).
Proof.
  unfold findDeltaSectionContent. cbn zeta.
  destruct (_ =? -1); [by apply Forall_cons_2; [|apply Forall_nil_2]|].
  set (rest := slice_from content _).
  pose proof (section_end_lines [] (split LF rest) (split_nonempty LF rest)
                (Forall_nil_2 _) (split_parts_no_sep LF rest)
                (Forall_nil_2 _)) as Hs.
  cbn [flat_map app] in Hs. by rewrite join_split in Hs.
Qed.

(** X19: what [findDeltaSectionContent] hands to the section
    parsers.  No line of the content it returns opens a second-level
    section, indented or not; so the requirements parser never meets
    the [## ] line at which it would stop, and the names it finds are
    those of all requirement header lines of the content. *)
Theorem findDeltaSectionContent_lines (content : str) (dt : DeltaType) :
  let sectionContent := findDeltaSectionContent content dt in
  Forall (λ line, is_h2_line line = false) (split LF sectionContent)
  ∧ List.map name (parseRequirementsFromSection sectionContent)
    = omap matchRequirementHeader (split LF sectionContent).
Proof.
  cbn zeta. pose proof (findDeltaSectionContent_no_h2 content dt) as Hno.
  split; [done|]. unfold parseRequirementsFromSection.
  pose proof (requirements_loop_names
                (split LF (findDeltaSectionContent content dt)) [] None)
    as Hn.
  rewrite lines_before_h2_all in Hn by done.
  by destruct (requirements_loop _ _ _).
Qed.

End SectionFacts.

Section RenamedFacts.
Import JS Spec PrTypes Calculate.
Context `{Host}.

Lemma renamed_loop_bounds (lines : list str) (renamed' : list RenameOp)
    (currentFrom : option str) :
  (length (renamed_loop lines renamed' currentFrom)
   ≤ length renamed' + length (from_lines lines)
     + match currentFrom with Some _ => 1 | None => 0 end)%nat
  ∧ (length (renamed_loop lines renamed' currentFrom)
     ≤ length renamed' + length (to_lines lines))%nat.
Proof.
  revert renamed' currentFrom.
  induction lines as [|line lines IH]; intros renamed' currentFrom.
  - simpl. lia.
  - cbn [renamed_loop]. unfold from_lines, to_lines in *.
    cbn [List.filter].
    destruct (matchRenamedFrom line) as [fromName|] eqn:Hf.
    + rewrite bool_decide_true by done.
      rewrite bool_decide_false by (by intros [? _]).
      destruct (IH renamed' (Some fromName)) as [IH1 IH2].
      cbn [length]. destruct currentFrom; lia.
    + rewrite bool_decide_false by (by intros [? ?]).
      destruct (matchRenamedTo line) as [toName|] eqn:Ht.
      * rewrite bool_decide_true by (split; [done|by eexists]).
        cbn [length]. destruct currentFrom as [f|].
        -- destruct (IH (renamed' ++ [{| from := f; to := toName |}]) None)
             as [IH1 IH2].
           rewrite length_app in *. simpl in *. lia.
        -- destruct (IH renamed' None) as [IH1 IH2]. lia.
      * rewrite bool_decide_false by (by intros [_ [? ?]]).
        destruct (IH renamed' currentFrom) as [IH1 IH2].
        destruct currentFrom; lia.
Qed.

Lemma renamed_loop_sources (all lines : list str)
    (renamed' : list RenameOp) (currentFrom : option str) :
  let sourced := λ rn,
    ∃ lf lt, lf ∈ all ∧ lt ∈ all
             ∧ matchRenamedFrom lf = Some (from rn)
             ∧ matchRenamedFrom lt = None
             ∧ matchRenamedTo lt = Some (to rn) in
  (∀ l, l ∈ lines → l ∈ all) →
  Forall sourced renamed' →
  (∀ f, currentFrom = Some f →
        ∃ lf, lf ∈ all ∧ matchRenamedFrom lf = Some f) →
  Forall sourced (renamed_loop lines renamed' currentFrom).
Proof.
  cbn zeta. revert renamed' currentFrom.
  induction lines as [|line lines IH]; intros renamed' currentFrom
    Hin Hr Hc; [done|].
  assert (∀ l, l ∈ lines → l ∈ all) as Hin'
    by (intros l Hl; apply Hin; by right).
  assert (line ∈ all) as Hline by (apply Hin; by left).
  cbn [renamed_loop].
  destruct (matchRenamedFrom line) as [fromName|] eqn:Hf.
  - apply IH; [done|done|]. intros f [= <-]. by exists line.
  - destruct (matchRenamedTo line) as [toName|] eqn:Ht; [|by apply IH].
    destruct currentFrom as [f|]; [|by apply IH].
    apply IH; [done| |done]. apply Forall_app_2; [done|].
    apply Forall_cons_2; [|apply Forall_nil_2]. cbn [from to].
    destruct (Hc f eq_refl) as (lf & Hlf & Hmf).
    by exists lf, line.
Qed.

(** X20: the pairs [parseRenamedSection] builds.  Every rename takes
    its old name from a FROM line and its new name from a TO line of
    the section that is not itself a FROM line, and there are never
    more renames than FROM lines nor than TO lines: a TO without a
    FROM before it, or a FROM without a TO after it, gives none. *)
Theorem parseRenamedSection_pairs (sectionContent : str) :
  let lines := split LF sectionContent in
  let renames := parseRenamedSection sectionContent in
  Forall (λ rn, ∃ lf lt, lf ∈ lines ∧ lt ∈ lines
                         ∧ matchRenamedFrom lf = Some (from rn)
                         ∧ matchRenamedFrom lt = None
                         ∧ matchRenamedTo lt = Some (to rn)) renames
  ∧ (length renames ≤ length (from_lines lines))%nat
  ∧ (length renames ≤ length (to_lines lines))%nat.
Proof.
  cbn zeta. unfold parseRenamedSection. split.
  - apply (renamed_loop_sources (split LF sectionContent)); [done| |done].
    apply Forall_nil_2.
  - destruct (renamed_loop_bounds (split LF sectionContent) [] None)
      as [H1 H2].
    simpl in H1, H2. lia.
Qed.

End RenamedFacts.

Section CountFacts.
Import JS Spec PrTypes PrFormat.

Lemma count_changes_from (changes : list SpecChange) (m : gmap str nat)
    (capability : str) :
  default 0%nat
    (fold_left (λ (m : gmap str nat) change,
       let count := default 0%nat (m !! capabilityName change) in
       <[capabilityName change := (count + 1)%nat]> m) changes m
     !! capability)
  = (default 0%nat (m !! capability)
     + length (List.filter (λ c, str_eqb (capabilityName c) capability)
                 changes))%nat.
Proof.
  revert m. induction changes as [|c changes IH]; intros m.
  - simpl. lia.
  - cbn [fold_left List.filter]. rewrite IH. cbn zeta.
    destruct (str_eqb (capabilityName c) capability) eqn:Hc.
    + apply str_eqb_eq in Hc as ->. rewrite lookup_insert_eq.
      cbn [length from_option Datatypes.id]. lia.
    + assert (capabilityName c ≠ capability) as Hne.
      { intros Heq. apply str_eqb_eq in Heq. congruence. }
      by rewrite lookup_insert_ne.
Qed.

Lemma count_changes_lookup (changes : list SpecChange) (capability : str) :
  default 0%nat (count_changes changes !! capability)
  = length (List.filter (λ c, str_eqb (capabilityName c) capability)
              changes).
Proof.
  unfold count_changes. rewrite count_changes_from.
  by rewrite lookup_empty.
Qed.

Lemma startsWith_two_lines (a b r : str) (rs : list str) :
  startsWith (join [LF] (a :: b :: r :: rs)) (a ++ [LF] ++ b ++ [LF]) = true.
Proof.
  rewrite !join_cons2. apply startsWith_spec. exists (join [LF] (r :: rs)).
  by rewrite <-!app_assoc.
Qed.

Lemma formatCapabilityChanges_summary (capability : str)
    (changes : list SpecChange) :
  let n := length (List.filter (λ c, str_eqb (capabilityName c) capability)
                     changes) in
  match n with
  | O => formatCapabilityChanges capability changes = []
  | S _ =>
      startsWith (formatCapabilityChanges capability changes)
        (lit "<details>" ++ [LF] ++ summary_line capability n ++ [LF])
      = true
  end.
Proof.
  cbn zeta. unfold formatCapabilityChanges.
  destruct (List.filter _ changes) as [|c0 cs] eqn:Hf; [done|].
  cbn zeta. set (n := length (c0 :: cs)).
  change (length (c0 :: cs)) with n. cbn [length] in n.
  cbn iota.
  repeat match goal with
         | |- context [match List.filter ?f ?l with [] => _ | _ :: _ => _ end] =>
             destruct (List.filter f l)
         end;
    cbn [app]; apply startsWith_two_lines.
Qed.

(** X21: the two places where a PR comment counts the changes of a
    capability agree.  The number [formatCapabilitiesList] reads from
    its map is the number of changes of that capability; when it is 0
    [formatCapabilityChanges] renders no section, and otherwise the
    section opens with a summary line that shows the same number. *)
Theorem capability_counts_agree (capability : str)
    (changes : list SpecChange) :
  let n := default 0%nat (count_changes changes !! capability) in
  n = length (List.filter (λ c, str_eqb (capabilityName c) capability)
                changes)
  ∧ match n with
    | O => formatCapabilityChanges capability changes = []
    | S _ =>
        startsWith (formatCapabilityChanges capability changes)
          (lit "<details>" ++ [LF] ++ summary_line capability n ++ [LF])
        = true
    end.
Proof.
  cbn zeta. rewrite count_changes_lookup. split; [done|].
  apply formatCapabilityChanges_summary.
Qed.

End CountFacts.
(** ** The labels of the repository *)

Section LabelFacts.
Import JS Spec IssueTypes Remote Labels.
Context `{ActionInputs}.

Lemma create_missing_requests (octokit : LabelOctokit) (repo' : RepoContext)
    (existingLabelNames requiredLabels : list str)
    (log : list LabelRequest) :
  let missing :=
    List.filter
      (λ l, negb (existsb (str_eqb (toLowerCase l)) existingLabelNames))
      requiredLabels in
  let sent := λ i,
    log ++ List.map (λ l, CreateLabel (create_params repo' l))
             (take i missing) in
  let run := create_missing octokit repo' existingLabelNames requiredLabels
               log in
  ∃ k, (k ≤ length missing)%nat
       ∧ run.2 = sent k
       ∧ match run.1 with
         | Answered _ =>
             k = length missing
             ∧ ∀ i l, missing !! i = Some l →
                 label_accepted octokit (sent i) (create_params repo' l)
         | Rejected e =>
             status e ≠ Some 422%N
             ∧ ∃ l, missing !! pred k = Some l ∧ (0 < k)%nat
                    ∧ createLabel octokit (sent (pred k))
                        (create_params repo' l) = Rejected e
                    ∧ ∀ i l', (i < pred k)%nat → missing !! i = Some l' →
                        label_accepted octokit (sent i)
                          (create_params repo' l')
         end.
Proof.
  cbn zeta. revert log.
  induction requiredLabels as [|labelName rest IH]; intros log.
  - exists 0%nat. simpl. rewrite app_nil_r. by repeat split.
  - cbn [create_missing List.filter].
    destruct (negb (existsb _ existingLabelNames)) eqn:Hmiss;
      [|apply IH].
    cbn zeta. set (params := create_params repo' labelName).
    specialize (IH (log ++ [CreateLabel params])).
    set (missing := List.filter _ rest) in *.
    set (create := λ l, CreateLabel (create_params repo' l)) in *.
    assert (∀ i, log ++ List.map create (take (S i) (labelName :: missing))
                 = (log ++ [CreateLabel params])
                   ++ List.map create (take i missing)) as Hsent.
    { intros i. cbn [take List.map]. by rewrite <-app_assoc. }
    assert (label_accepted octokit log params
            ∨ ∃ e, createLabel octokit log params = Rejected e
                   ∧ status e ≠ Some 422%N) as [Hacc|(e & Hcreate & Hst)].
    { unfold label_accepted.
      destruct (createLabel octokit log params) as [[]|e]; [by left|].
      destruct (decide (status e = Some 422%N)); [by left|].
      right. by exists e. }
    + assert (match createLabel octokit log params with
              | Answered _ =>
                  create_missing octokit repo' existingLabelNames rest
                    (log ++ [CreateLabel params])
              | Rejected error =>
                  if negb (bool_decide (status error = Some 422%N))
                  then (Rejected error, log ++ [CreateLabel params])
                  else create_missing octokit repo' existingLabelNames rest
                         (log ++ [CreateLabel params])
              end
              = create_missing octokit repo' existingLabelNames rest
                  (log ++ [CreateLabel params])) as ->.
      { unfold label_accepted in Hacc.
        destruct (createLabel octokit log params) as [[]|e]; [done|].
        by rewrite bool_decide_true. }
      destruct IH as (k & Hk & Hlog & Hres).
      exists (S k). split; [simpl; lia|]. split; [by rewrite Hlog, Hsent|].
      destruct (create_missing _ _ _ _ _).1 as [[]|e'].
      * destruct Hres as [-> Hall]. split; [done|].
        intros [|i] l Hl.
        -- injection Hl as <-. simpl. by rewrite app_nil_r.
        -- rewrite Hsent. by apply Hall.
      * destruct Hres as (Hst & l & Hl & Hpos & Hrej & Hall).
        split; [done|]. exists l.
        destruct k as [|k]; [lia|]. cbn [pred] in *.
        split; [done|]. split; [lia|]. split; [by rewrite Hsent|].
        intros [|i] l' Hi Hl'.
        -- injection Hl' as <-. simpl. by rewrite app_nil_r.
        -- rewrite Hsent. apply Hall; [lia|done].
    + rewrite Hcreate, bool_decide_false by done. cbn [negb].
      exists 1%nat. cbn [fst snd take List.map length pred].
      split; [lia|]. split; [done|]. split; [done|].
      exists labelName. split; [done|]. split; [lia|].
      rewrite app_nil_r. split; [done|]. intros i l' Hi. lia.
Qed.

(** X22: the requests of [ensureLabelsExist].  It lists the labels of
    the repository first and passes a failure of the listing on.  It
    then asks to create, in order, the required labels (the configured
    labels and the management label) whose lower-cased name is not the
    lower-cased name of an existing label, and no other.  The run
    ends well exactly when every one of these requests is answered or
    rejected with status 422; otherwise it ends with the error of the
    first request that is rejected with another status, right after
    that request. *)
Theorem ensureLabelsExist_requests (octokit : LabelOctokit)
    (repo' : RepoContext) (config : IssueSyncConfig)
    (log : list LabelRequest) :
  let run := ensureLabelsExist octokit repo' config log in
  let listing := ListLabelsForRepo (owner repo') (repo repo') in
  match listLabelsForRepo octokit log (owner repo') (repo repo') with
  | Rejected e => run = (Rejected e, log ++ [listing])
  | Answered existingLabels =>
      let missing :=
        List.filter
          (λ l, negb (existsb (str_eqb (toLowerCase l))
                        (List.map toLowerCase existingLabels)))
          (IssueRun.allLabels config) in
      let sent := λ i,
        (log ++ [listing])
        ++ List.map (λ l, CreateLabel (create_params repo' l))
             (take i missing) in
      ∃ k, (k ≤ length missing)%nat
           ∧ run.2 = sent k
           ∧ match run.1 with
             | Answered _ =>
                 k = length missing
                 ∧ ∀ i l, missing !! i = Some l →
                     label_accepted octokit (sent i) (create_params repo' l)
             | Rejected e =>
                 status e ≠ Some 422%N
                 ∧ ∃ l, missing !! pred k = Some l ∧ (0 < k)%nat
                        ∧ createLabel octokit (sent (pred k))
                            (create_params repo' l) = Rejected e
                        ∧ ∀ i l', (i < pred k)%nat →
                            missing !! i = Some l' →
                            label_accepted octokit (sent i)
                              (create_params repo' l')
             end
  end.
Proof.
  cbn zeta. unfold ensureLabelsExist.
  destruct (listLabelsForRepo octokit log _ _) as [existingLabels|e];
    [|done].
  fold (IssueRun.allLabels config).
  apply (create_missing_requests octokit repo'
           (List.map toLowerCase existingLabels)
           (IssueRun.allLabels config)
           (log ++ [ListLabelsForRepo (owner repo') (repo repo')])).
Qed.

(** X23: what [getLabelColor] and [getLabelDescription] pass to the
    API.  The color is one of the four six-digit colors and the
    description one of the three texts or empty, except for a label
    whose lower-cased name is a member name of [Object.prototype]
    (such as [constructor]): for it both are that inherited member,
    not a string.  The three known labels get their own color. *)
Theorem getLabelColor_values (labelName : str) :
  match getLabelColor labelName, getLabelDescription labelName with
  | Str color, Str description =>
      (toLowerCase labelName ∉ prototype_keys)
      ∧ color ∈ [lit "1D76DB"; lit "7B68EE"; lit "5319E7"; lit "EDEDED"]
      ∧ (color = lit "1D76DB" ↔
         toLowerCase labelName = lit "change-proposal")
      ∧ (color = lit "7B68EE" ↔ toLowerCase labelName = lit "spectr")
      ∧ (color = lit "5319E7" ↔
         toLowerCase labelName = lit "spectr-managed")
  | Inherited c, Inherited d =>
      c = toLowerCase labelName ∧ d = toLowerCase labelName
      ∧ toLowerCase labelName ∈ prototype_keys
  | _, _ => False
  end.
Proof.
  unfold getLabelColor, getLabelDescription, get_or. cbn zeta.
  cbn [List.find fst snd].
  generalize (toLowerCase labelName). intros key.
  destruct (str_eqb (lit "change-proposal") key) eqn:H1.
  { apply str_eqb_eq in H1 as <-. cbn iota. compute_done. }
  destruct (str_eqb (lit "spectr") key) eqn:H2.
  { apply str_eqb_eq in H2 as <-. cbn iota. compute_done. }
  destruct (str_eqb (lit "spectr-managed") key) eqn:H3.
  { apply str_eqb_eq in H3 as <-. cbn iota. compute_done. }
  assert (∀ k, str_eqb k key = false → key ≠ k) as Hne.
  { intros k Hk ->. by rewrite (proj2 (str_eqb_eq _ _) eq_refl) in Hk. }
  apply Hne in H1, H2, H3.
  destruct (existsb (str_eqb key) prototype_keys) eqn:Hp.
  - split; [done|]. split; [done|].
    apply existsb_exists in Hp as (k & Hk & Heq).
    apply str_eqb_eq in Heq as <-. by apply list_elem_of_In.
  - split.
    { intros Hin. apply list_elem_of_In in Hin.
      assert (existsb (str_eqb key) prototype_keys = true) as Ht.
      { apply existsb_exists. exists key. split; [done|by apply str_eqb_eq]. }
      congruence. }
    split; [compute_done|].
    split; [|split]; (split; [by intros [=]|by intros ->]).
Qed.

End LabelFacts.

Section LabelExamples.
Import JS Labels.

(** A label named [Constructor] is given the constructor of objects as
    its color. *)
Example getLabelColor_constructor :
  getLabelColor (H := DemoRun.inputs) (lit "Constructor")
  = Inherited (lit "constructor")
  ∧ getLabelColor (H := DemoRun.inputs) (lit "Spectr") = Str (lit "7B68EE").
Proof. split; by vm_compute. Qed.

End LabelExamples.

(** ** The plan of a delta spec, bucket by bucket *)

Section DeltaPlanFacts.
Import JS Spec PrTypes Calculate.
Context `{Host}.








End DeltaPlanFacts.

Section DeltaPlanExamples.
Import JS Spec PrTypes Calculate.



End DeltaPlanExamples.
